(** * ujson: a strict JSON-like parser with an access-tracking accessor layer

    Shallow embedding of [src/ujson.h] and [src/ujson.cpp].

    - The value tree ([ValImpl]) keeps the layout of the C++ class: the
      union [m_data], the tag word [m_type] (a 32-bit mask whose top bit is
      [vtUsedBit]), [m_line_no], [m_name] and [m_idx].
    - C++ exceptions become the [Throw] outcome of [res].
    - A [const Val&] handed to the application is a position inside the
      document ([ref]); the accessor layer is written in a state monad over
      the document root, because reading an element sets a bit in the tree.
    - The parser threads its two fields ([m_next], [m_line_count]); loops
      that are not structurally recursive carry a fuel, and running out of
      fuel is the distinguished outcome [None]. *)

From Stdlib Require Import ZArith List String Ascii Bool Lia.
From Stdlib Require Import SpecFloat.
From Stdlib Require Import Decimal DecimalString DecimalZ DecimalPos DecimalN DecimalFacts.
From stdpp Require Import base option list gmap strings.

Local Open Scope string_scope.
Local Open Scope Z_scope.

(** ** Machine integers *)

Definition INT32_MIN : Z := -2147483648.
Definition INT32_MAX : Z := 2147483647.
Definition INT64_MIN : Z := -9223372036854775808.
Definition INT64_MAX : Z := 9223372036854775807.

(** Two's complement reduction to [w] bits: the result of a conversion to, or
    of wrap-around arithmetic in, a signed [w]-bit integer type. *)
Definition wrap_signed (w : Z) (n : Z) : Z :=
  let m := n mod 2 ^ w in
  if m <? 2 ^ (w - 1) then m else m - 2 ^ w.

Definition to_int32 : Z -> Z := wrap_signed 32.
Definition to_int64 : Z -> Z := wrap_signed 64.
Definition to_uint32 (n : Z) : Z := n mod 2 ^ 32.

(** ** Doubles

    [double] is IEEE-754 binary64, in the Standard Library's specification of
    floating-point numbers. *)

Definition double : Type := spec_float.
Definition prec : Z := 53.
Definition emax : Z := 1024.

(** Conversion of a 64-bit integer to [double], as in the implicit conversion
    of [F64::get]: exact where the integer is representable, otherwise to the
    nearest double, ties to even (the default rounding mode). *)
Definition i64_to_double (n : Z) : double := binary_normalize prec emax n 0 false.

Definition double_ltb (x y : double) : bool := SFltb x y.
Definition double_leb (x y : double) : bool := SFleb x y.

(** ** ujson.h: [enum ValType] *)

Definition vtNone : Z := 0.
Definition vtNull : Z := Z.shiftl 1 0.
Definition vtBool : Z := Z.shiftl 1 1.
Definition vtInt  : Z := Z.shiftl 1 2.
Definition vtF64  : Z := Z.shiftl 1 3.
Definition vtStr  : Z := Z.shiftl 1 4.
Definition vtArr  : Z := Z.shiftl 1 5.
Definition vtObj  : Z := Z.shiftl 1 6.

(** Bit in [m_type] indicating that the value was accessed by the
    application. *)
Definition vtUsedBit : Z := Z.shiftl 1 31.

(** ** The value tree *)

(** The union [m_data].  [d_list] is a [List] (array), [d_dict] a [Dict]
    (object): the [values] vector plus the name -> position map. *)
Inductive Data (V : Type) : Type :=
| d_zero
| d_b (b : bool)
| d_i64 (n : Z)
| d_f64 (x : double)
| d_str (s : string)
| d_list (values : list V)
| d_dict (values : list V) (map : gmap string Z).

Arguments d_zero {V}.
Arguments d_b {V} b.
Arguments d_i64 {V} n.
Arguments d_f64 {V} x.
Arguments d_str {V} s.
Arguments d_list {V} values.
Arguments d_dict {V} values map.

#[warnings="-register-all"]
Inductive ValImpl : Type :=
  mkValImpl {
    m_data : Data ValImpl;
    m_type : Z;
    m_line_no : Z;
    m_name : string;
    m_idx : Z
  }.

(** [m_data.list->values] *)
Definition list_values (v : ValImpl) : list ValImpl :=
  match m_data v with
  | d_list values => values
  | d_dict values _ => values
  | _ => []
  end.

(** [static_cast<Dict*>(m_data.list)->map] *)
Definition dict_map (v : ValImpl) : gmap string Z :=
  match m_data v with
  | d_dict _ map => map
  | _ => ∅
  end.

(** ** Outcomes and the error model *)

(** The fields [ErrValue] copies out of the offending value. *)
Record ErrValue : Type := mkErrValue {
  line : Z;
  val_name : string;
  val_idx : Z;
  val_type : Z
}.

Inductive Err : Type :=
| ErrSyntax (msg : string) (line : Z)
| ErrBadType (ev : ErrValue) (expected_type : Z)
| ErrBadIntRange (ev : ErrValue) (lo hi : Z)
| ErrBadF64Range (ev : ErrValue) (lo hi : double)
| ErrMemberNotFound (ev : ErrValue)
| ErrUnknownMember (ev : ErrValue)
| ErrBadEnum (ev : ErrValue)
| std_out_of_range.

(** [std::runtime_error::what()] *)
Definition what (e : Err) : string :=
  match e with
  | ErrSyntax msg _ => msg
  | ErrBadType _ _ => "bad type"
  | ErrBadIntRange _ _ _ => "bad integer range"
  | ErrBadF64Range _ _ _ => "bad float range"
  | ErrMemberNotFound _ => "member not found"
  | ErrUnknownMember _ => "unknown member"
  | ErrBadEnum _ => "unsupported value"
  | std_out_of_range => "vector::at"
  end.

Inductive res (A : Type) : Type :=
| Ok (a : A)
| Throw (e : Err).

Arguments Ok {A} a.
Arguments Throw {A} e.

Definition res_bind {A B} (x : res A) (k : A -> res B) : res B :=
  match x with
  | Ok a => k a
  | Throw e => Throw e
  end.

(** ** class ValImpl *)

Module ValImpl.

(** A default-constructed [ValImpl]. *)
Definition new : ValImpl :=
  {| m_data := d_zero; m_type := vtNull; m_line_no := 0; m_name := EmptyString; m_idx := -1 |}.

Definition set_data (d : Data ValImpl) (t : Z) (v : ValImpl) : ValImpl :=
  {| m_data := d; m_type := t; m_line_no := m_line_no v;
     m_name := m_name v; m_idx := m_idx v |}.

Definition init_bool (b : bool) : ValImpl -> ValImpl := set_data (d_b b) vtBool.
Definition init_int (n : Z) : ValImpl -> ValImpl := set_data (d_i64 n) vtInt.
Definition init_f64 (x : double) : ValImpl -> ValImpl := set_data (d_f64 x) vtF64.
Definition init_str (s : string) : ValImpl -> ValImpl := set_data (d_str s) vtStr.
Definition init_arr : ValImpl -> ValImpl := set_data (d_list []) vtArr.
Definition init_obj : ValImpl -> ValImpl := set_data (d_dict [] ∅) vtObj.

(** [m_type |= vtUsedBit] *)
Definition mark_as_used (v : ValImpl) : ValImpl :=
  {| m_data := m_data v; m_type := Z.lor (m_type v) vtUsedBit;
     m_line_no := m_line_no v; m_name := m_name v; m_idx := m_idx v |}.

(** [m_type & vtUsedBit], as the test [0 == (v->m_type & vtUsedBit)] reads it. *)
Definition used (v : ValImpl) : bool :=
  negb (Z.land (m_type v) vtUsedBit =? 0).

End ValImpl.

(** ** class Val (the parts that only read one value) *)

Module Val.

(** [m_type & ~vtUsedBit], in 32 bits. *)
Definition get_type (v : ValImpl) : Z :=
  Z.land (m_type v) (Z.lxor (Z.ones 32) vtUsedBit).

Definition get_idx (v : ValImpl) : Z := m_idx v.
Definition get_name (v : ValImpl) : string := m_name v.
Definition get_line (v : ValImpl) : Z := m_line_no v.

Definition is_num (v : ValImpl) : bool :=
  negb (Z.land (get_type v) (Z.lor vtInt vtF64) =? 0).

(** The constructor of [ErrValue]. *)
Definition err_value (v : ValImpl) : ErrValue :=
  {| line := get_line v; val_name := get_name v;
     val_idx := get_idx v; val_type := get_type v |}.

(** [val_cast<T, E>]: [T_type] is [T::type()]. *)
Definition val_cast (T_type E : Z) (v : ValImpl) : res ValImpl :=
  if Z.land (get_type v) E =? 0
  then Throw (ErrBadType (err_value v) T_type)
  else Ok v.

Definition as_bool : ValImpl -> res ValImpl := val_cast vtBool vtBool.
Definition as_int  : ValImpl -> res ValImpl := val_cast vtInt vtInt.
Definition as_f64  : ValImpl -> res ValImpl := val_cast vtF64 (Z.lor vtInt vtF64).
Definition as_str  : ValImpl -> res ValImpl := val_cast vtStr vtStr.
Definition as_arr  : ValImpl -> res ValImpl := val_cast vtArr vtArr.
Definition as_obj  : ValImpl -> res ValImpl := val_cast vtObj vtObj.

End Val.

(** ** Scalar views.  Reading a member of the union that is not the active
    one is undefined in C++; the model returns a fixed value there, and every
    path through the public interface reaches these only behind [val_cast]. *)

Module Bool.
Definition get (v : ValImpl) : bool :=
  match m_data v with d_b b => b | _ => false end.
End Bool.

Module Int.

Definition get (v : ValImpl) : Z :=
  match m_data v with d_i64 n => n | _ => 0 end.

Definition get_lo_hi (v : ValImpl) (lo hi : Z) : res Z :=
  let num := get v in
  if (lo <=? hi) && ((num <? lo) || (num >? hi))
  then Throw (ErrBadIntRange (Val.err_value v) lo hi)
  else Ok num.

Definition get_i32 (v : ValImpl) : res Z :=
  res_bind (get_lo_hi v INT32_MIN INT32_MAX) (fun n => Ok (to_int32 n)).

Definition get_i32_lo_hi (v : ValImpl) (lo hi : Z) : res Z :=
  let '(lo, hi) := if lo >? hi then (INT32_MIN, INT32_MAX) else (lo, hi) in
  res_bind (get_lo_hi v lo hi) (fun n => Ok (to_int32 n)).

End Int.

Module F64.

Definition get (v : ValImpl) : double :=
  if negb (Z.land vtInt (Val.get_type v) =? 0)
  then i64_to_double (match m_data v with d_i64 n => n | _ => 0 end)
  else match m_data v with d_f64 x => x | _ => S754_zero false end.

Definition get_lo_hi (v : ValImpl) (lo hi : double) : res double :=
  let num := get v in
  if double_leb lo hi && (double_ltb num lo || double_ltb hi num)
  then Throw (ErrBadF64Range (Val.err_value v) lo hi)
  else Ok num.

End F64.

Module Str.

Definition get (v : ValImpl) : string :=
  match m_data v with d_str s => s | _ => EmptyString end.

(** The linear search of [get_enum_idx], from position [i]. *)
Fixpoint enum_search (str : string) (str_set : list string) (i : Z) : option Z :=
  match str_set with
  | [] => None
  | s :: rest => if String.eqb str s then Some i else enum_search str rest (i + 1)
  end.

Definition get_enum_idx (v : ValImpl) (str_set : list string) : res Z :=
  match enum_search (get v) str_set 0 with
  | Some i => Ok (to_int32 i)
  | None => Throw (ErrBadEnum (Val.err_value v))
  end.

End Str.

(** ** Tree-wide operations *)

(** [v->get_type() & (vtArr | vtObj)] *)
Definition is_container (v : ValImpl) : bool :=
  negb (Z.land (Val.get_type v) (Z.lor vtArr vtObj) =? 0).

(** [arr.get_type() & vtObj] *)
Definition is_obj (v : ValImpl) : bool :=
  negb (Z.land (Val.get_type v) vtObj =? 0).

(** The body of [for (int32_t i = 0; i < arr.get_len(); i++)] in
    [do_reject_unknow_members], over the [values] vector of [arr]; [self] is
    the recursive call. *)
Definition reject_loop (self : ValImpl -> res unit) (arr : ValImpl)
  : list ValImpl -> res unit :=
  fix loop (values : list ValImpl) : res unit :=
    match values with
    | [] => Ok tt
    | v :: rest =>
        if (negb (ValImpl.used v)) && is_obj arr
        then Throw (ErrUnknownMember (Val.err_value v))
        else match self v with
             | Ok _ => loop rest
             | Throw e => Throw e
             end
    end.

Fixpoint do_reject_unknow_members (v : ValImpl) : res unit :=
  if is_container v then
    match m_data v with
    | d_list values | d_dict values _ =>
        reject_loop do_reject_unknow_members v values
    | _ => Ok tt
    end
  else Ok tt.

(** Replaces the [values] vector of a container, as the loops that set the
    used bit of elements leave it. *)
Definition map_values (f : ValImpl -> ValImpl) (d : Data ValImpl) : Data ValImpl :=
  match d with
  | d_list values => d_list (map f values)
  | d_dict values m => d_dict (map f values) m
  | d => d
  end.

(** [v] with its union replaced by [d]. *)
Definition with_data (d : Data ValImpl) (v : ValImpl) : ValImpl :=
  {| m_data := d; m_type := m_type v; m_line_no := m_line_no v;
     m_name := m_name v; m_idx := m_idx v |}.

(** The body of the loop of [do_ignore_members], on one element:
    [v->mark_as_used(); do_ignore_members(v);].  The used bit lives in the
    tree, so the function returns the element as it is left. *)
Fixpoint ignore_element (v : ValImpl) : ValImpl :=
  let v' := ValImpl.mark_as_used v in
  if is_container v'
  then with_data
         match m_data v with
         | d_list values => d_list (map ignore_element values)
         | d_dict values m => d_dict (map ignore_element values) m
         | d => d
         end v'
  else v'.

(** [do_ignore_members(v)]: [v] as the call leaves it. *)
Definition do_ignore_members (v : ValImpl) : ValImpl :=
  if is_container v
  then with_data (map_values ignore_element (m_data v)) v
  else v.

(** ** References into the document

    The application holds [const Val&] references to the root and to values
    inside it.  The vectors are never resized after parsing, so a reference is
    the sequence of positions leading from the root to the value. *)

Definition ref : Type := list nat.

Fixpoint deref (root : ValImpl) (r : ref) : option ValImpl :=
  match r with
  | [] => Some root
  | i :: r' =>
      match list_values root !! i with
      | Some v => deref v r'
      | None => None
      end
  end.

(** Applies [f] to the value a reference designates, leaving the rest of the
    document as it is. *)
Fixpoint modify_at (f : ValImpl -> ValImpl) (r : ref) (root : ValImpl) : ValImpl :=
  match r with
  | [] => f root
  | i :: r' =>
      with_data
        match m_data root with
        | d_list values => d_list (alter (modify_at f r') i values)
        | d_dict values m => d_dict (alter (modify_at f r') i values) m
        | d => d
        end root
  end.

(** Computations of the accessor layer: they read and update the document and
    return or throw.  A thrown exception keeps the updates made before it. *)
Definition Acc (A : Type) : Type := ValImpl -> res A * ValImpl.

Definition acc_ret {A} (a : A) : Acc A := fun root => (Ok a, root).

Definition acc_bind {A B} (m : Acc A) (k : A -> Acc B) : Acc B :=
  fun root =>
    match m root with
    | (Ok a, root') => k a root'
    | (Throw e, root') => (Throw e, root')
    end.

Definition acc_lift {A} (x : res A) : Acc A := fun root => (x, root).

Definition acc_throw {A} (e : Err) : Acc A := fun root => (Throw e, root).

(** The value behind a reference.  References handed out by the interface
    always resolve; for any other the model reads a default-constructed value. *)
Definition acc_read (this : ref) : Acc ValImpl :=
  fun root => (Ok (default ValImpl.new (deref root this)), root).

Definition acc_modify (f : ValImpl -> ValImpl) (this : ref) : Acc unit :=
  fun root => (Ok tt, modify_at f this root).

Notation "'let*' x ':=' m 'in' k" := (acc_bind m (fun x => k))
  (at level 10, x name, m at level 100, k at level 200).

(** ** class ArrImpl, class ObjImpl *)

Module ArrImpl.

Definition get_len (v : ValImpl) : Z := to_int32 (Z.of_nat (length (list_values v))).

(** [m_data.list->values.at(idx)]: [idx] is converted to [size_t], so a
    negative index is out of range too. *)
Definition get_element (v : ValImpl) (idx : Z) : res ValImpl :=
  if (0 <=? idx) && (idx <? Z.of_nat (length (list_values v)))
  then match list_values v !! Z.to_nat idx with
       | Some e => Ok e
       | None => Throw std_out_of_range
       end
  else Throw std_out_of_range.

End ArrImpl.

Module ObjImpl.

Definition find (v : ValImpl) (name : string) : Z :=
  match dict_map v !! name with
  | Some idx => idx
  | None => -1
  end.

End ObjImpl.

(** ** class Val: tree-wide operations on a reference *)

Definition Val_reject_unknow_members (this : ref) : Acc unit :=
  let* v := acc_read this in
  acc_lift (do_reject_unknow_members v).

Definition Val_ignore_members (this : ref) : Acc unit :=
  acc_modify do_ignore_members this.

(** ** class Arr *)

Module Arr.

Definition get_len (this : ref) : Acc Z :=
  let* arr := acc_read this in
  acc_ret (ArrImpl.get_len arr).

Definition get_element (this : ref) (idx : Z) : Acc ref :=
  let* arr := acc_read this in
  let* _ := acc_lift (ArrImpl.get_element arr idx) in
  let v := (this ++ [Z.to_nat idx])%list in
  let* _ := acc_modify ValImpl.mark_as_used v in
  acc_ret v.

Definition get_bool (this : ref) (idx : Z) : Acc bool :=
  let* r := get_element this idx in
  let* v := acc_read r in
  let* b := acc_lift (Val.as_bool v) in
  acc_ret (Bool.get b).

Definition get_i32 (this : ref) (idx : Z) (lo hi : Z) : Acc Z :=
  let* r := get_element this idx in
  let* v := acc_read r in
  let* n := acc_lift (Val.as_int v) in
  acc_lift (Int.get_i32_lo_hi n lo hi).

Definition get_i64 (this : ref) (idx : Z) (lo hi : Z) : Acc Z :=
  let* r := get_element this idx in
  let* v := acc_read r in
  let* n := acc_lift (Val.as_int v) in
  acc_lift (Int.get_lo_hi n lo hi).

Definition get_f64 (this : ref) (idx : Z) (lo hi : double) : Acc double :=
  let* r := get_element this idx in
  let* v := acc_read r in
  let* x := acc_lift (Val.as_f64 v) in
  acc_lift (F64.get_lo_hi x lo hi).

Definition get_str (this : ref) (idx : Z) : Acc string :=
  let* r := get_element this idx in
  let* v := acc_read r in
  let* s := acc_lift (Val.as_str v) in
  acc_ret (Str.get s).

Definition get_arr (this : ref) (idx : Z) : Acc ref :=
  let* r := get_element this idx in
  let* v := acc_read r in
  let* _ := acc_lift (Val.as_arr v) in
  acc_ret r.

Definition get_obj (this : ref) (idx : Z) : Acc ref :=
  let* r := get_element this idx in
  let* v := acc_read r in
  let* _ := acc_lift (Val.as_obj v) in
  acc_ret r.

End Arr.

(** ** class Obj

    A [const T* def] parameter is an [option]: [None] is [nullptr]. *)

Module Obj.

Definition get_member_idx (this : ref) (name : string) (required : bool) : Acc Z :=
  let* self := acc_read this in
  let idx := ObjImpl.find self name in
  if required && (idx <? 0)
  then acc_throw (ErrMemberNotFound
                    {| line := Val.get_line self; val_name := name;
                       val_idx := -1; val_type := vtNone |})
  else acc_ret idx.

Definition get_member_name (this : ref) (idx : Z) : Acc string :=
  let* self := acc_read this in
  let* v := acc_lift (ArrImpl.get_element self idx) in
  acc_ret (Val.get_name v).

(** Returns [None] for [nullptr]. *)
Definition get_member (this : ref) (name : string) (required : bool)
  : Acc (option ref) :=
  let* idx := get_member_idx this name required in
  if 0 <=? idx
  then let* r := Arr.get_element this idx in acc_ret (Some r)
  else acc_ret None.

(** [v ? f(v) : *def].  With [def = nullptr] the member is required and
    [get_member] has thrown when it is absent, so [*def] is only read when
    [def] is not null; [dflt] stands for the unreachable read. *)
Definition or_def {A} (dflt : A) (def : option A) : A := default dflt def.

Definition get_bool (this : ref) (name : string) (def : option bool) : Acc bool :=
  let* m := get_member this name (bool_decide (def = None)) in
  match m with
  | Some r =>
      let* v := acc_read r in
      let* b := acc_lift (Val.as_bool v) in
      acc_ret (Bool.get b)
  | None => acc_ret (or_def false def)
  end.

Definition get_i32 (this : ref) (name : string) (lo hi : Z) (def : option Z) : Acc Z :=
  let* m := get_member this name (bool_decide (def = None)) in
  match m with
  | Some r =>
      let* v := acc_read r in
      let* n := acc_lift (Val.as_int v) in
      acc_lift (Int.get_i32_lo_hi n lo hi)
  | None => acc_ret (or_def 0 def)
  end.

Definition get_i64 (this : ref) (name : string) (lo hi : Z) (def : option Z) : Acc Z :=
  let* m := get_member this name (bool_decide (def = None)) in
  match m with
  | Some r =>
      let* v := acc_read r in
      let* n := acc_lift (Val.as_int v) in
      acc_lift (Int.get_lo_hi n lo hi)
  | None => acc_ret (or_def 0 def)
  end.

Definition get_f64 (this : ref) (name : string) (lo hi : double) (def : option double)
  : Acc double :=
  let* m := get_member this name (bool_decide (def = None)) in
  match m with
  | Some r =>
      let* v := acc_read r in
      let* x := acc_lift (Val.as_f64 v) in
      acc_lift (F64.get_lo_hi x lo hi)
  | None => acc_ret (or_def (S754_zero false) def)
  end.

(** Returns [def] itself (possibly [nullptr]) when the member is absent. *)
Definition get_str (this : ref) (name : string) (def : option string)
  : Acc (option string) :=
  let* m := get_member this name (bool_decide (def = None)) in
  match m with
  | Some r =>
      let* v := acc_read r in
      let* s := acc_lift (Val.as_str v) in
      acc_ret (Some (Str.get s))
  | None => acc_ret def
  end.

Definition get_str_enum_idx (this : ref) (name : string) (str_set : list string)
  (required : bool) : Acc Z :=
  let* m := get_member this name required in
  match m with
  | None => acc_ret (-1)
  | Some r =>
      let* v := acc_read r in
      let* s := acc_lift (Val.as_str v) in
      acc_lift (Str.get_enum_idx s str_set)
  end.

(** [get_member(name)] with the default [required = true] never returns
    [nullptr]. *)
Definition get_arr (this : ref) (name : string) : Acc ref :=
  let* m := get_member this name true in
  match m with
  | Some r =>
      let* v := acc_read r in
      let* _ := acc_lift (Val.as_arr v) in
      acc_ret r
  | None => acc_ret []
  end.

Definition get_obj (this : ref) (name : string) : Acc ref :=
  let* m := get_member this name true in
  match m with
  | Some r =>
      let* v := acc_read r in
      let* _ := acc_lift (Val.as_obj v) in
      acc_ret r
  | None => acc_ret []
  end.

End Obj.

(** ** The platform

    Two things the parser takes from the C++ implementation it is compiled
    with: whether plain [char] is signed, and the C library's [strtod].
    [strtod s] returns the converted value, the number of characters it
    consumed (the [end] pointer, as an offset from [s]) and whether it set
    [errno] to [ERANGE]. *)
Record Platform : Type := mkPlatform {
  char_signed : bool;
  strtod : string -> double * nat * bool
}.

(** ** Characters and the input buffer

    The buffer is zero-terminated: the character read at the end of the string
    is the terminator, and the parser never moves past a terminator. *)

Definition NUL : ascii := "000"%char.
Definition TAB : ascii := "009"%char.
Definition LF : ascii := "010"%char.
Definition CR : ascii := "013"%char.
Definition DQUOTE : ascii := "034"%char.

Definition byte_code (c : ascii) : Z := Z.of_N (N_of_ascii c).

(** The value of a [char] in an integer expression. *)
Definition char_val (P : Platform) (c : ascii) : Z :=
  let n := byte_code c in
  if (128 <=? n) && char_signed P then n - 256 else n.

(** [static_cast<char>(n)] *)
Definition to_char (n : Z) : ascii := ascii_of_N (Z.to_N (n mod 256)).

(** [*p] *)
Definition deref_char (s : string) : ascii :=
  match s with
  | EmptyString => NUL
  | String c _ => c
  end.

(** [p + n] *)
Fixpoint advance (n : nat) (s : string) : string :=
  match n, s with
  | S n', String _ s' => advance n' s'
  | _, _ => s
  end.

(** [strncmp(s, str, strlen(str)) == 0], returning what follows [str]. *)
Fixpoint strip_prefix (str s : string) : option string :=
  match str, s with
  | EmptyString, _ => Some s
  | String a str', String b s' => if Ascii.eqb a b then strip_prefix str' s' else None
  | String _ _, EmptyString => None
  end.

(** A decoded string as the C string its [const char*] denotes: it ends at
    the first zero byte. *)
Fixpoint c_str (s : string) : string :=
  match s with
  | EmptyString => EmptyString
  | String c s' => if Ascii.eqb c NUL then EmptyString else String c (c_str s')
  end.

(** ** Unsigned 32-bit arithmetic of [parse_hex4] and [parse_encoding] *)

Definition u32_add (a b : Z) : Z := to_uint32 (a + b).
Definition u32_sub (a b : Z) : Z := to_uint32 (a - b).
Definition u32_shl (a n : Z) : Z := to_uint32 (Z.shiftl a n).

(** ** class Parser *)

Record Parser : Type := mkParser {
  m_next : string;
  m_line_count : Z
}.

Definition set_next (s : string) (p : Parser) : Parser :=
  {| m_next := s; m_line_count := m_line_count p |}.

(** Outcome of a parsing function that carries fuel: [None] when the fuel
    ran out, otherwise a result or an exception. *)
Definition pbind {A B} (x : option (res A)) (k : A -> option (res B)) : option (res B) :=
  match x with
  | None => None
  | Some (Throw e) => Some (Throw e)
  | Some (Ok a) => k a
  end.

Notation "'let!' x ':=' m 'in' k" := (pbind m (fun x => k))
  (at level 10, x name, m at level 100, k at level 200).

Definition pthrow {A} (msg : string) (p : Parser) : option (res A) :=
  Some (Throw (ErrSyntax msg (m_line_count p))).

Module Parser.

Definition init (str : string) : Parser := {| m_next := str; m_line_count := 1 |}.

Definition raise_bad_utf {A} (p : Parser) : res A :=
  Throw (ErrSyntax "invalid string syntax: bad utf-16 codepoint" (m_line_count p)).

Definition skip_text (str : string) (p : Parser) : bool * Parser :=
  match strip_prefix str (m_next p) with
  | Some rest => (true, set_next rest p)
  | None => (false, p)
  end.

(** The loop of [skip_to_eol] on the characters from [p]; returns the final
    [p] and the line count. *)
Fixpoint skip_to_eol_loop (s : string) (line_count : Z) : string * Z :=
  match s with
  | EmptyString => (s, line_count)
  | String c s' =>
      if Ascii.eqb c NUL then (s, line_count)
      else if Ascii.eqb c CR then
        (if Ascii.eqb (deref_char s') LF then advance 1 s' else s', line_count + 1)
      else if Ascii.eqb c LF then (s', line_count + 1)
      else skip_to_eol_loop s' line_count
  end.

Definition skip_to_eol (p : Parser) : Parser :=
  let '(s, n) := skip_to_eol_loop (m_next p) (m_line_count p) in
  {| m_next := s; m_line_count := n |}.

Fixpoint skip_white_space_loop (fuel : nat) (p : Parser) : option Parser :=
  match fuel with
  | O => None
  | S fuel' =>
      let c := deref_char (m_next p) in
      if Ascii.eqb c " " || Ascii.eqb c TAB then
        skip_white_space_loop fuel' (set_next (advance 1 (m_next p)) p)
      else if Ascii.eqb c CR || Ascii.eqb c LF then
        skip_white_space_loop fuel' (skip_to_eol p)
      else if Ascii.eqb c "/" && Ascii.eqb (deref_char (advance 1 (m_next p))) "/" then
        skip_white_space_loop fuel' (skip_to_eol p)
      else Some p
  end.

(** Every turn of the loop but the last consumes a character. *)
Definition skip_white_space (p : Parser) : option Parser :=
  skip_white_space_loop (S (String.length (m_next p))) p.

(** [c >= '0' && c <= '9'] *)
Definition is_digit (P : Platform) (c : ascii) : bool :=
  (char_val P "0" <=? char_val P c) && (char_val P c <=? char_val P "9").

(** The [for] loop of [parse_hex4], with [i] turns left. *)
Fixpoint parse_hex4_loop (P : Platform) (i : nat) (s : string) (code : Z)
  : option (Z * string) :=
  match i with
  | O => Some (code, s)
  | S i' =>
      let c := deref_char s in
      let s' := advance 1 s in
      let code := u32_shl code 4 in
      if is_digit P c then
        parse_hex4_loop P i' s' (u32_add code (char_val P c - char_val P "0"))
      else if (char_val P "A" <=? char_val P c) && (char_val P c <=? char_val P "F") then
        parse_hex4_loop P i' s' (u32_add code (char_val P c - (char_val P "A" - 10)))
      else if (char_val P "a" <=? char_val P c) && (char_val P c <=? char_val P "f") then
        parse_hex4_loop P i' s' (u32_add code (char_val P c - (char_val P "a" - 10)))
      else None
  end.

Definition parse_hex4 (P : Platform) (p : Parser) : res (Z * Parser) :=
  match parse_hex4_loop P 4 (m_next p) 0 with
  | Some (code, s) => Ok (code, set_next s p)
  | None => raise_bad_utf p
  end.

(** The bytes [parse_encoding] stores through [str_end] for a code point. *)
Definition encode_utf8 (code : Z) : list ascii :=
  if code <=? 0x0007F then
    [to_char code]
  else if code <=? 0x007FF then
    [to_char (Z.lor 0xC0 (Z.land (Z.shiftr code 6) 0xFF));
     to_char (Z.lor 0x80 (Z.land code 0x3F))]
  else if code <=? 0x0FFFF then
    [to_char (Z.lor 0xE0 (Z.land (Z.shiftr code 12) 0xFF));
     to_char (Z.lor 0x80 (Z.land (Z.shiftr code 6) 0x3F));
     to_char (Z.lor 0x80 (Z.land code 0x3F))]
  else
    [to_char (Z.lor 0xF0 (Z.land (Z.shiftr code 18) 0xFF));
     to_char (Z.lor 0x80 (Z.land (Z.shiftr code 12) 0x3F));
     to_char (Z.lor 0x80 (Z.land (Z.shiftr code 6) 0x3F));
     to_char (Z.lor 0x80 (Z.land code 0x3F))].

(** Returns the bytes written at [str_end] (the new [str_end] is the old
    one advanced by their number). *)
Definition parse_encoding (P : Platform) (p : Parser) : res (list ascii * Parser) :=
  match parse_hex4 P p with
  | Throw e => Throw e
  | Ok (code, p) =>
      if (0xDC00 <=? code) && (code <=? 0xDFFF) then raise_bad_utf p
      else if (0xD800 <=? code) && (code <=? 0xDBFF) then
        match skip_text "\u" p with
        | (false, _) => raise_bad_utf p
        | (true, p) =>
            match parse_hex4 P p with
            | Throw e => Throw e
            | Ok (code2, p) =>
                if (code2 <? 0xDC00) || (code2 >? 0xDFFF) then raise_bad_utf p
                else
                  let code :=
                    u32_add (Z.lor (u32_shl (u32_sub code 0xD800) 10)
                                   (u32_sub code2 0xDC00)) 0x10000 in
                  Ok (encode_utf8 code, p)
            end
        end
      else Ok (encode_utf8 code, p)
  end.

(** [m_data.list->values.emplace_back()]: appends [v] to the [values]
    vector of the container [arr]. *)
Definition push_back (v : ValImpl) (arr : ValImpl) : ValImpl :=
  with_data
    match m_data arr with
    | d_list values => d_list (values ++ [v])
    | d_dict values m => d_dict (values ++ [v]) m
    | d => d
    end arr.

(** [ArrImpl::add_element]: the new element and its position,
    [static_cast<int32_t>(get_len()) - 1] once it is in the vector. *)
Definition add_element (arr : ValImpl) : ValImpl :=
  {| m_data := d_zero; m_type := vtNull; m_line_no := 0; m_name := EmptyString;
     m_idx := ArrImpl.get_len (push_back ValImpl.new arr) - 1 |}.

(** [parent ? &parent->add_element() : new ValImpl], then the line number.
    [parent] is the container as built so far.  The element is returned
    rather than stored: the caller stores it with [push_back] once the
    parsing function has filled it in. *)
Definition add_val (parent : option ValImpl) (p : Parser) : ValImpl :=
  let v :=
    match parent with
    | Some arr => add_element arr
    | None => ValImpl.new
    end in
  {| m_data := m_data v; m_type := m_type v; m_line_no := m_line_count p;
     m_name := m_name v; m_idx := m_idx v |}.

(** The loop of [parse_str]; [out] holds the bytes between [str] and
    [str_end]. *)
Fixpoint parse_str_loop (P : Platform) (fuel : nat) (out : list ascii) (p : Parser)
  : option (res (string * Parser)) :=
  match fuel with
  | O => None
  | S fuel' =>
      let c := deref_char (m_next p) in
      let p := set_next (advance 1 (m_next p)) p in
      if Ascii.eqb DQUOTE c then
        Some (Ok (c_str (string_of_list_ascii out), p))
      else if Ascii.eqb c CR || Ascii.eqb c LF || Ascii.eqb c NUL then
        pthrow "invalid string syntax: line ending before closing quotes" p
      else if char_val P c <? char_val P " " then
        pthrow "invalid string syntax: control characters not allowed" p
      else if Ascii.eqb "\" c then
        let e := deref_char (m_next p) in
        let p' := set_next (advance 1 (m_next p)) p in
        if Ascii.eqb e "\" then parse_str_loop P fuel' (out ++ ["\"%char]) p'
        else if Ascii.eqb e "/" then parse_str_loop P fuel' (out ++ ["/"%char]) p'
        else if Ascii.eqb e "b" then parse_str_loop P fuel' (out ++ ["008"%char]) p'
        else if Ascii.eqb e "f" then parse_str_loop P fuel' (out ++ ["012"%char]) p'
        else if Ascii.eqb e "n" then parse_str_loop P fuel' (out ++ [LF]) p'
        else if Ascii.eqb e "r" then parse_str_loop P fuel' (out ++ [CR]) p'
        else if Ascii.eqb e "t" then parse_str_loop P fuel' (out ++ [TAB]) p'
        else if Ascii.eqb e "u" then
          match parse_encoding P p' with
          | Throw err => Some (Throw err)
          | Ok (bytes, p'') => parse_str_loop P fuel' (out ++ bytes) p''
          end
        else pthrow "invalid string syntax: bad escape character" p
      else parse_str_loop P fuel' (out ++ [c]) p
  end.

(** Returns [None] inside the result for [nullptr]. *)
Definition parse_str (P : Platform) (p : Parser) : option (res (option string * Parser)) :=
  match skip_text (String DQUOTE EmptyString) p with
  | (false, _) => Some (Ok (None, p))
  | (true, p) =>
      let! r := parse_str_loop P (S (String.length (m_next p))) [] p in
      Some (Ok (Some (fst r), snd r))
  end.

(** [while ( *p >= '0' && *p <= '9') p += 1], counting the steps. *)
Fixpoint span_digits (P : Platform) (s : string) : nat :=
  match s with
  | EmptyString => O
  | String c s' => if is_digit P c then S (span_digits P s') else O
  end.

(** The accumulation loop of the integer branch of [parse_val_num]:
    [n] is negative or zero, [b] the last digit allowed at the limit.
    Returns [n] and the number of digits consumed, or [None] when the
    overflow test throws. *)
Fixpoint int_loop (P : Platform) (b : Z) (s : string) (n : Z) (count : nat)
  : option (Z * nat) :=
  let a := -922337203685477580 in
  match s with
  | EmptyString => Some (n, count)
  | String c s' =>
      if (char_val P c <? char_val P "0") || (char_val P c >? char_val P "9")
      then Some (n, count)
      else
        let d := char_val P c - char_val P "0" in
        if (n <? a) || ((n =? a) && (d >? b)) then None
        else int_loop P b s' (to_int64 (n * 10 - d)) (S count)
  end.

Definition parse_val_num (P : Platform) (parent : option ValImpl) (p : Parser)
  : res (option ValImpl * Parser) :=
  let err {A} (msg : string) : res A := Throw (ErrSyntax msg (m_line_count p)) in
  let s := m_next p in
  let negative := Ascii.eqb "-" (deref_char s) in
  let num_start := if negative then 1%nat else 0%nat in
  let p1 := (num_start + span_digits P (advance num_start s))%nat in
  if (p1 =? 0)%nat then Ok (None, p)
  else if (p1 =? num_start)%nat then
    err "invalid number syntax: no digits after '-'"
  else if Ascii.eqb "0" (deref_char (advance num_start s)) && (1 <? p1 - num_start)%nat then
    err "invalid number syntax: can't start with '0' if followed by another digit"
  else
    let '(is_float, p2) :=
      if Ascii.eqb "." (deref_char (advance p1 s))
      then (true, (p1 + 1 + span_digits P (advance (p1 + 1) s))%nat)
      else (false, p1) in
    let '(is_float, p3) :=
      if Ascii.eqb "E" (deref_char (advance p2 s)) || Ascii.eqb "e" (deref_char (advance p2 s))
      then
        let q := (p2 + 1)%nat in
        let q := if Ascii.eqb "+" (deref_char (advance q s))
                    || Ascii.eqb "-" (deref_char (advance q s))
                 then (q + 1)%nat else q in
        (true, (q + span_digits P (advance q s))%nat)
      else (is_float, p2) in
    if negb is_float then
      let b := if negative then 8 else 7 in
      match int_loop P b (advance num_start s) 0 0 with
      | None => err "invalid number syntax: integer doesn't fit in 64 bits"
      | Some (n, count) =>
          let p4 := (num_start + count)%nat in
          let n := if negb negative then to_int64 (- n) else n in
          Ok (Some (ValImpl.init_int n (add_val parent p)), set_next (advance p4 s) p)
      end
    else
      let '(n, end_, erange) := strtod P s in
      if erange then err "invalid number syntax: float is too huge"
      else if negb (end_ =? p3)%nat then err "invalid number syntax: bad float format"
      else Ok (Some (ValImpl.init_f64 n (add_val parent p)), set_next (advance p3 s) p).

Definition parse_val_null (parent : option ValImpl) (p : Parser) : option ValImpl * Parser :=
  match skip_text "null" p with
  | (true, p) => (Some (add_val parent p), p)
  | (false, p) => (None, p)
  end.

Definition parse_val_bool (parent : option ValImpl) (p : Parser) : option ValImpl * Parser :=
  match skip_text "false" p with
  | (true, p) => (Some (ValImpl.init_bool false (add_val parent p)), p)
  | (false, p) =>
      match skip_text "true" p with
      | (true, p) => (Some (ValImpl.init_bool true (add_val parent p)), p)
      | (false, p) => (None, p)
      end
  end.

Definition parse_val_str (P : Platform) (parent : option ValImpl) (p : Parser)
  : option (res (option ValImpl * Parser)) :=
  let! r := parse_str P p in
  let p := snd r in
  match fst r with
  | Some str => Some (Ok (Some (ValImpl.init_str str (add_val parent p)), p))
  | None => Some (Ok (None, p))
  end.

(** [skip_white_space] inside a computation with fuel. *)
Definition ws (p : Parser) : option (res Parser) :=
  match skip_white_space p with
  | Some p' => Some (Ok p')
  | None => None
  end.

Definition set_name (name : string) (v : ValImpl) : ValImpl :=
  {| m_data := m_data v; m_type := m_type v; m_line_no := m_line_no v;
     m_name := name; m_idx := m_idx v |}.

(** [ObjImpl::add_member(name, idx, v)], where [v] is the element of [obj]
    at position [idx]. *)
Definition add_member (name : string) (idx : Z) (obj : ValImpl) : bool * ValImpl :=
  match dict_map obj !! name with
  | Some _ => (false, obj)
  | None =>
      (true,
       with_data
         match m_data obj with
         | d_dict values m =>
             d_dict (alter (set_name name) (Z.to_nat idx) values) (<[name := idx]> m)
         | d => d
         end obj)
  end.

Section Containers.

Variable P : Platform.

(** The recursive call [parse_val(arr)] / [parse_val(obj)]. *)
Variable parse_val : option ValImpl -> Parser -> option (res (ValImpl * Parser)).

(** The [while (true)] loop of [parse_val_arr]. *)
Fixpoint parse_val_arr_loop (fuel : nat) (arr : ValImpl) (p : Parser)
  : option (res (ValImpl * Parser)) :=
  match fuel with
  | O => None
  | S fuel' =>
      let! p := ws p in
      match skip_text "]" p with
      | (true, p) => Some (Ok (arr, p))
      | (false, p) =>
          let! r := parse_val (Some arr) p in
          let arr := push_back (fst r) arr in
          let! p := ws (snd r) in
          match skip_text "]" p with
          | (true, p) => Some (Ok (arr, p))
          | (false, p) =>
              match skip_text "," p with
              | (false, p) => pthrow "invalid array syntax: expected ',' or ']'" p
              | (true, p) => parse_val_arr_loop fuel' arr p
              end
          end
      end
  end.

Definition parse_val_arr (parent : option ValImpl) (p : Parser)
  : option (res (option ValImpl * Parser)) :=
  match skip_text "[" p with
  | (false, p) => Some (Ok (None, p))
  | (true, p) =>
      let arr := ValImpl.init_arr (add_val parent p) in
      let! r := parse_val_arr_loop (S (String.length (m_next p))) arr p in
      Some (Ok (Some (fst r), snd r))
  end.

(** The [while (true)] loop of [parse_val_obj]. *)
Fixpoint parse_val_obj_loop (fuel : nat) (obj : ValImpl) (p : Parser)
  : option (res (ValImpl * Parser)) :=
  match fuel with
  | O => None
  | S fuel' =>
      let! p := ws p in
      match skip_text "}" p with
      | (true, p) => Some (Ok (obj, p))
      | (false, p) =>
          let! r := parse_str P p in
          let p := snd r in
          match fst r with
          | None => pthrow "invalid object syntax: expected member name or '}'" p
          | Some name =>
              let! p := ws p in
              match skip_text ":" p with
              | (false, p) =>
                  pthrow "invalid object syntax: expected ':' after member name" p
              | (true, p) =>
                  let! p := ws p in
                  let idx := ArrImpl.get_len obj in
                  let! r := parse_val (Some obj) p in
                  let p := snd r in
                  match add_member name idx (push_back (fst r) obj) with
                  | (false, _) =>
                      pthrow "invalid object syntax: duplicate member name" p
                  | (true, obj) =>
                      let! p := ws p in
                      match skip_text "}" p with
                      | (true, p) => Some (Ok (obj, p))
                      | (false, p) =>
                          match skip_text "," p with
                          | (false, p) =>
                              pthrow "invalid object syntax: expected ',' or '}'" p
                          | (true, p) => parse_val_obj_loop fuel' obj p
                          end
                      end
                  end
              end
          end
      end
  end.

Definition parse_val_obj (parent : option ValImpl) (p : Parser)
  : option (res (option ValImpl * Parser)) :=
  match skip_text "{" p with
  | (false, p) => Some (Ok (None, p))
  | (true, p) =>
      let obj := ValImpl.init_obj (add_val parent p) in
      let! r := parse_val_obj_loop (S (String.length (m_next p))) obj p in
      Some (Ok (Some (fst r), snd r))
  end.

End Containers.

(** [parse_val]; [depth] bounds the nesting of containers still allowed. *)
Fixpoint parse_val (P : Platform) (depth : nat) (parent : option ValImpl) (p : Parser)
  : option (res (ValImpl * Parser)) :=
  match depth with
  | O => None
  | S depth' =>
      let! p := ws p in
      match parse_val_null parent p with
      | (Some v, p') => Some (Ok (v, p'))
      | (None, _) =>
      match parse_val_bool parent p with
      | (Some v, p') => Some (Ok (v, p'))
      | (None, _) =>
      match parse_val_num P parent p with
      | Throw e => Some (Throw e)
      | Ok (Some v, p') => Some (Ok (v, p'))
      | Ok (None, _) =>
      let! r := parse_val_str P parent p in
      match r with
      | (Some v, p') => Some (Ok (v, p'))
      | (None, _) =>
      let! r := parse_val_arr (parse_val P depth') parent p in
      match r with
      | (Some v, p') => Some (Ok (v, p'))
      | (None, _) =>
      let! r := parse_val_obj P (parse_val P depth') parent p in
      match r with
      | (Some v, p') => Some (Ok (v, p'))
      | (None, _) => pthrow "invalid syntax" p
      end end end end end end
  end.

(** [Parser(str).parse()].  Every level of nesting consumes its opening
    bracket, so the length of the input bounds the depth. *)
Definition parse (P : Platform) (str : string) : option (res ValImpl) :=
  let! r := parse_val P (S (String.length str)) None (init str) in
  let! p := ws (snd r) in
  if negb (Ascii.eqb NUL (deref_char (m_next p)))
  then pthrow "invalid value syntax" p
  else Some (Ok (fst r)).

End Parser.

(** ** class Json *)

Module Json.

(** [parse_in_place(str)]: the new root, or the exception of the parser. *)
Definition parse_in_place (P : Platform) (str : string) : option (res ValImpl) :=
  Parser.parse P str.

(** [parse(str, len)] with [len = 0]: copies the zero-terminated [str]. *)
Definition parse (P : Platform) (str : string) : option (res ValImpl) :=
  parse_in_place P (c_str str).

End Json.

(** ** A reference platform

    An executable [Platform] for running the parser on concrete documents:
    signed [char] (x86 and x64 ABIs) and a correctly rounded [strtod], which
    reports [ERANGE] on overflow and on underflow (a zero or subnormal
    result that is not exact).  [parse_val_num] calls
    [strtod] only where an optional [-], a digit, and later a [.] or an
    exponent mark have been seen, so the decimal syntax is all it needs;
    the properties that do not name this platform hold for every [strtod]. *)

Module RefPlatform.

Definition is_dec (c : ascii) : bool :=
  (48 <=? byte_code c) && (byte_code c <=? 57).

(** Reads a run of decimal digits: its value after [acc], its length, and the
    rest of the input. *)
Fixpoint read_digits (s : string) (acc : Z) (count : nat) : Z * nat * string :=
  match s with
  | String c s' =>
      if is_dec c then read_digits s' (acc * 10 + (byte_code c - 48)) (S count)
      else (acc, count, s)
  | EmptyString => (acc, count, s)
  end.

(** The double nearest to [n / d] (ties to even), for [n, d > 0]. *)
Definition ratio_to_double (sx : bool) (n d : Z) : double :=
  let k := Z.max 0 (Z.log2 d - Z.log2 n + 64) in
  let q := (n * 2 ^ k) / d in
  let r := (n * 2 ^ k) mod d in
  let loc := if r =? 0 then loc_Exact else loc_Inexact (2 * r ?= d) in
  binary_round_aux prec emax sx q (- k) loc.

(** The double nearest to [m * 10 ^ e10], where [m] was written with
    [ndigits] digits. *)
Definition decimal_to_double (sx : bool) (m : Z) (ndigits : nat) (e10 : Z) : double :=
  if m =? 0 then S754_zero sx
  else if 400 <? e10 then S754_infinity sx
  else if Z.of_nat ndigits + e10 <? -400 then S754_zero sx
  else if 0 <=? e10 then ratio_to_double sx (m * 10 ^ e10) 1
  else ratio_to_double sx m (10 ^ (- e10)).

(** Whether [x] is [m * 10 ^ e10] exactly. *)
Definition exactly (m e10 : Z) (x : double) : bool :=
  match x with
  | S754_zero _ => m =? 0
  | S754_finite _ mant e =>
      let '(num, den) := if 0 <=? e10 then (m * 10 ^ e10, 1) else (m, 10 ^ (- e10)) in
      let '(xnum, xden) :=
        if 0 <=? e then (Z.pos mant * 2 ^ e, 1) else (Z.pos mant, 2 ^ (- e)) in
      num * xden =? xnum * den
  | _ => false
  end.

(** [ERANGE]: the result overflows, or it is zero or subnormal and is not
    the number written. *)
Definition out_of_range (m e10 : Z) (x : double) : bool :=
  match x with
  | S754_infinity _ => true
  | S754_finite _ mant _ => (Z.pos mant <? 2 ^ (prec - 1)) && negb (exactly m e10 x)
  | _ => negb (exactly m e10 x)
  end.

Definition strtod (s : string) : double * nat * bool :=
  let '(sx, nsign) :=
    if Ascii.eqb (deref_char s) "-" then (true, 1%nat)
    else if Ascii.eqb (deref_char s) "+" then (false, 1%nat)
    else (false, 0%nat) in
  let '(m1, n1, s1) := read_digits (advance nsign s) 0 0 in
  let '(m, nfrac, ndot, s2) :=
    if Ascii.eqb (deref_char s1) "." then
      let '(m2, n2, s2) := read_digits (advance 1 s1) m1 0 in
      if ((n1 + n2)%nat =? 0)%nat then (m1, 0%nat, 0%nat, s1) else (m2, n2, 1%nat, s2)
    else (m1, 0%nat, 0%nat, s1) in
  if ((n1 + nfrac)%nat =? 0)%nat then (S754_zero false, 0%nat, false)
  else
    let '(e, nexp) :=
      if Ascii.eqb (deref_char s2) "e" || Ascii.eqb (deref_char s2) "E" then
        let '(neg_e, nes) :=
          if Ascii.eqb (deref_char (advance 1 s2)) "-" then (true, 1%nat)
          else if Ascii.eqb (deref_char (advance 1 s2)) "+" then (false, 1%nat)
          else (false, 0%nat) in
        let '(ev, ne, _) := read_digits (advance (1 + nes) s2) 0 0 in
        if (ne =? 0)%nat then (0, 0%nat)
        else (if neg_e then - ev else ev, (1 + nes + ne)%nat)
      else (0, 0%nat) in
    let x := decimal_to_double sx m (n1 + nfrac) (e - Z.of_nat nfrac) in
    (x, (nsign + n1 + ndot + nfrac + nexp)%nat, out_of_range m (e - Z.of_nat nfrac) x).

Definition platform : Platform := mkPlatform true strtod.

End RefPlatform.

(** ** The operations of the accessor layer, as one type

    Every public member function of [Arr], [Obj] and [Val] that works through
    a reference, with its arguments.  [run] performs the call and drops the
    value it returns, keeping the outcome and the document. *)

Inductive ArrGetter : Type :=
| arr_get_element
| arr_get_bool
| arr_get_i32 (lo hi : Z)
| arr_get_i64 (lo hi : Z)
| arr_get_f64 (lo hi : double)
| arr_get_str
| arr_get_arr
| arr_get_obj.

Inductive ObjGetter : Type :=
| obj_get_member (required : bool)
| obj_get_bool (def : option bool)
| obj_get_i32 (lo hi : Z) (def : option Z)
| obj_get_i64 (lo hi : Z) (def : option Z)
| obj_get_f64 (lo hi : double) (def : option double)
| obj_get_str (def : option string)
| obj_get_str_enum_idx (str_set : list string) (required : bool)
| obj_get_arr
| obj_get_obj.

Definition acc_void {A} (m : Acc A) : Acc unit :=
  let* _ := m in acc_ret tt.

Definition run_arr_getter (g : ArrGetter) (this : ref) (idx : Z) : Acc unit :=
  match g with
  | arr_get_element => acc_void (Arr.get_element this idx)
  | arr_get_bool => acc_void (Arr.get_bool this idx)
  | arr_get_i32 lo hi => acc_void (Arr.get_i32 this idx lo hi)
  | arr_get_i64 lo hi => acc_void (Arr.get_i64 this idx lo hi)
  | arr_get_f64 lo hi => acc_void (Arr.get_f64 this idx lo hi)
  | arr_get_str => acc_void (Arr.get_str this idx)
  | arr_get_arr => acc_void (Arr.get_arr this idx)
  | arr_get_obj => acc_void (Arr.get_obj this idx)
  end.

Definition run_obj_getter (g : ObjGetter) (this : ref) (name : string) : Acc unit :=
  match g with
  | obj_get_member required => acc_void (Obj.get_member this name required)
  | obj_get_bool def => acc_void (Obj.get_bool this name def)
  | obj_get_i32 lo hi def => acc_void (Obj.get_i32 this name lo hi def)
  | obj_get_i64 lo hi def => acc_void (Obj.get_i64 this name lo hi def)
  | obj_get_f64 lo hi def => acc_void (Obj.get_f64 this name lo hi def)
  | obj_get_str def => acc_void (Obj.get_str this name def)
  | obj_get_str_enum_idx str_set required =>
      acc_void (Obj.get_str_enum_idx this name str_set required)
  | obj_get_arr => acc_void (Obj.get_arr this name)
  | obj_get_obj => acc_void (Obj.get_obj this name)
  end.

Inductive Op : Type :=
| op_arr (g : ArrGetter) (this : ref) (idx : Z)
| op_obj (g : ObjGetter) (this : ref) (name : string)
| op_get_len (this : ref)
| op_get_member_idx (this : ref) (name : string) (required : bool)
| op_get_member_name (this : ref) (idx : Z)
| op_reject_unknow_members (this : ref)
| op_ignore_members (this : ref).

Definition run (op : Op) : Acc unit :=
  match op with
  | op_arr g this idx => run_arr_getter g this idx
  | op_obj g this name => run_obj_getter g this name
  | op_get_len this => acc_void (Arr.get_len this)
  | op_get_member_idx this name required =>
      acc_void (Obj.get_member_idx this name required)
  | op_get_member_name this idx => acc_void (Obj.get_member_name this idx)
  | op_reject_unknow_members this => Val_reject_unknow_members this
  | op_ignore_members this => Val_ignore_members this
  end.

(** The accessors that return a Value or a narrowed view of one: the element
    and member getters of [Arr] and [Obj].  [None] is the [nullptr] of
    [get_member]. *)
Inductive ValueGetter : Type :=
| arr_element (idx : Z)
| arr_arr (idx : Z)
| arr_obj (idx : Z)
| obj_member (name : string) (required : bool)
| obj_arr (name : string)
| obj_obj (name : string).

Definition acc_some {A} (m : Acc A) : Acc (option A) :=
  let* a := m in acc_ret (Some a).

Definition run_value_getter (g : ValueGetter) (this : ref) : Acc (option ref) :=
  match g with
  | arr_element idx => acc_some (Arr.get_element this idx)
  | arr_arr idx => acc_some (Arr.get_arr this idx)
  | arr_obj idx => acc_some (Arr.get_obj this idx)
  | obj_member name required => Obj.get_member this name required
  | obj_arr name => acc_some (Obj.get_arr this name)
  | obj_obj name => acc_some (Obj.get_obj this name)
  end.

(** A sequence of operations, one after the other, whatever each returns or
    throws (the application may catch); the result is the document they
    leave. *)
Definition run_ops (ops : list Op) (root : ValImpl) : ValImpl :=
  fold_left (fun root op => snd (run op root)) ops root.

(** ** Notions the properties are stated with *)

(** [accessed root r]: the value [r] designates in [root] has its used bit set. *)
Definition accessed (root : ValImpl) (r : ref) : Prop :=
  exists v, deref root r = Some v /\ ValImpl.used v = true.

(** [in_subtree v w]: [w] is [v] or a value reached from [v] through the
    elements of containers. *)
Inductive in_subtree : ValImpl -> ValImpl -> Prop :=
| in_subtree_here v : in_subtree v v
| in_subtree_element v c w :
    is_container v = true -> In c (list_values v) -> in_subtree c w ->
    in_subtree v w.

(** Every direct child of every Object in the subtree rooted at [v] has its
    used bit set. *)
Definition members_accessed (v : ValImpl) : Prop :=
  forall o c, in_subtree v o -> is_obj o = true -> In c (list_values o) ->
              ValImpl.used c = true.

(** UTF-8 as the Unicode standard tabulates it, on byte values. *)
Definition utf8 (cp : Z) : list Z :=
  if cp <? 0x80 then [cp]
  else if cp <? 0x800 then [0xC0 + cp / 0x40; 0x80 + cp mod 0x40]
  else if cp <? 0x10000 then
    [0xE0 + cp / 0x1000; 0x80 + (cp / 0x40) mod 0x40; 0x80 + cp mod 0x40]
  else
    [0xF0 + cp / 0x40000; 0x80 + (cp / 0x1000) mod 0x40;
     0x80 + (cp / 0x40) mod 0x40; 0x80 + cp mod 0x40].

(** The code point of a surrogate pair, in the words of the escape rule. *)
Definition combine_surrogates (high low : Z) : Z :=
  Z.lor (Z.shiftl (high - 0xD800) 10) (low - 0xDC00) + 0x10000.

(** [represents_int x n]: [x] is the binary64 number of value [n], positive
    zero for 0 and otherwise a normal number, that is a 53-bit significand
    [m] and an exponent [e] with [m * 2 ^ e = |n|], with the sign of [n]. *)
Definition represents_int (x : double) (n : Z) : Prop :=
  match x with
  | S754_zero s => s = false /\ n = 0
  | S754_finite s m e =>
      s = (n <? 0) /\ 2 ^ 52 <= Z.pos m < 2 ^ 53 /\
      ((0 <= e /\ Z.abs n = Z.pos m * 2 ^ e) \/
       (e < 0 /\ Z.abs n * 2 ^ (- e) = Z.pos m))
  | _ => False
  end.

(** The decimal rendering of an integer: an optional [-] and the digits,
    without leading zeros. *)
Definition decimal (n : Z) : string := NilZero.string_of_int (Z.to_int n).

(** The characters [.], [e], [E] that make a number token a float. *)
Definition float_mark (c : ascii) : bool :=
  Ascii.eqb c "." || Ascii.eqb c "e" || Ascii.eqb c "E".

Definition has_float_mark (token : string) : bool :=
  existsb float_mark (list_ascii_of_string token).

(** The first [n] characters of [s]. *)
Fixpoint take_chars (n : nat) (s : string) : string :=
  match n, s with
  | S n', String c s' => String c (take_chars n' s')
  | _, _ => EmptyString
  end.

(** The Int value a top-level document yields. *)
Definition root_int (n : Z) : ValImpl :=
  {| m_data := d_i64 n; m_type := vtInt; m_line_no := 1;
     m_name := EmptyString; m_idx := -1 |}.

(** Example documents are written with an apostrophe for the double quote. *)
Definition dq (s : string) : string :=
  string_of_list_ascii
    (map (fun c => if Ascii.eqb c "'" then DQUOTE else c) (list_ascii_of_string s)).

(** A function on values keeps every used bit of the subtree it is given. *)
Definition keeps_used (f : ValImpl -> ValImpl) : Prop :=
  forall v r, accessed v r -> accessed (f v) r.

(** A computation of the accessor layer that leaves the document as it is. *)
Definition read_only {A} (m : Acc A) : Prop := forall root, snd (m root) = root.

(** The exception of [raise_bad_utf]. *)
Definition bad_utf (p : Parser) : Err :=
  ErrSyntax "invalid string syntax: bad utf-16 codepoint" (m_line_count p).

(** The value of a digit sequence read after [acc], most significant digit
    first. *)
Fixpoint uint_val (d : uint) (acc : Z) : Z :=
  match d with
  | Nil => acc
  | D0 d => uint_val d (10 * acc)
  | D1 d => uint_val d (10 * acc + 1)
  | D2 d => uint_val d (10 * acc + 2)
  | D3 d => uint_val d (10 * acc + 3)
  | D4 d => uint_val d (10 * acc + 4)
  | D5 d => uint_val d (10 * acc + 5)
  | D6 d => uint_val d (10 * acc + 6)
  | D7 d => uint_val d (10 * acc + 7)
  | D8 d => uint_val d (10 * acc + 8)
  | D9 d => uint_val d (10 * acc + 9)
  end.

(** Characters left in the buffer. *)
Definition remaining (p : Parser) : nat := String.length (m_next p).


(** ** Example values *)

Definition int_elem (n idx : Z) : ValImpl :=
  {| m_data := d_i64 n; m_type := vtInt; m_line_no := 1;
     m_name := EmptyString; m_idx := idx |}.

(** The value of the document [[1, 2]]. *)
Definition arr_1_2 : ValImpl :=
  {| m_data := d_list [int_elem 1 0; int_elem 2 1];
     m_type := vtArr; m_line_no := 1; m_name := EmptyString; m_idx := -1 |}.

(** The value of the document [{"a": 1}]. *)
Definition obj_a_1 : ValImpl :=
  {| m_data := d_dict [ {| m_data := d_i64 1; m_type := vtInt; m_line_no := 1;
                           m_name := "a"; m_idx := 0 |} ]
                      {[ "a" := 0 ]};
     m_type := vtObj; m_line_no := 1; m_name := EmptyString; m_idx := -1 |}.

(** The member [port] of the document [{"port": 70000}]. *)
Definition port_70000 : ValImpl :=
  {| m_data := d_i64 70000; m_type := vtInt; m_line_no := 1;
     m_name := "port"; m_idx := 0 |}.

(** The value of the document [1.5e3]. *)
Definition float_1500 : ValImpl :=
  {| m_data := d_f64 (S754_finite false 6597069766656000 (-42)); m_type := vtF64;
     m_line_no := 1; m_name := EmptyString; m_idx := -1 |}.

(** A parsed document, or a default-constructed value if parsing fails. *)
Definition parsed (str : string) : ValImpl :=
  match Json.parse RefPlatform.platform str with
  | Some (Ok v) => v
  | _ => ValImpl.new
  end.

(** The document [{"known": 1, "extra": [{"x": 2}]}], as parsed and after
    the application has read [known] only. *)
Definition doc : ValImpl := parsed (dq "{'known': 1, 'extra': [{'x': 2}]}").

Definition doc_known_read : ValImpl :=
  snd (Obj.get_i64 [] "known" 0 (-1) None doc).

(** Its member [extra]. *)
Definition doc_extra : ValImpl := default ValImpl.new (list_values doc !! 1%nat).

(** ** Notions for the properties of whole documents *)

(** [v] with the used bit cleared in every value of its subtree: what the
    read-only interface ([get_type], [get_idx], [get_name], [get_line], the
    payload, the shape and the name map) shows of it. *)
Fixpoint erase_used (v : ValImpl) : ValImpl :=
  {| m_data :=
       match m_data v with
       | d_list values => d_list (map erase_used values)
       | d_dict values m => d_dict (map erase_used values) m
       | d => d
       end;
     m_type := Val.get_type v;
     m_line_no := m_line_no v;
     m_name := m_name v;
     m_idx := m_idx v |}.

(** No value of the subtree of [v] has its used bit set. *)
Definition unused (v : ValImpl) : Prop :=
  forall r w, deref v r = Some w -> ValImpl.used w = false.

(** The shape of a value tree that the interface relies on: the tag names
    the active member of the union; an Int holds a 64-bit integer and a
    string no zero byte; every element of a container records its own
    position and a line not before the container's; the elements of an Array
    are unnamed; the map of an Object sends each member's name to its
    position and holds nothing else.  The used bit plays no part. *)
Inductive well_formed : ValImpl -> Prop :=
| wf_null v :
    Val.get_type v = vtNull -> m_data v = d_zero -> well_formed v
| wf_bool v b :
    Val.get_type v = vtBool -> m_data v = d_b b -> well_formed v
| wf_int v n :
    Val.get_type v = vtInt -> m_data v = d_i64 n ->
    INT64_MIN <= n <= INT64_MAX -> well_formed v
| wf_f64 v x :
    Val.get_type v = vtF64 -> m_data v = d_f64 x -> well_formed v
| wf_str v s :
    Val.get_type v = vtStr -> m_data v = d_str s -> c_str s = s -> well_formed v
| wf_arr v values :
    Val.get_type v = vtArr -> m_data v = d_list values ->
    (forall i c, values !! i = Some c -> well_formed c) ->
    (forall i c, values !! i = Some c ->
       m_idx c = Z.of_nat i /\ m_name c = EmptyString /\ m_line_no v <= m_line_no c) ->
    well_formed v
| wf_obj v values m :
    Val.get_type v = vtObj -> m_data v = d_dict values m ->
    (forall i c, values !! i = Some c -> well_formed c) ->
    (forall i c, values !! i = Some c ->
       m_idx c = Z.of_nat i /\ m !! m_name c = Some (Z.of_nat i) /\
       m_line_no v <= m_line_no c) ->
    (forall name idx, m !! name = Some idx ->
       exists i c, idx = Z.of_nat i /\ values !! i = Some c /\ m_name c = name) ->
    well_formed v.

(** ** Notions for the properties of the parser *)

(** The parser state [p'] is [p] moved forwards: no character is given back,
    the line count does not decrease, and it grows by no more than the number
    of characters consumed. *)
Definition advances (p p' : Parser) : Prop :=
  (remaining p' <= remaining p)%nat /\
  m_line_count p <= m_line_count p' /\
  m_line_count p' + Z.of_nat (remaining p') <= m_line_count p + Z.of_nat (remaining p).

(** [e] is an [ErrSyntax] whose line is one the parser can have reached
    from [p]. *)
Definition syntax_error_after (p : Parser) (e : Err) : Prop :=
  exists msg l, e = ErrSyntax msg l /\
    m_line_count p <= l <= m_line_count p + Z.of_nat (remaining p).

(** What a parsing function started at [p] may return: a state further on,
    or a syntax error. *)
Definition outcome_after {A} (p : Parser) (r : res (A * Parser)) : Prop :=
  match r with
  | Ok (_, p') => advances p p'
  | Throw e => syntax_error_after p e
  end.

(** The same for the functions that cannot cross a line end. *)
Definition outcome_on_line {A} (p : Parser) (r : res (A * Parser)) : Prop :=
  match r with
  | Ok (_, p') => advances p p' /\ m_line_count p' = m_line_count p
  | Throw e => exists msg, e = ErrSyntax msg (m_line_count p)
  end.

(** What [parse_val(parent)] needs of the container it appends to, in the
    state [q] it is called in: [int32_t] holds the length of [parent] with
    one more element for each character left. *)
Definition room_for_element (parent : option ValImpl) (q : Parser) : Prop :=
  match parent with
  | Some arr =>
      well_formed arr /\ is_container arr = true /\
      Z.of_nat (length (list_values arr)) + Z.of_nat (remaining q) < INT32_MAX
  | None => Z.of_nat (remaining q) <= INT32_MAX
  end.

(** What [parse_val(parent)] called in the state [q] returns: a well-formed
    value nothing of which is marked, unnamed, at the position after the
    last element of [parent], on a line not before that of [q]. *)
Definition parsed_under (parent : option ValImpl) (q : Parser) (v : ValImpl) : Prop :=
  well_formed v /\ unused v /\ m_name v = EmptyString /\
  m_idx v = match parent with
            | Some arr => Z.of_nat (length (list_values arr))
            | None => -1
            end /\
  m_line_count q <= m_line_no v.

(** A function on values that keeps the fields the enclosing container
    relies on. *)
Definition keeps_fields (f : ValImpl -> ValImpl) : Prop :=
  forall v, m_idx (f v) = m_idx v /\ m_name (f v) = m_name v /\
            m_line_no (f v) = m_line_no v.

(** [c'] stands where [c] stood in a container: same position, name and
    line, and well formed if [c] was. *)
Definition stands_for (c c' : ValImpl) : Prop :=
  (well_formed c -> well_formed c') /\
  m_idx c' = m_idx c /\ m_name c' = m_name c /\ m_line_no c' = m_line_no c.

(** The member [known] of [doc]. *)
Definition doc_known : ValImpl := default ValImpl.new (list_values doc !! 0%nat).

(** The Str value a top-level document yields. *)
Definition root_str (s : string) : ValImpl :=
  {| m_data := d_str s; m_type := vtStr; m_line_no := 1;
     m_name := EmptyString; m_idx := -1 |}.

(** ** Notions for the properties of string literals *)

(** [s] between double quotes. *)
Definition quoted (s : string) : string := String DQUOTE (s ++ String DQUOTE EmptyString).

(** The lower-case hexadecimal digit of [n]. *)
Definition hex_digit (n : Z) : ascii := to_char (if n <? 10 then 48 + n else 87 + n).

(** A way to write the character [c] inside a literal: the two-character
    escapes the parser knows, a [\u00XX] escape for the double quote and the
    other control characters, and the character itself otherwise. *)
Definition escape_char (c : ascii) : string :=
  if Ascii.eqb c "\" then "\\"
  else if Ascii.eqb c "008" then "\b"
  else if Ascii.eqb c "012" then "\f"
  else if Ascii.eqb c LF then "\n"
  else if Ascii.eqb c CR then "\r"
  else if Ascii.eqb c TAB then "\t"
  else if (byte_code c <? 32) || Ascii.eqb c DQUOTE then
    "\u00" ++ String (hex_digit (byte_code c / 16))
                (String (hex_digit (byte_code c mod 16)) EmptyString)
  else String c EmptyString.

Fixpoint escape (s : string) : string :=
  match s with
  | EmptyString => EmptyString
  | String c s' => escape_char c ++ escape s'
  end.

(** A character the platform lets a literal carry: not the zero byte, and
    below 128 where [char] is signed. *)
Definition writable (P : Platform) (c : ascii) : Prop :=
  c <> NUL /\ (char_signed P = true -> byte_code c < 128).

(** The value of a hexadecimal digit, upper or lower case. *)
Definition hex_value (c : ascii) : option Z :=
  let n := byte_code c in
  if (48 <=? n) && (n <=? 57) then Some (n - 48)
  else if (65 <=? n) && (n <=? 70) then Some (n - 55)
  else if (97 <=? n) && (n <=? 102) then Some (n - 87)
  else None.

(** A Unicode scalar value: a code point that is not a surrogate. *)
Definition scalar_value (cp : Z) : Prop :=
  0 <= cp < 0xD800 \/ 0xE000 <= cp <= 0x10FFFF.

(** The number of line ends in [s]: a carriage return (with the line feed
    that follows it, if one does) or a line feed alone. *)
Fixpoint line_ends (s : string) : Z :=
  match s with
  | EmptyString => 0
  | String c s' =>
      if Ascii.eqb c CR then
        1 + match s' with
            | String c' s'' => if Ascii.eqb c' LF then line_ends s'' else line_ends s'
            | EmptyString => 0
            end
      else if Ascii.eqb c LF then 1 + line_ends s'
      else line_ends s'
  end.


(** * Properties *)

(** ** Scalar views *)

(** *** Widening an integer to [double] *)

Lemma digits2_pos_bound p :
  2 ^ (Z.pos (digits2_pos p) - 1) <= Z.pos p < 2 ^ Z.pos (digits2_pos p).
Proof.
  induction p as [p IH|p IH|]; cbn [digits2_pos]; [| |cbn; lia];
    rewrite Pos2Z.inj_succ;
    replace (Z.succ (Z.pos (digits2_pos p)) - 1) with (Z.succ (Z.pos (digits2_pos p) - 1))
      by lia;
    rewrite !Z.pow_succ_r by lia; lia.
Qed.

Lemma digits2_pos_iter_xO p k :
  digits2_pos (Pos.iter xO p k) = (digits2_pos p + k)%positive.
Proof.
  induction k as [|k IH] using Pos.peano_ind.
  - cbn. lia.
  - rewrite Pos.iter_succ. cbn [digits2_pos]. rewrite IH. lia.
Qed.

Lemma iter_xO_val p k : Z.pos (Pos.iter xO p k) = Z.pos p * 2 ^ Z.pos k.
Proof.
  induction k as [|k IH] using Pos.peano_ind.
  - cbn. lia.
  - rewrite Pos.iter_succ, Pos2Z.inj_xO, IH, Pos2Z.inj_succ, Z.pow_succ_r by lia. lia.
Qed.

(** Rounding a 53-bit significand with an exponent in range changes nothing. *)
Lemma binary_round_aux_exact sx m e :
  digits2_pos m = 53%positive -> -1074 <= e <= 971 ->
  binary_round_aux prec emax sx (Z.pos m) e loc_Exact = S754_finite sx m e.
Proof.
  intros Hd He. unfold binary_round_aux, shr_fexp, Zdigits2, shr_record_of_loc.
  rewrite Hd.
  assert (Hf : fexp prec emax (53 + e) - e = 0).
  { unfold fexp, emin, prec, emax. lia. }
  rewrite Hf. cbn [shr shr_m loc_of_shr_record round_nearest_even Zdigits2].
  rewrite Hd, Hf. cbn [shr shr_m].
  destruct (Z.leb_spec e (emax - prec)); [reflexivity|]. unfold emax, prec in *. lia.
Qed.

(** A positive integer below 2^53 is converted exactly: the significand is
    the integer shifted to 53 bits. *)
Lemma binary_round_small sx p :
  Z.pos p < 2 ^ 53 ->
  exists m e, binary_round prec emax sx p 0 = S754_finite sx m e /\
              2 ^ 52 <= Z.pos m < 2 ^ 53 /\ -52 <= e <= 0 /\
              Z.pos p * 2 ^ (- e) = Z.pos m.
Proof.
  intros Hp. pose proof (digits2_pos_bound p) as Hb.
  assert (Hd : Z.pos (digits2_pos p) <= 53).
  { destruct (Z.le_gt_cases (Z.pos (digits2_pos p)) 53) as [H|H]; [exact H|].
    assert (2 ^ 53 <= 2 ^ (Z.pos (digits2_pos p) - 1)) by (apply Z.pow_le_mono_r; lia).
    lia. }
  unfold binary_round.
  assert (Hf : fexp prec emax (Z.pos (digits2_pos p) + 0) = Z.pos (digits2_pos p) - 53).
  { unfold fexp, emin, prec, emax. lia. }
  rewrite Hf. unfold shl_align.
  destruct (Z.pos (digits2_pos p) - 53 - 0) as [|k|k] eqn:Hk; [|lia|].
  - assert (Hd53 : digits2_pos p = 53%positive) by lia.
    exists p, 0. rewrite binary_round_aux_exact by (exact Hd53 || lia).
    rewrite Hd53 in Hb. change (53 - 1) with 52 in Hb.
    repeat split; try lia.
  - assert (Hdk : digits2_pos (Pos.iter xO p k) = 53%positive).
    { rewrite digits2_pos_iter_xO. lia. }
    exists (Pos.iter xO p k), (Z.pos (digits2_pos p) - 53).
    rewrite binary_round_aux_exact by (exact Hdk || lia).
    pose proof (digits2_pos_bound (Pos.iter xO p k)) as Hb'. rewrite Hdk in Hb'.
    change (53 - 1) with 52 in Hb'.
    repeat split; try lia.
    rewrite iter_xO_val. f_equal. f_equal. lia.
Qed.

Lemma i64_to_double_exact n :
  - 2 ^ 53 <= n <= 2 ^ 53 -> represents_int (i64_to_double n) n.
Proof.
  intros Hn. unfold i64_to_double, binary_normalize.
  destruct n as [|p|p].
  - split; reflexivity.
  - destruct (Z.eq_dec (Z.pos p) (2 ^ 53)) as [E|E].
    + injection E as ->. vm_compute. repeat split; try discriminate. left. split; discriminate || reflexivity.
    + destruct (binary_round_small false p ltac:(lia)) as (m & e & -> & Hm & He & Hv).
      cbn [represents_int]. split; [reflexivity|]. split; [exact Hm|].
      destruct (Z.eq_dec e 0) as [->|]; [left|right]; split; cbn [Z.abs]; lia.
  - destruct (Z.eq_dec (Z.pos p) (2 ^ 53)) as [E|E].
    + injection E as ->. vm_compute. repeat split; try discriminate. left. split; discriminate || reflexivity.
    + destruct (binary_round_small true p ltac:(lia)) as (m & e & -> & Hm & He & Hv).
      cbn [represents_int]. split; [reflexivity|]. split; [exact Hm|].
      destruct (Z.eq_dec e 0) as [->|]; [left|right]; split; cbn [Z.abs]; lia.
Qed.

(** C7.  [as_f64] succeeds on a value whose tag is Int or Float and throws
    bad-type (expected type Float) on every other tag; after it, [F64::get]
    returns the stored 64-bit integer widened to double when the tag is Int,
    and the stored double when the tag is Float.  The widening is exact for
    every integer of magnitude up to 2^53 (the result is the binary64 number
    of that value) and rounds to nearest, ties to even, beyond:
    2^53 + 1 gives 2^53, 2^53 + 3 gives 2^53 + 4, and [INT64_MAX] gives
    2^63. *)
Theorem as_f64_spec (v : ValImpl) :
  (Val.get_type v = vtInt \/ Val.get_type v = vtF64 -> Val.as_f64 v = Ok v) /\
  (In (Val.get_type v) [vtNull; vtBool; vtStr; vtArr; vtObj] ->
   Val.as_f64 v = Throw (ErrBadType (Val.err_value v) vtF64)) /\
  (forall n, Val.get_type v = vtInt -> m_data v = d_i64 n ->
             F64.get v = i64_to_double n) /\
  (forall x, Val.get_type v = vtF64 -> m_data v = d_f64 x -> F64.get v = x) /\
  (forall n, Val.get_type v = vtInt -> m_data v = d_i64 n ->
             - 2 ^ 53 <= n <= 2 ^ 53 -> represents_int (F64.get v) n) /\
  (Val.get_type v = vtInt ->
   (m_data v = d_i64 (2 ^ 53 + 1) ->
    F64.get v = S754_finite false 4503599627370496 1) /\
   (m_data v = d_i64 (2 ^ 53 + 3) ->
    F64.get v = S754_finite false 4503599627370498 1) /\
   (m_data v = d_i64 INT64_MAX ->
    F64.get v = S754_finite false 4503599627370496 11) /\
   (m_data v = d_i64 INT64_MIN ->
    F64.get v = S754_finite true 4503599627370496 11)).
Proof.
  assert (Hint : forall n, Val.get_type v = vtInt -> m_data v = d_i64 n ->
                           F64.get v = i64_to_double n).
  { unfold F64.get. intros n -> ->. reflexivity. }
  split; [|split; [|split; [exact Hint|split; [|split]]]].
  - unfold Val.as_f64, Val.val_cast. intros [-> | ->]; reflexivity.
  - unfold Val.as_f64, Val.val_cast. cbn [In]. intros H.
    destruct H as [<- | [<- | [<- | [<- | [<- | []]]]]]; reflexivity.
  - unfold F64.get. intros x -> ->. reflexivity.
  - intros n Ht Hd Hn. rewrite (Hint n Ht Hd). apply i64_to_double_exact, Hn.
  - intros Ht. repeat split; intros Hd; rewrite (Hint _ Ht Hd); vm_compute; reflexivity.
Qed.

Lemma as_f64_spec_witness :
  Val.as_f64 port_70000 = Ok port_70000 /\
  represents_int (F64.get port_70000) 70000.
Proof.
  split.
  - apply (proj1 (as_f64_spec port_70000)). left. reflexivity.
  - apply (proj1 (proj2 (proj2 (proj2 (proj2 (as_f64_spec port_70000)))))).
    + reflexivity.
    + reflexivity.
    + lia.
Defined.

(** The Int 70000 read as a double: 70000 = 4810363371520000 * 2^-36. *)
Example widening_70000 :
  F64.get port_70000 = S754_finite false 4810363371520000 (-36).
Proof. vm_compute. reflexivity. Qed.

Lemma wrap_signed_id w n :
  0 < w -> - 2 ^ (w - 1) <= n < 2 ^ (w - 1) -> wrap_signed w n = n.
Proof.
  intros Hw Hn. unfold wrap_signed.
  assert (E : 2 ^ w = 2 * 2 ^ (w - 1)).
  { rewrite <- Z.pow_succ_r by lia. f_equal. lia. }
  destruct (Z.ltb_spec n 0).
  - replace (n mod 2 ^ w) with (n + 2 ^ w).
    + destruct (Z.ltb_spec (n + 2 ^ w) (2 ^ (w - 1))); lia.
    + apply Z.mod_unique with (-1); lia.
  - rewrite Z.mod_small by lia.
    destruct (Z.ltb_spec n (2 ^ (w - 1))); lia.
Qed.

Lemma to_int32_id n : INT32_MIN <= n <= INT32_MAX -> to_int32 n = n.
Proof.
  unfold INT32_MIN, INT32_MAX. intros H. apply wrap_signed_id; [lia|].
  change (2 ^ (32 - 1)) with 2147483648. lia.
Qed.

Lemma to_int64_id n : INT64_MIN <= n <= INT64_MAX -> to_int64 n = n.
Proof.
  unfold INT64_MIN, INT64_MAX. intros H. apply wrap_signed_id; [lia|].
  change (2 ^ (64 - 1)) with 9223372036854775808. lia.
Qed.

Lemma get_lo_hi_in (v : ValImpl) lo hi :
  lo <= hi -> lo <= Int.get v <= hi -> Int.get_lo_hi v lo hi = Ok (Int.get v).
Proof.
  intros Hle Hin. unfold Int.get_lo_hi.
  destruct (Z.leb_spec lo hi); [|lia].
  destruct (Z.ltb_spec (Int.get v) lo); [lia|].
  destruct (Z.gtb_spec (Int.get v) hi); [lia|]. reflexivity.
Qed.

Lemma get_lo_hi_out (v : ValImpl) lo hi :
  lo <= hi -> ~ (lo <= Int.get v <= hi) ->
  Int.get_lo_hi v lo hi = Throw (ErrBadIntRange (Val.err_value v) lo hi).
Proof.
  intros Hle Hin. unfold Int.get_lo_hi.
  destruct (Z.leb_spec lo hi); [|lia].
  destruct (Z.ltb_spec (Int.get v) lo); [reflexivity|].
  destruct (Z.gtb_spec (Int.get v) hi); [reflexivity|]. lia.
Qed.

Lemma get_lo_hi_unchecked (v : ValImpl) lo hi :
  lo > hi -> Int.get_lo_hi v lo hi = Ok (Int.get v).
Proof.
  intros Hgt. unfold Int.get_lo_hi.
  destruct (Z.leb_spec lo hi); [lia|]. reflexivity.
Qed.

(** C8.  [Int::get(lo, hi)] on a stored integer [n]: with [lo <= hi] it
    returns [n] when [lo <= n <= hi] and throws bad-int-range carrying [lo]
    and [hi] otherwise; with [lo > hi] it returns [n] unchecked.
    [Int::get_i32(lo, hi)] with [lo > hi] checks the full signed 32-bit range
    instead, and with [lo <= hi] checks [lo, hi] like [get]. *)
Theorem int_get_range_spec (v : ValImpl) (n lo hi : Z) :
  m_data v = d_i64 n ->
  (lo <= hi -> lo <= n <= hi -> Int.get_lo_hi v lo hi = Ok n) /\
  (lo <= hi -> ~ (lo <= n <= hi) ->
   Int.get_lo_hi v lo hi = Throw (ErrBadIntRange (Val.err_value v) lo hi)) /\
  (lo > hi -> Int.get_lo_hi v lo hi = Ok n) /\
  (lo > hi -> INT32_MIN <= n <= INT32_MAX -> Int.get_i32_lo_hi v lo hi = Ok n) /\
  (lo > hi -> ~ (INT32_MIN <= n <= INT32_MAX) ->
   Int.get_i32_lo_hi v lo hi =
     Throw (ErrBadIntRange (Val.err_value v) INT32_MIN INT32_MAX)) /\
  (INT32_MIN <= lo <= hi -> hi <= INT32_MAX ->
   (lo <= n <= hi -> Int.get_i32_lo_hi v lo hi = Ok n) /\
   (~ (lo <= n <= hi) ->
    Int.get_i32_lo_hi v lo hi = Throw (ErrBadIntRange (Val.err_value v) lo hi))).
Proof.
  intros Hd.
  assert (Hn : Int.get v = n) by (unfold Int.get; rewrite Hd; reflexivity).
  repeat split.
  - intros. rewrite <- Hn. apply get_lo_hi_in; lia.
  - intros. apply get_lo_hi_out; lia.
  - intros. rewrite <- Hn. apply get_lo_hi_unchecked; lia.
  - intros Hgt Hr. unfold Int.get_i32_lo_hi.
    destruct (Z.gtb_spec lo hi); [|lia].
    rewrite get_lo_hi_in by (unfold INT32_MIN, INT32_MAX in *; lia).
    cbn. rewrite Hn, to_int32_id by lia. reflexivity.
  - intros Hgt Hr. unfold Int.get_i32_lo_hi.
    destruct (Z.gtb_spec lo hi); [|lia].
    rewrite get_lo_hi_out by (unfold INT32_MIN, INT32_MAX in *; lia).
    reflexivity.
  - intros Hr. unfold Int.get_i32_lo_hi.
    destruct (Z.gtb_spec lo hi); [lia|].
    rewrite get_lo_hi_in by lia.
    cbn. rewrite Hn, to_int32_id by lia. reflexivity.
  - intros Hr. unfold Int.get_i32_lo_hi.
    destruct (Z.gtb_spec lo hi); [lia|].
    rewrite get_lo_hi_out by lia. reflexivity.
Qed.

Lemma int_get_range_spec_witness :
  Int.get_lo_hi port_70000 1 65535 =
    Throw (ErrBadIntRange (Val.err_value port_70000) 1 65535) /\
  Int.get_i32_lo_hi port_70000 0 (-1) = Ok 70000.
Proof.
  pose proof (int_get_range_spec port_70000 70000 1 65535 eq_refl) as H1.
  pose proof (int_get_range_spec port_70000 70000 0 (-1) eq_refl) as H2.
  split.
  - apply (proj1 (proj2 H1)); lia.
  - apply (proj1 (proj2 (proj2 (proj2 H2)))); unfold INT32_MIN, INT32_MAX; lia.
Defined.

(** ** Trailing commas *)

(** The document [[1, 2,]] is not rejected: it parses to the array of 1 and 2. *)
Lemma trailing_comma_not_rejected :
  Json.parse RefPlatform.platform "[1, 2,]" = Some (Ok arr_1_2) /\
  ~ (exists e, Json.parse RefPlatform.platform "[1, 2,]" = Some (Throw e)).
Proof.
  split; [vm_compute; reflexivity|].
  intros (e & H). vm_compute in H. discriminate H.
Qed.

(** A comma that follows no element is still an error. *)
Lemma leading_comma_rejected (P : Platform) :
  Json.parse P "[,]" = Some (Throw (ErrSyntax "invalid syntax" 1)) /\
  Json.parse P "[1,,]" = Some (Throw (ErrSyntax "invalid syntax" 1)).
Proof. split; vm_compute; reflexivity. Qed.

Lemma skip_text_false str p :
  fst (Parser.skip_text str p) = false -> Parser.skip_text str p = (false, p).
Proof.
  unfold Parser.skip_text. destruct (strip_prefix str (m_next p)); cbn; congruence.
Qed.

Lemma skip_text_char c s p :
  m_next p = String c s ->
  Parser.skip_text (String c EmptyString) p = (true, set_next s p).
Proof.
  intros H. unfold Parser.skip_text. rewrite H. cbn.
  rewrite Ascii.eqb_refl. reflexivity.
Qed.

Lemma skip_text_other c c' s p :
  m_next p = String c' s -> c <> c' ->
  Parser.skip_text (String c EmptyString) p = (false, p).
Proof.
  intros H Hne. unfold Parser.skip_text. rewrite H. cbn.
  destruct (Ascii.eqb_spec c c'); [contradiction|reflexivity].
Qed.

(** C1 (as amended).  A trailing comma before the closing bracket is
    accepted.  In the loop of an array: once an element has been parsed and
    is followed by [,], a []] after optional white space closes the array
    with the elements parsed so far; likewise for [}] in the loop of an
    object.  So [[1, 2,]] parses to the two-element array and [{"a": 1,}] to
    the one-member object. *)
Theorem trailing_comma_closes (P : Platform)
    (parse_val : option ValImpl -> Parser -> option (res (ValImpl * Parser))) :
  (forall fuel arr p p1 v p2 p3 s4 p5 s6,
      Parser.ws p = Some (Ok p1) ->
      fst (Parser.skip_text "]" p1) = false ->
      parse_val (Some arr) p1 = Some (Ok (v, p2)) ->
      Parser.ws p2 = Some (Ok p3) ->
      m_next p3 = String "," s4 ->
      Parser.ws (set_next s4 p3) = Some (Ok p5) ->
      m_next p5 = String "]" s6 ->
      Parser.parse_val_arr_loop parse_val (S (S fuel)) arr p =
        Some (Ok (Parser.push_back v arr, set_next s6 p5))) /\
  (forall fuel obj p p1 name p2 p3 s4 p5 v p6 obj' p7 s8 p9 s10,
      Parser.ws p = Some (Ok p1) ->
      fst (Parser.skip_text "}" p1) = false ->
      Parser.parse_str P p1 = Some (Ok (Some name, p2)) ->
      Parser.ws p2 = Some (Ok p3) ->
      m_next p3 = String ":" s4 ->
      Parser.ws (set_next s4 p3) = Some (Ok p5) ->
      parse_val (Some obj) p5 = Some (Ok (v, p6)) ->
      Parser.add_member name (ArrImpl.get_len obj) (Parser.push_back v obj) = (true, obj') ->
      Parser.ws p6 = Some (Ok p7) ->
      m_next p7 = String "," s8 ->
      Parser.ws (set_next s8 p7) = Some (Ok p9) ->
      m_next p9 = String "}" s10 ->
      Parser.parse_val_obj_loop P parse_val (S (S fuel)) obj p =
        Some (Ok (obj', set_next s10 p9))) /\
  Json.parse P "[1, 2,]" = Some (Ok arr_1_2) /\
  Json.parse P (dq "{'a': 1,}") = Some (Ok obj_a_1).
Proof.
  split; [|split; [|split; vm_compute; reflexivity]].
  - intros fuel arr p p1 v p2 p3 s4 p5 s6 Hw1 Hn1 Hv Hw3 Hc Hw5 Hb.
    cbn [Parser.parse_val_arr_loop].
    rewrite Hw1. cbn [pbind]. rewrite (skip_text_false _ _ Hn1).
    rewrite Hv. cbn [pbind fst snd]. rewrite Hw3. cbn [pbind].
    rewrite (skip_text_other "]" "," s4 p3 Hc) by discriminate.
    rewrite (skip_text_char "," s4 p3 Hc).
    rewrite Hw5. cbn [pbind]. rewrite (skip_text_char "]" s6 p5 Hb). reflexivity.
  - intros fuel obj p p1 name p2 p3 s4 p5 v p6 obj' p7 s8 p9 s10
      Hw1 Hn1 Hs Hw3 Hc Hw5 Hv Ha Hw7 Hcm Hw9 Hb.
    cbn [Parser.parse_val_obj_loop].
    rewrite Hw1. cbn [pbind]. rewrite (skip_text_false _ _ Hn1).
    rewrite Hs. cbn [pbind fst snd]. rewrite Hw3. cbn [pbind].
    rewrite (skip_text_char ":" s4 p3 Hc).
    rewrite Hw5. cbn [pbind]. rewrite Hv. cbn [pbind fst snd]. rewrite Ha.
    rewrite Hw7. cbn [pbind].
    rewrite (skip_text_other "}" "," s8 p7 Hcm) by discriminate.
    rewrite (skip_text_char "," s8 p7 Hcm).
    rewrite Hw9. cbn [pbind]. rewrite (skip_text_char "}" s10 p9 Hb). reflexivity.
Qed.

Lemma trailing_comma_closes_witness :
  Parser.parse_val_arr_loop (Parser.parse_val RefPlatform.platform 1) 2
    (ValImpl.init_arr ValImpl.new) (mkParser "7 , ]x" 1)
  = Some (Ok (Parser.push_back (int_elem 7 0) (ValImpl.init_arr ValImpl.new),
              mkParser "x" 1)) /\
  Parser.parse_val_obj_loop RefPlatform.platform (Parser.parse_val RefPlatform.platform 1) 2
    (ValImpl.init_obj ValImpl.new) (mkParser (dq "'a': 7, }x") 1)
  = Some (Ok (snd (Parser.add_member "a" 0
                     (Parser.push_back (int_elem 7 0) (ValImpl.init_obj ValImpl.new))),
              mkParser "x" 1)).
Proof.
  split.
  - apply (proj1 (trailing_comma_closes RefPlatform.platform
                    (Parser.parse_val RefPlatform.platform 1))
             0%nat (ValImpl.init_arr ValImpl.new) (mkParser "7 , ]x" 1)
             (mkParser "7 , ]x" 1) (int_elem 7 0) (mkParser " , ]x" 1)
             (mkParser ", ]x" 1) " ]x" (mkParser "]x" 1) "x");
      reflexivity.
  - apply (proj1 (proj2 (trailing_comma_closes RefPlatform.platform
                    (Parser.parse_val RefPlatform.platform 1)))
             0%nat (ValImpl.init_obj ValImpl.new) (mkParser (dq "'a': 7, }x") 1)
             (mkParser (dq "'a': 7, }x") 1) "a" (mkParser ": 7, }x" 1)
             (mkParser ": 7, }x" 1) " 7, }x" (mkParser "7, }x" 1)
             (int_elem 7 0) (mkParser ", }x" 1) _ (mkParser ", }x" 1) " }x"
             (mkParser "}x" 1) "x");
      reflexivity.
Defined.

(** ** Induction on the value tree *)

Lemma ValImpl_values_ind (Q : ValImpl -> Prop) :
  (forall v, Forall Q (list_values v) -> Q v) -> forall v, Q v.
Proof.
  intros step. fix IH 1. intros [d t ln nm ix]. apply step.
  unfold list_values. cbn [m_data].
  destruct d as [| | | | |values|values m]; try apply List.Forall_nil.
  - induction values as [|x l IHl]; [apply List.Forall_nil|].
    apply List.Forall_cons; [apply IH | exact IHl].
  - induction values as [|x l IHl]; [apply List.Forall_nil|].
    apply List.Forall_cons; [apply IH | exact IHl].
Qed.

(** ** The tag word *)

Lemma used_mark_as_used v : ValImpl.used (ValImpl.mark_as_used v) = true.
Proof.
  unfold ValImpl.used, ValImpl.mark_as_used. cbn [m_type].
  rewrite Z.land_lor_distr_l, Z.land_diag.
  destruct (Z.eqb_spec (Z.lor (Z.land (m_type v) vtUsedBit) vtUsedBit) 0) as [E|]; [|reflexivity].
  apply Z.lor_eq_0_iff in E. destruct E as [_ E]. discriminate E.
Qed.

Lemma get_type_mark_as_used v :
  Val.get_type (ValImpl.mark_as_used v) = Val.get_type v.
Proof.
  unfold Val.get_type, ValImpl.mark_as_used. cbn [m_type].
  rewrite Z.land_lor_distr_l.
  change (Z.land vtUsedBit (Z.lxor (Z.ones 32) vtUsedBit)) with 0.
  apply Z.lor_0_r.
Qed.

Lemma used_mark_mono v :
  ValImpl.used v = true -> ValImpl.used (ValImpl.mark_as_used v) = true.
Proof. intros _. apply used_mark_as_used. Qed.

Lemma is_container_mark v : is_container (ValImpl.mark_as_used v) = is_container v.
Proof. unfold is_container. now rewrite get_type_mark_as_used. Qed.

Lemma is_container_with_data d v : is_container (with_data d v) = is_container v.
Proof. reflexivity. Qed.

Lemma is_obj_with_data d v : is_obj (with_data d v) = is_obj v.
Proof. reflexivity. Qed.

Lemma used_with_data d v : ValImpl.used (with_data d v) = ValImpl.used v.
Proof. reflexivity. Qed.

Lemma is_obj_container v : is_obj v = true -> is_container v = true.
Proof.
  unfold is_obj, is_container. intros H.
  apply negb_true_iff, Z.eqb_neq in H. apply negb_true_iff, Z.eqb_neq.
  intros E. apply H. rewrite Z.land_lor_distr_r in E.
  apply Z.lor_eq_0_iff in E. tauto.
Qed.

Lemma list_values_map_values f v :
  list_values (with_data (map_values f (m_data v)) v) = map f (list_values v).
Proof. unfold list_values. cbn [m_data with_data]. now destruct (m_data v). Qed.

(** ** [do_reject_unknow_members] *)

Lemma do_reject_unfold v :
  do_reject_unknow_members v =
    if is_container v
    then reject_loop do_reject_unknow_members v (list_values v)
    else Ok tt.
Proof.
  destruct v as [d t ln nm ix]. cbn [do_reject_unknow_members].
  destruct (is_container _); [|reflexivity].
  unfold list_values. cbn [m_data]. now destruct d.
Qed.

Lemma reject_loop_ok self arr values :
  reject_loop self arr values = Ok tt <->
  Forall (fun c => (is_obj arr = true -> ValImpl.used c = true) /\ self c = Ok tt) values.
Proof.
  induction values as [|c rest IH]; cbn [reject_loop].
  - split; [constructor | reflexivity].
  - rewrite Forall_cons, <- IH.
    destruct (ValImpl.used c) eqn:Hu, (is_obj arr) eqn:Ho; cbn [negb andb];
      try (destruct (self c) as [[]|e]); intuition congruence.
Qed.

Lemma reject_loop_throw self arr values e :
  reject_loop self arr values = Throw e ->
  exists c, In c values /\
    ((ValImpl.used c = false /\ is_obj arr = true /\
      e = ErrUnknownMember (Val.err_value c)) \/ self c = Throw e).
Proof.
  induction values as [|c rest IH]; cbn [reject_loop]; [discriminate|].
  destruct (ValImpl.used c) eqn:Hu, (is_obj arr) eqn:Ho; cbn [negb andb].
  1,2,4: destruct (self c) as [[]|e'] eqn:Hs;
    [ intros H; destruct (IH H) as (c' & Hin & Hc'); exists c'; split; [now right | exact Hc']
    | intros [= <-]; exists c; split; [now left | now right] ].
  intros [= <-]. exists c. split; [now left | left; auto].
Qed.

Lemma in_subtree_trans v w x : in_subtree v w -> in_subtree w x -> in_subtree v x.
Proof.
  induction 1; [auto|]. intros. eapply in_subtree_element; eauto.
Qed.

Lemma do_reject_ok_iff v :
  do_reject_unknow_members v = Ok tt <-> members_accessed v.
Proof.
  induction v as [v IH] using ValImpl_values_ind.
  rewrite do_reject_unfold. split.
  - intros H o c Hsub. inversion Hsub as [|? e ? Hc Hin Hsub']; subst.
    + intros Ho Hino. rewrite (is_obj_container _ Ho) in H.
      apply reject_loop_ok in H. rewrite List.Forall_forall in H.
      apply H; assumption.
    + rewrite Hc in H. apply reject_loop_ok in H. rewrite List.Forall_forall in H.
      rewrite List.Forall_forall in IH.
      apply (IH e Hin). apply H. exact Hin. exact Hsub'.
  - intros H. destruct (is_container v) eqn:Hc; [|reflexivity].
    apply reject_loop_ok. rewrite List.Forall_forall. intros c Hin. split.
    + intros Ho. apply (H v c); [constructor | assumption..].
    + rewrite List.Forall_forall in IH. apply (IH c Hin).
      intros o c' Hsub. apply H. eapply in_subtree_element; eauto.
Qed.

Lemma do_reject_throw v e :
  do_reject_unknow_members v = Throw e ->
  exists o c, in_subtree v o /\ is_obj o = true /\ In c (list_values o) /\
              ValImpl.used c = false /\ e = ErrUnknownMember (Val.err_value c).
Proof.
  revert e. induction v as [v IH] using ValImpl_values_ind. intros e.
  rewrite do_reject_unfold. destruct (is_container v) eqn:Hc; [|discriminate].
  intros H. apply reject_loop_throw in H. destruct H as (c & Hin & [(Hu & Ho & ->) | Hrec]).
  - exists v, c. repeat split; auto. constructor.
  - rewrite List.Forall_forall in IH. destruct (IH c Hin e Hrec) as (o & c' & Hsub & Hrest).
    exists o, c'. split; [|exact Hrest]. eapply in_subtree_element; eauto.
Qed.

(** ** [do_ignore_members] *)

Lemma ignore_element_unfold v :
  ignore_element v =
    if is_container v
    then with_data (map_values ignore_element (m_data v)) (ValImpl.mark_as_used v)
    else ValImpl.mark_as_used v.
Proof.
  destruct v as [d t ln nm ix]. cbn [ignore_element].
  rewrite is_container_mark. destruct (is_container _); [|reflexivity].
  cbn [m_data]. now destruct d.
Qed.

Lemma list_values_mark v : list_values (ValImpl.mark_as_used v) = list_values v.
Proof. reflexivity. Qed.

Lemma list_values_ignore_element v :
  is_container v = true ->
  list_values (ignore_element v) = map ignore_element (list_values v).
Proof.
  intros Hc. rewrite ignore_element_unfold, Hc.
  unfold list_values. cbn [m_data with_data]. now destruct (m_data v).
Qed.

Lemma is_container_ignore_element v :
  is_container (ignore_element v) = is_container v.
Proof.
  rewrite ignore_element_unfold. destruct (is_container v) eqn:Hc.
  - now rewrite is_container_with_data, is_container_mark.
  - now rewrite is_container_mark.
Qed.

Lemma used_ignore_element v : ValImpl.used (ignore_element v) = true.
Proof.
  rewrite ignore_element_unfold. destruct (is_container v).
  - rewrite used_with_data. apply used_mark_as_used.
  - apply used_mark_as_used.
Qed.

Lemma do_reject_ignore_element v :
  do_reject_unknow_members (ignore_element v) = Ok tt.
Proof.
  induction v as [v IH] using ValImpl_values_ind.
  rewrite do_reject_unfold, is_container_ignore_element.
  destruct (is_container v) eqn:Hc; [|reflexivity].
  apply reject_loop_ok. rewrite list_values_ignore_element by assumption.
  rewrite List.Forall_forall in *. intros c Hin.
  apply in_map_iff in Hin. destruct Hin as (c0 & <- & Hin0). split.
  - intros _. apply used_ignore_element.
  - apply IH, Hin0.
Qed.

Lemma do_reject_do_ignore v :
  do_reject_unknow_members (do_ignore_members v) = Ok tt.
Proof.
  unfold do_ignore_members. destruct (is_container v) eqn:Hc.
  - rewrite do_reject_unfold, is_container_with_data, Hc.
    apply reject_loop_ok. rewrite list_values_map_values.
    rewrite List.Forall_forall. intros c Hin.
    apply in_map_iff in Hin. destruct Hin as (c0 & <- & Hin0). split.
    + intros _. apply used_ignore_element.
    + apply do_reject_ignore_element.
  - rewrite do_reject_unfold, Hc. reflexivity.
Qed.

(** C2.  [reject_unknow_members] succeeds exactly when every direct child of
    every Object in the subtree has its used bit set; otherwise it throws
    unknown-member for an unaccessed direct child of an Object of the subtree
    (never for an element of an Array, whose elements are only descended
    into).  After [ignore_members] it succeeds. *)
Theorem reject_unknow_members_spec (v : ValImpl) :
  (do_reject_unknow_members v = Ok tt <-> members_accessed v) /\
  (~ members_accessed v ->
   exists o c, in_subtree v o /\ is_obj o = true /\ In c (list_values o) /\
               ValImpl.used c = false /\
               do_reject_unknow_members v = Throw (ErrUnknownMember (Val.err_value c))) /\
  do_reject_unknow_members (do_ignore_members v) = Ok tt.
Proof.
  split; [apply do_reject_ok_iff|]. split; [|apply do_reject_do_ignore].
  intros Hn. destruct (do_reject_unknow_members v) as [[]|e] eqn:E.
  - exfalso. apply Hn. apply do_reject_ok_iff. exact E.
  - destruct (do_reject_throw v e E) as (o & c & Hs & Ho & Hin & Hu & ->).
    exists o, c. repeat split; auto.
Qed.

Lemma reject_unknow_members_spec_witness :
  exists o c, in_subtree doc_known_read o /\ is_obj o = true /\
              In c (list_values o) /\ ValImpl.used c = false /\
              do_reject_unknow_members doc_known_read =
                Throw (ErrUnknownMember (Val.err_value c)).
Proof.
  apply (proj1 (proj2 (reject_unknow_members_spec doc_known_read))).
  intros H. apply (proj1 (reject_unknow_members_spec doc_known_read)) in H.
  vm_compute in H. discriminate H.
Defined.

(** ** References *)

Lemma list_values_with_data_alter g i root :
  list_values
    (with_data
       match m_data root with
       | d_list values => d_list (alter g i values)
       | d_dict values m => d_dict (alter g i values) m
       | d => d
       end root) = alter g i (list_values root).
Proof. unfold list_values. cbn [m_data with_data]. now destruct (m_data root). Qed.

Lemma list_values_modify_at f i r root :
  list_values (modify_at f (i :: r) root) = alter (modify_at f r) i (list_values root).
Proof. cbn [modify_at]. apply list_values_with_data_alter. Qed.

Lemma used_modify_at_cons f i r root :
  ValImpl.used (modify_at f (i :: r) root) = ValImpl.used root.
Proof. reflexivity. Qed.

Lemma deref_app root r r' :
  deref root (r ++ r')%list = deref root r ≫= fun v => deref v r'.
Proof.
  revert root. induction r as [|i r IH]; intros root; cbn [deref app]; [reflexivity|].
  destruct (list_values root !! i); [apply IH | reflexivity].
Qed.

Lemma deref_modify_at f r root v :
  deref root r = Some v -> deref (modify_at f r root) r = Some (f v).
Proof.
  revert root. induction r as [|i r IH]; intros root; cbn [deref].
  - intros [= ->]. reflexivity.
  - destruct (list_values root !! i) as [c|] eqn:Hc; [|discriminate]. intros Hd.
    rewrite list_values_modify_at, list_lookup_alter_eq, Hc. cbn. apply IH, Hd.
Qed.

Lemma keeps_used_id : keeps_used (fun v => v).
Proof. intros v r H. exact H. Qed.

Lemma keeps_used_mark : keeps_used ValImpl.mark_as_used.
Proof.
  intros v [|i r] (w & Hd & Hu).
  - eexists. split; [reflexivity|]. apply used_mark_as_used.
  - exists w. split; [exact Hd | exact Hu].
Qed.

Lemma keeps_used_modify_at f r0 : keeps_used f -> keeps_used (modify_at f r0).
Proof.
  intros Hf. induction r0 as [|i r0 IH]; [exact Hf|].
  intros root [|j r] (w & Hd & Hu).
  - cbn [deref] in Hd. injection Hd as ->.
    eexists. split; [reflexivity|]. exact Hu.
  - cbn [deref] in Hd |- *. unfold accessed. cbn [deref].
    rewrite list_values_modify_at.
    destruct (list_values root !! j) as [c|] eqn:Hc; [|discriminate].
    destruct (decide (i = j)) as [->|Hne].
    + rewrite list_lookup_alter_eq, Hc. cbn. apply IH. exists w. auto.
    + rewrite list_lookup_alter_ne, Hc by exact Hne. exists w. auto.
Qed.

Lemma keeps_used_ignore_element : keeps_used ignore_element.
Proof.
  intros v. induction v as [v IH] using ValImpl_values_ind. intros [|i r] (w & Hd & Hu).
  - eexists. split; [reflexivity|]. apply used_ignore_element.
  - unfold accessed. cbn [deref] in Hd |- *.
    destruct (list_values v !! i) as [c|] eqn:Hc; [|discriminate].
    destruct (is_container v) eqn:Hcont.
    + rewrite list_values_ignore_element, list_lookup_fmap, Hc by exact Hcont. cbn.
      rewrite List.Forall_forall in IH. apply (IH c).
      * apply list_elem_of_In. eapply list_elem_of_lookup_2. exact Hc.
      * exists w. auto.
    + rewrite ignore_element_unfold, Hcont, list_values_mark, Hc. exists w. auto.
Qed.

Lemma keeps_used_do_ignore : keeps_used do_ignore_members.
Proof.
  intros v [|i r] (w & Hd & Hu); unfold do_ignore_members;
    destruct (is_container v) eqn:Hcont; try (exists w; auto; fail).
  - cbn [deref] in Hd. injection Hd as ->. eexists. split; [reflexivity|]. exact Hu.
  - unfold accessed. cbn [deref] in Hd |- *.
    destruct (list_values v !! i) as [c|] eqn:Hc; [|discriminate].
    rewrite list_values_map_values, list_lookup_fmap, Hc. cbn.
    apply keeps_used_ignore_element. exists w. auto.
Qed.

(** ** Effects of the accessor layer on the document *)

Lemma read_only_ret {A} (a : A) : read_only (acc_ret a).
Proof. intros root. reflexivity. Qed.

Lemma read_only_lift {A} (x : res A) : read_only (acc_lift x).
Proof. intros root. reflexivity. Qed.

Lemma read_only_throw {A} e : read_only (@acc_throw A e).
Proof. intros root. reflexivity. Qed.

Lemma read_only_read this : read_only (acc_read this).
Proof. intros root. reflexivity. Qed.

Lemma read_only_bind {A B} (m : Acc A) (k : A -> Acc B) :
  read_only m -> (forall a, read_only (k a)) -> read_only (acc_bind m k).
Proof.
  intros Hm Hk root. unfold acc_bind. specialize (Hm root).
  destruct (m root) as [[a|e] root']; cbn in *; subst; [apply Hk | reflexivity].
Qed.

Lemma snd_bind_read_only {A B} (m : Acc A) (k : A -> Acc B) root :
  (forall a, read_only (k a)) -> snd (acc_bind m k root) = snd (m root).
Proof.
  intros Hk. unfold acc_bind.
  destruct (m root) as [[a|e] root']; cbn; [apply Hk | reflexivity].
Qed.

Ltac read_only :=
  repeat first
    [ apply read_only_ret | apply read_only_lift | apply read_only_throw
    | apply read_only_read
    | apply read_only_bind; [|intros ?]
    | match goal with
      | |- read_only (match ?x with _ => _ end) => destruct x
      end ].

Lemma read_only_get_member_idx this name required :
  read_only (Obj.get_member_idx this name required).
Proof. unfold Obj.get_member_idx. read_only. Qed.

Lemma read_only_get_member_name this idx : read_only (Obj.get_member_name this idx).
Proof. unfold Obj.get_member_name. read_only. Qed.

Lemma read_only_get_len this : read_only (Arr.get_len this).
Proof. unfold Arr.get_len. read_only. Qed.

Lemma read_only_reject this : read_only (Val_reject_unknow_members this).
Proof. unfold Val_reject_unknow_members. read_only. Qed.

(** [Arr::get_element] either throws and leaves the document as it is, or
    marks the element it returns. *)
Lemma get_element_cases this idx root :
  (exists e, Arr.get_element this idx root = (Throw e, root)) \/
  (exists arr v,
      deref root this = Some arr /\ 0 <= idx /\
      list_values arr !! Z.to_nat idx = Some v /\
      Arr.get_element this idx root =
        (Ok (this ++ [Z.to_nat idx])%list,
         modify_at ValImpl.mark_as_used (this ++ [Z.to_nat idx])%list root)).
Proof.
  unfold Arr.get_element, acc_bind, acc_read, acc_lift, acc_modify, acc_ret,
    ArrImpl.get_element.
  destruct ((0 <=? idx) && (idx <? Z.of_nat (length (list_values (default ValImpl.new (deref root this)))))) eqn:Hb;
    [|left; eauto].
  destruct (list_values (default ValImpl.new (deref root this)) !! Z.to_nat idx) as [v|] eqn:Hv;
    [|left; eauto].
  right. destruct (deref root this) as [arr|] eqn:Hd; [|discriminate Hv].
  exists arr, v. apply andb_true_iff in Hb. destruct Hb as [Hb _].
  apply Z.leb_le in Hb. auto.
Qed.

Lemma get_element_valid this i root arr v :
  deref root this = Some arr -> list_values arr !! i = Some v ->
  Arr.get_element this (Z.of_nat i) root =
    (Ok (this ++ [i])%list, modify_at ValImpl.mark_as_used (this ++ [i])%list root).
Proof.
  intros Hd Hv.
  unfold Arr.get_element, acc_bind, acc_read, acc_lift, acc_modify, acc_ret,
    ArrImpl.get_element.
  rewrite Hd. cbn [from_option id]. rewrite Nat2Z.id, Hv.
  apply lookup_lt_Some in Hv.
  destruct (Z.leb_spec 0 (Z.of_nat i)); [|lia].
  destruct (Z.ltb_spec (Z.of_nat i) (Z.of_nat (length (list_values arr)))); [|lia].
  reflexivity.
Qed.

Lemma accessed_after_mark root r v :
  deref root r = Some v -> accessed (modify_at ValImpl.mark_as_used r root) r.
Proof.
  intros Hd. exists (ValImpl.mark_as_used v). split.
  - apply deref_modify_at, Hd.
  - apply used_mark_as_used.
Qed.

Lemma deref_snoc root this arr i v :
  deref root this = Some arr -> list_values arr !! i = Some v ->
  deref root (this ++ [i])%list = Some v.
Proof.
  intros Hd Hv. rewrite deref_app, Hd. cbn. now rewrite Hv.
Qed.

Lemma get_element_ok this idx root r root' :
  Arr.get_element this idx root = (Ok r, root') -> accessed root' r.
Proof.
  destruct (get_element_cases this idx root) as [(e & E) | (arr & v & Hd & _ & Hv & E)];
    rewrite E; intros [= <- <-].
  eapply accessed_after_mark, deref_snoc; eauto.
Qed.

Lemma get_element_keeps this idx root r :
  accessed root r -> accessed (snd (Arr.get_element this idx root)) r.
Proof.
  destruct (get_element_cases this idx root) as [(e & E) | (arr & v & _ & _ & _ & E)];
    rewrite E; cbn [snd]; [auto|].
  apply keeps_used_modify_at, keeps_used_mark.
Qed.

Lemma get_member_unfold this name required root :
  Obj.get_member this name required root =
    match Obj.get_member_idx this name required root with
    | (Ok idx, root0) =>
        if 0 <=? idx then acc_some (Arr.get_element this idx) root0
        else (Ok None, root0)
    | (Throw e, root0) => (Throw e, root0)
    end.
Proof.
  unfold Obj.get_member, acc_bind at 1.
  destruct (Obj.get_member_idx this name required root) as [[idx|e] root0];
    [|reflexivity].
  destruct (0 <=? idx); reflexivity.
Qed.

(** What [Obj::get_member] does to the document. *)
Lemma snd_get_member this name required root :
  snd (Obj.get_member this name required root) = root \/
  exists idx, snd (Obj.get_member this name required root) =
              snd (Arr.get_element this idx root).
Proof.
  rewrite get_member_unfold.
  pose proof (read_only_get_member_idx this name required root) as Hro.
  destruct (Obj.get_member_idx this name required root) as [[idx|e] root0];
    cbn [snd] in Hro; subst root0; [|now left].
  destruct (0 <=? idx); [|now left].
  right. exists idx. unfold acc_some.
  apply snd_bind_read_only. intros a. read_only.
Qed.

Lemma snd_run_arr_getter g this idx root :
  snd (run_arr_getter g this idx root) = snd (Arr.get_element this idx root).
Proof.
  destruct g; cbn [run_arr_getter]; unfold acc_void;
    rewrite snd_bind_read_only by (intros; read_only); try reflexivity;
    unfold Arr.get_bool, Arr.get_i32, Arr.get_i64, Arr.get_f64, Arr.get_str,
      Arr.get_arr, Arr.get_obj;
    apply snd_bind_read_only; intros; read_only.
Qed.

Lemma snd_run_obj_getter g this name root :
  exists required,
    snd (run_obj_getter g this name root) = snd (Obj.get_member this name required root).
Proof.
  destruct g; cbn [run_obj_getter]; unfold acc_void;
    rewrite snd_bind_read_only by (intros; read_only);
    unfold Obj.get_bool, Obj.get_i32, Obj.get_i64, Obj.get_f64, Obj.get_str,
      Obj.get_str_enum_idx, Obj.get_arr, Obj.get_obj;
    eexists; try reflexivity;
    apply snd_bind_read_only; intros; read_only.
Qed.

(** The document after any operation: unchanged, or with one value marked,
    or with the members below one value ignored. *)
Lemma snd_run op root :
  snd (run op root) = root \/
  (exists r, snd (run op root) = modify_at ValImpl.mark_as_used r root) \/
  (exists r, snd (run op root) = modify_at do_ignore_members r root).
Proof.
  assert (Hel : forall this idx,
             snd (Arr.get_element this idx root) = root \/
             exists r, snd (Arr.get_element this idx root) =
                       modify_at ValImpl.mark_as_used r root).
  { intros this idx.
    destruct (get_element_cases this idx root) as [(e & E) | (arr & v & _ & _ & _ & E)];
      rewrite E; cbn [snd]; eauto. }
  destruct op as [g this idx|g this name|this|this name required|this idx|this|this];
    cbn [run].
  - rewrite snd_run_arr_getter. destruct (Hel this idx); auto.
  - destruct (snd_run_obj_getter g this name root) as (required & ->).
    destruct (snd_get_member this name required root) as [->|(idx & ->)]; auto.
    destruct (Hel this idx); auto.
  - left. unfold acc_void. rewrite snd_bind_read_only by (intros; read_only).
    apply read_only_get_len.
  - left. unfold acc_void. rewrite snd_bind_read_only by (intros; read_only).
    apply read_only_get_member_idx.
  - left. unfold acc_void. rewrite snd_bind_read_only by (intros; read_only).
    apply read_only_get_member_name.
  - left. apply read_only_reject.
  - right. right. exists this. reflexivity.
Qed.

Lemma run_keeps_accessed op root r :
  accessed root r -> accessed (snd (run op root)) r.
Proof.
  intros H. destruct (snd_run op root) as [-> | [(r0 & ->) | (r0 & ->)]].
  - exact H.
  - apply keeps_used_modify_at; [apply keeps_used_mark | exact H].
  - apply keeps_used_modify_at; [apply keeps_used_do_ignore | exact H].
Qed.

Lemma get_member_ok this name required root r root' :
  Obj.get_member this name required root = (Ok (Some r), root') -> accessed root' r.
Proof.
  rewrite get_member_unfold.
  pose proof (read_only_get_member_idx this name required root) as Hro.
  destruct (Obj.get_member_idx this name required root) as [[idx|e] root0];
    cbn [snd] in Hro; subst root0; [|discriminate].
  destruct (0 <=? idx); [|discriminate].
  unfold acc_some, acc_bind, acc_ret.
  destruct (Arr.get_element this idx root) as [[r0|e] root0] eqn:E; [|discriminate].
  intros [= <- <-]. eapply get_element_ok, E.
Qed.

Lemma get_member_required this name root root' :
  Obj.get_member this name true root <> (Ok None, root').
Proof.
  rewrite get_member_unfold.
  unfold Obj.get_member_idx, acc_bind, acc_read, acc_throw, acc_ret. cbn [andb].
  destruct (Z.ltb_spec (ObjImpl.find (default ValImpl.new (deref root this)) name) 0) as [Hlt|Hge];
    [discriminate|].
  destruct (Z.leb_spec 0 (ObjImpl.find (default ValImpl.new (deref root this)) name)); [|lia].
  unfold acc_some, acc_bind, acc_ret.
  destruct (Arr.get_element this _ root) as [[r0|e] root0]; discriminate.
Qed.

(** C9.  The used bit is monotonic: a getter that returns a Value or a
    narrowed view of one (the element and member getters of [Arr] and [Obj])
    leaves the returned value with its used bit set, and no operation of the
    accessor layer clears a used bit that was set. *)
Theorem accessed_flag_monotonic :
  (forall g this root r root',
      run_value_getter g this root = (Ok (Some r), root') -> accessed root' r) /\
  (forall op root r, accessed root r -> accessed (snd (run op root)) r) /\
  (forall ops root r, accessed root r -> accessed (run_ops ops root) r).
Proof.
  split; [|split; [apply run_keeps_accessed|]].
  2: { intros ops. unfold run_ops. induction ops as [|op ops IH]; intros root r H;
         cbn [fold_left]; [exact H|]. apply IH, run_keeps_accessed, H. }
  intros g this root r root'. destruct g as [idx|idx|idx|name required|name|name];
    cbn [run_value_getter].
  - unfold acc_some, acc_bind, acc_ret.
    destruct (Arr.get_element this idx root) as [[r0|e] root0] eqn:E; [|discriminate].
    intros [= <- <-]. eapply get_element_ok, E.
  - unfold acc_some, Arr.get_arr, acc_bind, acc_ret, acc_read, acc_lift.
    destruct (Arr.get_element this idx root) as [[r0|e] root0] eqn:E; [|discriminate].
    destruct (Val.as_arr _); [|discriminate].
    intros [= <- <-]. eapply get_element_ok, E.
  - unfold acc_some, Arr.get_obj, acc_bind, acc_ret, acc_read, acc_lift.
    destruct (Arr.get_element this idx root) as [[r0|e] root0] eqn:E; [|discriminate].
    destruct (Val.as_obj _); [|discriminate].
    intros [= <- <-]. eapply get_element_ok, E.
  - apply get_member_ok.
  - unfold acc_some, Obj.get_arr. unfold acc_bind at 1 2.
    destruct (Obj.get_member this name true root) as [[[r0|]|e] root0] eqn:E;
      [| exfalso; eapply get_member_required, E | discriminate].
    unfold acc_bind, acc_ret, acc_read, acc_lift.
    destruct (Val.as_arr _); [|discriminate].
    intros [= <- <-]. eapply get_member_ok, E.
  - unfold acc_some, Obj.get_obj. unfold acc_bind at 1 2.
    destruct (Obj.get_member this name true root) as [[[r0|]|e] root0] eqn:E;
      [| exfalso; eapply get_member_required, E | discriminate].
    unfold acc_bind, acc_ret, acc_read, acc_lift.
    destruct (Val.as_obj _); [|discriminate].
    intros [= <- <-]. eapply get_member_ok, E.
Qed.

Lemma accessed_flag_monotonic_witness :
  accessed (run_ops [op_get_member_name [] 1; op_arr arr_get_bool [] 1;
                     op_reject_unknow_members []]
              (snd (run_value_getter (obj_member "known" true) [] doc)))
           [0%nat].
Proof.
  apply (proj2 (proj2 accessed_flag_monotonic)).
  apply (proj1 accessed_flag_monotonic (obj_member "known" true) [] doc [0%nat]).
  vm_compute. reflexivity.
Defined.

Lemma get_member_valid this name required root o i v :
  deref root this = Some o -> dict_map o !! name = Some (Z.of_nat i) ->
  list_values o !! i = Some v ->
  Obj.get_member this name required root =
    (Ok (Some (this ++ [i])%list), modify_at ValImpl.mark_as_used (this ++ [i])%list root).
Proof.
  intros Hd Hm Hv. rewrite get_member_unfold.
  unfold Obj.get_member_idx, acc_bind at 1, acc_read, ObjImpl.find.
  rewrite Hd. cbn [from_option id]. rewrite Hm.
  destruct (Z.ltb_spec (Z.of_nat i) 0); [lia|]. rewrite andb_false_r.
  unfold acc_ret at 1. destruct (Z.leb_spec 0 (Z.of_nat i)); [|lia].
  unfold acc_some, acc_bind, acc_ret.
  rewrite (get_element_valid this i root o v Hd Hv). reflexivity.
Qed.

(** C10.  For an Object [o] and a valid position [i], [get_member_name]
    returns the name of member [i] and leaves the document as it is; if that
    member is unaccessed, [reject_unknow_members] on [o] still throws
    unknown-member afterwards.  Every element getter by position, and every
    member getter by a name the map sends to [i], leaves member [i] accessed. *)
Theorem get_member_name_leaves_unaccessed root this o i c :
  deref root this = Some o ->
  is_obj o = true ->
  list_values o !! i = Some c ->
  Obj.get_member_name this (Z.of_nat i) root = (Ok (m_name c), root) /\
  (ValImpl.used c = false ->
   exists c', ValImpl.used c' = false /\
     Val_reject_unknow_members this (snd (Obj.get_member_name this (Z.of_nat i) root)) =
       (Throw (ErrUnknownMember (Val.err_value c')), root)) /\
  (forall g, accessed (snd (run_arr_getter g this (Z.of_nat i) root)) (this ++ [i])%list) /\
  (forall g name, dict_map o !! name = Some (Z.of_nat i) ->
     accessed (snd (run_obj_getter g this name root)) (this ++ [i])%list).
Proof.
  intros Hd Ho Hc.
  assert (Hname : Obj.get_member_name this (Z.of_nat i) root = (Ok (m_name c), root)).
  { unfold Obj.get_member_name, acc_bind, acc_read, acc_lift, acc_ret,
      ArrImpl.get_element.
    rewrite Hd. cbn [from_option id]. rewrite Nat2Z.id, Hc.
    pose proof (lookup_lt_Some _ _ _ Hc).
    destruct (Z.leb_spec 0 (Z.of_nat i)); [|lia].
    destruct (Z.ltb_spec (Z.of_nat i) (Z.of_nat (length (list_values o)))); [|lia].
    reflexivity. }
  split; [exact Hname|]. split; [|split].
  - intros Hu. rewrite Hname. cbn [snd].
    unfold Val_reject_unknow_members, acc_bind, acc_read, acc_lift.
    rewrite Hd. cbn [from_option id].
    destruct (do_reject_unknow_members o) as [[]|e] eqn:E.
    + exfalso. apply do_reject_ok_iff in E.
      assert (ValImpl.used c = true); [|congruence].
      apply (E o c); [constructor | exact Ho |].
      apply list_elem_of_In. eapply list_elem_of_lookup_2, Hc.
    + destruct (do_reject_throw o e E) as (o' & c' & _ & _ & _ & Hu' & ->).
      exists c'. auto.
  - intros g. rewrite snd_run_arr_getter, (get_element_valid this i root o c Hd Hc).
    cbn [snd]. eapply accessed_after_mark, deref_snoc; eauto.
  - intros g name Hm. destruct (snd_run_obj_getter g this name root) as (required & ->).
    rewrite (get_member_valid this name required root o i c Hd Hm Hc). cbn [snd].
    eapply accessed_after_mark, deref_snoc; eauto.
Qed.

Lemma get_member_name_leaves_unaccessed_witness :
  Obj.get_member_name [] 1 doc = (Ok "extra", doc) /\
  accessed (snd (run_obj_getter obj_get_arr [] "extra" doc)) [1%nat].
Proof.
  assert (Hc : list_values doc !! 1%nat = Some doc_extra) by (vm_compute; reflexivity).
  pose proof (get_member_name_leaves_unaccessed doc [] doc 1 doc_extra
                eq_refl eq_refl Hc) as (Hname & _ & _ & Hobj).
  split.
  - exact Hname.
  - apply (Hobj obj_get_arr "extra"). vm_compute. reflexivity.
Defined.

(** ** Characters *)

Lemma char_val_ascii P c : byte_code c < 128 -> char_val P c = byte_code c.
Proof.
  intros H. unfold char_val. cbv zeta.
  destruct (Z.leb_spec 128 (byte_code c)); [lia|reflexivity].
Qed.

Lemma to_uint32_small n : 0 <= n < 2 ^ 32 -> to_uint32 n = n.
Proof. intros H. unfold to_uint32. apply Z.mod_small, H. Qed.

(** A property of the integers below a bound, checked by running it. *)
Lemma forall_below (f : Z -> bool) (n : Z) :
  forallb f (seqZ 0 n) = true -> forall x, 0 <= x < n -> f x = true.
Proof.
  intros H x Hx. rewrite forallb_forall in H. apply H.
  apply list_elem_of_In, elem_of_seqZ. lia.
Qed.

Lemma lor_0x80 x : 0 <= x < 64 -> Z.lor 0x80 x = 0x80 + x.
Proof.
  intros H. apply Z.eqb_eq. revert x H.
  refine (forall_below (fun x => Z.lor 0x80 x =? 0x80 + x) 64 _). vm_compute. reflexivity.
Qed.

Lemma lor_0xC0 x : 0 <= x < 32 -> Z.lor 0xC0 x = 0xC0 + x.
Proof.
  intros H. apply Z.eqb_eq. revert x H.
  refine (forall_below (fun x => Z.lor 0xC0 x =? 0xC0 + x) 32 _). vm_compute. reflexivity.
Qed.

Lemma lor_0xE0 x : 0 <= x < 16 -> Z.lor 0xE0 x = 0xE0 + x.
Proof.
  intros H. apply Z.eqb_eq. revert x H.
  refine (forall_below (fun x => Z.lor 0xE0 x =? 0xE0 + x) 16 _). vm_compute. reflexivity.
Qed.

Lemma lor_0xF0 x : 0 <= x < 8 -> Z.lor 0xF0 x = 0xF0 + x.
Proof.
  intros H. apply Z.eqb_eq. revert x H.
  refine (forall_below (fun x => Z.lor 0xF0 x =? 0xF0 + x) 8 _). vm_compute. reflexivity.
Qed.

Lemma land_0x3F x : Z.land x 0x3F = x mod 0x40.
Proof. change 0x3F with (Z.ones 6). apply Z.land_ones. lia. Qed.

Lemma land_0xFF x : 0 <= x < 256 -> Z.land x 0xFF = x.
Proof.
  intros H. change 0xFF with (Z.ones 8). rewrite Z.land_ones by lia.
  apply Z.mod_small. exact H.
Qed.

Lemma shiftr_6 x : Z.shiftr x 6 = x / 0x40.
Proof. rewrite Z.shiftr_div_pow2 by lia. reflexivity. Qed.

Lemma shiftr_12 x : Z.shiftr x 12 = x / 0x1000.
Proof. rewrite Z.shiftr_div_pow2 by lia. reflexivity. Qed.

Lemma shiftr_18 x : Z.shiftr x 18 = x / 0x40000.
Proof. rewrite Z.shiftr_div_pow2 by lia. reflexivity. Qed.

(** [parse_encoding] stores the UTF-8 encoding of the code point. *)
Lemma encode_utf8_correct code :
  0 <= code <= 0x10FFFF -> Parser.encode_utf8 code = map to_char (utf8 code).
Proof.
  intros H. unfold Parser.encode_utf8, utf8.
  rewrite !land_0x3F, shiftr_6, shiftr_12, shiftr_18.
  destruct (Z.leb_spec code 0x7F), (Z.ltb_spec code 0x80); try lia; [reflexivity|].
  destruct (Z.leb_spec code 0x7FF), (Z.ltb_spec code 0x800); try lia.
  { cbn [map]. rewrite land_0xFF, lor_0xC0, lor_0x80; try reflexivity.
    - apply Z.mod_pos_bound; lia.
    - split; [apply Z.div_pos; lia | apply Z.div_lt_upper_bound; lia].
    - split; [apply Z.div_pos; lia | apply Z.div_lt_upper_bound; lia]. }
  destruct (Z.leb_spec code 0xFFFF), (Z.ltb_spec code 0x10000); try lia.
  { cbn [map]. rewrite land_0xFF, lor_0xE0, !lor_0x80; try reflexivity.
    - apply Z.mod_pos_bound; lia.
    - apply Z.mod_pos_bound; lia.
    - split; [apply Z.div_pos; lia | apply Z.div_lt_upper_bound; lia].
    - split; [apply Z.div_pos; lia | apply Z.div_lt_upper_bound; lia]. }
  cbn [map]. rewrite land_0xFF, lor_0xF0, !lor_0x80; try reflexivity.
  - apply Z.mod_pos_bound; lia.
  - apply Z.mod_pos_bound; lia.
  - apply Z.mod_pos_bound; lia.
  - split; [apply Z.div_pos; lia | apply Z.div_lt_upper_bound; lia].
  - split; [apply Z.div_pos; lia | apply Z.div_lt_upper_bound; lia].
Qed.

Lemma utf8_length cp :
  length (utf8 cp) =
    if cp <? 0x80 then 1%nat else if cp <? 0x800 then 2%nat
    else if cp <? 0x10000 then 3%nat else 4%nat.
Proof. unfold utf8. repeat destruct (_ <? _); reflexivity. Qed.

(** The 32-bit arithmetic of the surrogate rule does not wrap. *)
Lemma combine_surrogates_u32 high low :
  0xD800 <= high <= 0xDBFF -> 0xDC00 <= low <= 0xDFFF ->
  u32_add (Z.lor (u32_shl (u32_sub high 0xD800) 10) (u32_sub low 0xDC00)) 0x10000
  = combine_surrogates high low /\
  0x10000 <= combine_surrogates high low <= 0x10FFFF.
Proof.
  intros Hh Hl. unfold u32_add, u32_shl, u32_sub, combine_surrogates.
  rewrite (to_uint32_small (high - 0xD800)) by lia.
  rewrite (to_uint32_small (low - 0xDC00)) by lia.
  assert (Hs : Z.shiftl (high - 0xD800) 10 = (high - 0xD800) * 1024).
  { rewrite Z.shiftl_mul_pow2 by lia. reflexivity. }
  rewrite (to_uint32_small (Z.shiftl (high - 0xD800) 10)) by (rewrite Hs; lia).
  set (b := low - 0xDC00).
  assert (Hlor : Z.lor (Z.shiftl (high - 0xD800) 10) b = (high - 0xD800) * 1024 + b).
  { rewrite <- Hs. symmetry. apply Z.add_nocarry_lor.
    apply Z.bits_inj'. intros n Hn. rewrite Z.land_spec, Z.bits_0.
    destruct (Z.ltb_spec n 10).
    - rewrite Z.shiftl_spec_low by lia. reflexivity.
    - rewrite (Z.bits_above_log2 b n); [apply andb_false_r | unfold b; lia |].
      destruct (Z.eq_dec b 0) as [->|]; [cbn; lia|].
      apply Z.log2_lt_pow2; [unfold b in *; lia|].
      apply Z.lt_le_trans with (2 ^ 10); [unfold b; change (2 ^ 10) with 1024; lia|].
      apply Z.pow_le_mono_r; lia. }
  rewrite Hlor. rewrite to_uint32_small by (unfold b; lia).
  unfold b. lia.
Qed.

Lemma char_val_literals P :
  char_val P "0" = 48 /\ char_val P "9" = 57 /\
  char_val P "A" = 65 /\ char_val P "F" = 70 /\
  char_val P "a" = 97 /\ char_val P "f" = 102.
Proof. repeat split. Qed.

Lemma parse_hex4_loop_range P i : forall s code bound code' s',
  0 <= code < bound -> bound * 16 ^ Z.of_nat i <= 2 ^ 32 ->
  Parser.parse_hex4_loop P i s code = Some (code', s') ->
  0 <= code' < bound * 16 ^ Z.of_nat i.
Proof.
  destruct (char_val_literals P) as (H0 & H9 & HA & HF & Ha & Hf).
  induction i as [|i IH]; intros s code bound code' s' Hc Hb.
  - cbn [Parser.parse_hex4_loop]. intros [= <- <-]. cbn. lia.
  - rewrite Nat2Z.inj_succ, Z.pow_succ_r in * by lia.
    cbn [Parser.parse_hex4_loop].
    assert (Hp : 0 < 16 ^ Z.of_nat i) by (apply Z.pow_pos_nonneg; lia).
    assert (Hshl : u32_shl code 4 = code * 16).
    { unfold u32_shl. rewrite Z.shiftl_mul_pow2 by lia. change (2 ^ 4) with 16.
      apply to_uint32_small. nia. }
    assert (Hstep : forall d, 0 <= d <= 15 ->
              0 <= u32_add (u32_shl code 4) d < bound * 16).
    { intros d Hd. rewrite Hshl. unfold u32_add. rewrite to_uint32_small; nia. }
    unfold Parser.is_digit. rewrite H0, H9, HA, HF, Ha, Hf.
    destruct (Z.leb_spec 48 (char_val P (deref_char s)));
      destruct (Z.leb_spec (char_val P (deref_char s)) 57); cbn [andb];
      try (intros Hloop; eapply (IH _ _ (bound * 16)) in Hloop; [nia | apply Hstep; lia | nia]).
    all: destruct (Z.leb_spec 65 (char_val P (deref_char s)));
      destruct (Z.leb_spec (char_val P (deref_char s)) 70); cbn [andb];
      try (intros Hloop; eapply (IH _ _ (bound * 16)) in Hloop; [nia | apply Hstep; lia | nia]).
    all: destruct (Z.leb_spec 97 (char_val P (deref_char s)));
      destruct (Z.leb_spec (char_val P (deref_char s)) 102); cbn [andb];
      try (intros Hloop; eapply (IH _ _ (bound * 16)) in Hloop; [nia | apply Hstep; lia | nia]);
      discriminate.
Qed.

Lemma parse_hex4_ok P p code p1 :
  Parser.parse_hex4 P p = Ok (code, p1) ->
  0 <= code <= 0xFFFF /\ m_line_count p1 = m_line_count p.
Proof.
  unfold Parser.parse_hex4.
  destruct (Parser.parse_hex4_loop P 4 (m_next p) 0) as [[c s]|] eqn:E; [|discriminate].
  intros [= <- <-]. split; [|reflexivity].
  apply (parse_hex4_loop_range P 4 _ 0 1) in E; [|lia|cbn; lia].
  change (1 * 16 ^ Z.of_nat 4) with 65536 in E. lia.
Qed.

(** C4.  After the four hex digits of a [\u] escape give [code]: a low
    surrogate throws bad-UTF; a high surrogate requires [\u] and four more
    hex digits giving a low surrogate right after it (anything else throws),
    and the pair stands for [combine_surrogates code code2], stored as its
    four UTF-8 bytes; any other [code] is stored as its one, two or three
    UTF-8 bytes. *)
Theorem parse_encoding_spec (P : Platform) (p p1 : Parser) (code : Z) :
  Parser.parse_hex4 P p = Ok (code, p1) ->
  (0xDC00 <= code <= 0xDFFF -> Parser.parse_encoding P p = Throw (bad_utf p)) /\
  (0xD800 <= code <= 0xDBFF ->
   (fst (Parser.skip_text "\u" p1) = false ->
    Parser.parse_encoding P p = Throw (bad_utf p)) /\
   (forall p2, Parser.skip_text "\u" p1 = (true, p2) ->
      (forall e, Parser.parse_hex4 P p2 = Throw e -> Parser.parse_encoding P p = Throw e) /\
      (forall code2 p3, Parser.parse_hex4 P p2 = Ok (code2, p3) ->
         (~ (0xDC00 <= code2 <= 0xDFFF) ->
          Parser.parse_encoding P p = Throw (bad_utf p)) /\
         (0xDC00 <= code2 <= 0xDFFF ->
          Parser.parse_encoding P p =
            Ok (map to_char (utf8 (combine_surrogates code code2)), p3) /\
          length (utf8 (combine_surrogates code code2)) = 4%nat)))) /\
  (~ (0xD800 <= code <= 0xDFFF) ->
   Parser.parse_encoding P p = Ok (map to_char (utf8 code), p1) /\
   (1 <= length (utf8 code) <= 3)%nat).
Proof.
  intros Hhex. destruct (parse_hex4_ok P p code p1 Hhex) as [Hrange Hline].
  unfold Parser.parse_encoding, Parser.raise_bad_utf, bad_utf. rewrite Hhex, Hline.
  split; [|split].
  - intros Hlow.
    destruct (Z.leb_spec 0xDC00 code); [|lia].
    destruct (Z.leb_spec code 0xDFFF); [|lia]. reflexivity.
  - intros Hhigh.
    destruct (Z.leb_spec 0xDC00 code); [lia|]. cbn [andb].
    destruct (Z.leb_spec 0xD800 code); [|lia].
    destruct (Z.leb_spec code 0xDBFF); [|lia]. cbn [andb].
    split.
    + intros Hno. rewrite (skip_text_false _ _ Hno). reflexivity.
    + intros p2 Hskip. rewrite Hskip.
      assert (Hline2 : m_line_count p2 = m_line_count p1).
      { revert Hskip. unfold Parser.skip_text.
        destruct (strip_prefix _ _); intros [= <-]; reflexivity. }
      split.
      * intros e ->. reflexivity.
      * intros code2 p3 Hhex2. rewrite Hhex2.
        destruct (parse_hex4_ok P p2 code2 p3 Hhex2) as [_ Hline3].
        rewrite Hline3, Hline2, Hline. split.
        -- intros Hnot.
           destruct (Z.ltb_spec code2 0xDC00); [reflexivity|].
           destruct (Z.gtb_spec code2 0xDFFF); [reflexivity|]. lia.
        -- intros Hlow2.
           destruct (Z.ltb_spec code2 0xDC00); [lia|].
           destruct (Z.gtb_spec code2 0xDFFF); [lia|]. cbn [orb].
           destruct (combine_surrogates_u32 code code2 Hhigh Hlow2) as [-> Hcp].
           rewrite encode_utf8_correct by lia. split; [reflexivity|].
           rewrite utf8_length.
           destruct (Z.ltb_spec (combine_surrogates code code2) 0x80); [lia|].
           destruct (Z.ltb_spec (combine_surrogates code code2) 0x800); [lia|].
           destruct (Z.ltb_spec (combine_surrogates code code2) 0x10000); [lia|].
           reflexivity.
  - intros Hnot.
    destruct (Z.leb_spec 0xDC00 code); destruct (Z.leb_spec code 0xDFFF); cbn [andb];
      try lia.
    all: destruct (Z.leb_spec 0xD800 code); destruct (Z.leb_spec code 0xDBFF); cbn [andb];
      try lia.
    all: rewrite encode_utf8_correct by lia; (split; [reflexivity|]);
      rewrite utf8_length;
      destruct (Z.ltb_spec code 0x80); [cbn; lia|];
      destruct (Z.ltb_spec code 0x800); [cbn; lia|];
      destruct (Z.ltb_spec code 0x10000); [cbn; lia|]; lia.
Qed.

Lemma parse_encoding_spec_witness :
  Parser.parse_encoding RefPlatform.platform (mkParser "D83D\uDE00" 1) =
    Ok (map to_char (utf8 (combine_surrogates 0xD83D 0xDE00)), mkParser EmptyString 1) /\
  Parser.parse_encoding RefPlatform.platform (mkParser "00e9" 1) =
    Ok (map to_char (utf8 0xE9), mkParser EmptyString 1).
Proof.
  split.
  - destruct (parse_encoding_spec RefPlatform.platform (mkParser "D83D\uDE00" 1)
                (mkParser "\uDE00" 1) 0xD83D eq_refl) as (_ & Hhigh & _).
    destruct (Hhigh ltac:(lia)) as [_ Hpair].
    destruct (Hpair (mkParser "DE00" 1) eq_refl) as [_ Hlow].
    destruct (Hlow 0xDE00 (mkParser EmptyString 1) eq_refl) as [_ Hok].
    exact (proj1 (Hok ltac:(lia))).
  - destruct (parse_encoding_spec RefPlatform.platform (mkParser "00e9" 1)
                (mkParser EmptyString 1) 0xE9 eq_refl) as (_ & _ & Hplain).
    exact (proj1 (Hplain ltac:(lia))).
Defined.

(** ** Decimal renderings *)

Lemma of_uint_acc_val d : forall acc,
  Z.pos (Pos.of_uint_acc d acc) = uint_val d (Z.pos acc).
Proof.
  induction d; intros acc; cbn [Pos.of_uint_acc uint_val];
    rewrite ?IHd; try reflexivity; f_equal; lia.
Qed.

Lemma of_uint_val d : Z.of_N (Pos.of_uint d) = uint_val d 0.
Proof.
  induction d; cbn [Pos.of_uint uint_val]; try reflexivity;
    try (rewrite N2Z.inj_pos, of_uint_acc_val; reflexivity).
  exact IHd.
Qed.

Lemma to_uint_val p : uint_val (Pos.to_uint p) 0 = Z.pos p.
Proof.
  rewrite <- of_uint_val, DecimalPos.Unsigned.of_to. reflexivity.
Qed.

Lemma to_uint_no_leading_zero p d : Pos.to_uint p <> D0 d.
Proof.
  intros E.
  pose proof (DecimalPos.Unsigned.to_of (Pos.to_uint p)) as H.
  rewrite DecimalPos.Unsigned.of_to in H. cbn [N.to_uint] in H.
  rewrite E in H at 2. rewrite unorm_D0 in H.
  destruct (nzhead d) eqn:Hd; unfold unorm in H; rewrite Hd in H;
    try (rewrite E in H; discriminate H).
  - apply (DecimalPos.Unsigned.to_uint_nonzero p). exact H.
  - apply (nzhead_nonzero d u). rewrite Hd. rewrite E in H. congruence.
Qed.

Lemma uint_val_ge d : forall acc, 0 <= acc -> acc <= uint_val d acc.
Proof.
  induction d; intros acc Hacc; cbn [uint_val]; [lia|..];
    (etransitivity; [|apply IHd]; lia).
Qed.

Lemma span_digits_uint P d :
  Parser.span_digits P (NilEmpty.string_of_uint d) = nb_digits d.
Proof.
  induction d; cbn [NilEmpty.string_of_uint Parser.span_digits nb_digits];
    [reflexivity|..];
    (change (Parser.is_digit P _) with true; cbv iota; f_equal; exact IHd).
Qed.

Lemma advance_uint d :
  advance (nb_digits d) (NilEmpty.string_of_uint d) = EmptyString.
Proof.
  induction d; cbn [NilEmpty.string_of_uint advance nb_digits]; auto.
Qed.

Lemma c_str_uint d : c_str (NilEmpty.string_of_uint d) = NilEmpty.string_of_uint d.
Proof.
  induction d; cbn [NilEmpty.string_of_uint c_str]; [reflexivity|..];
    (change (Ascii.eqb _ NUL) with false; cbv iota; f_equal; exact IHd).
Qed.

Lemma length_uint d : String.length (NilEmpty.string_of_uint d) = nb_digits d.
Proof.
  induction d; cbn [NilEmpty.string_of_uint String.length nb_digits]; auto.
Qed.

(** One turn of the accumulation loop on a digit below the limit. *)
Lemma int_loop_step P b c s n count k :
  byte_code c = 48 + k -> 0 <= k <= 9 -> 7 <= b <= 8 -> n <= 0 ->
  10 * - n + k <= 9223372036854775800 + b ->
  Parser.int_loop P b (String c s) n count =
    Parser.int_loop P b s (n * 10 - k) (S count).
Proof.
  intros Hc Hk Hb Hn Hlim. cbn [Parser.int_loop].
  rewrite (char_val_ascii P c) by lia.
  change (char_val P "0") with 48. change (char_val P "9") with 57.
  rewrite Hc.
  destruct (Z.ltb_spec (48 + k) 48); [lia|].
  destruct (Z.gtb_spec (48 + k) 57); [lia|]. cbn [orb].
  replace (48 + k - 48) with k by lia.
  destruct (Z.ltb_spec n (-922337203685477580)); [lia|]. cbn [orb].
  destruct (Z.eqb_spec n (-922337203685477580)), (Z.gtb_spec k b); cbn [andb]; try lia.
  all: rewrite to_int64_id by (unfold INT64_MIN, INT64_MAX; lia); reflexivity.
Qed.

(** The accumulation loop reads a digit sequence within the limit exactly. *)
Lemma int_loop_uint P b d : forall n count,
  7 <= b <= 8 -> n <= 0 -> uint_val d (- n) <= 9223372036854775800 + b ->
  Parser.int_loop P b (NilEmpty.string_of_uint d) n count =
    Some (- uint_val d (- n), (count + nb_digits d)%nat).
Proof.
  intros n count Hb. revert n count.
  induction d; intros n count Hn Hlim;
    cbn [NilEmpty.string_of_uint nb_digits uint_val] in *.
  1: { cbn [Parser.int_loop]. f_equal. f_equal; lia. }
  all: match type of Hlim with
       | uint_val _ ?a <= _ => pose proof (uint_val_ge d a ltac:(lia)) as Hge
       end.
  all: match type of Hlim with
       | uint_val _ (10 * - ?m + ?k) <= _ =>
           rewrite (int_loop_step _ _ _ _ m count k) by (reflexivity || lia)
       | uint_val _ (10 * - ?m) <= _ =>
           rewrite (int_loop_step _ _ _ _ m count 0) by (reflexivity || lia)
       end.
  all: rewrite IHd;
    [ f_equal; f_equal; [f_equal; f_equal; lia | lia]
    | lia
    | match goal with |- uint_val _ ?x <= _ =>
        match type of Hlim with uint_val _ ?y <= _ =>
          replace x with y by lia; exact Hlim end end ].
Qed.

Lemma nb_digits_pos d : d <> Nil -> exists k, nb_digits d = S k.
Proof. destruct d; [congruence|..]; cbn; eauto. Qed.

Lemma head_uint_not_minus d :
  Ascii.eqb "-" (deref_char (NilEmpty.string_of_uint d)) = false.
Proof. destruct d; reflexivity. Qed.

Lemma head_uint_not_zero d :
  (forall d', d <> D0 d') ->
  Ascii.eqb "0" (deref_char (NilEmpty.string_of_uint d)) = false.
Proof. intros H. destruct d; try reflexivity. now destruct (H d). Qed.

(** [parse_val_num] on the digits of a number within the limit, with or
    without a sign, at the end of the input. *)
Lemma parse_val_num_digits P parent line (negative : bool) d :
  d <> Nil -> (forall d', d = D0 d' -> d' = Nil) ->
  uint_val d 0 <= 9223372036854775800 + (if negative then 8 else 7) ->
  let s := if negative then String "-" (NilEmpty.string_of_uint d)
           else NilEmpty.string_of_uint d in
  let p := mkParser s line in
  Parser.parse_val_num P parent p =
    Ok (Some (ValImpl.init_int (if negative then - uint_val d 0 else uint_val d 0)
                (Parser.add_val parent p)),
        set_next EmptyString p).
Proof.
  intros Hnil Hzero Hlim s p.
  destruct (nb_digits_pos d Hnil) as (k & Hk).
  assert (Hlead : Ascii.eqb "0" (deref_char (NilEmpty.string_of_uint d)) && (1 <? S k)%nat
                  = false).
  { destruct d; try reflexivity.
    rewrite (Hzero d eq_refl) in Hk. cbn in Hk. injection Hk as <-. reflexivity. }
  unfold Parser.parse_val_num. subst p s. cbn [m_next m_line_count].
  destruct negative; cbn [deref_char advance Nat.add];
    [change (Ascii.eqb "-" "-") with true; cbv iota; cbn [advance Nat.add]|].
  - rewrite span_digits_uint, Hk. cbn [Nat.eqb Nat.sub].
    rewrite Hlead. rewrite <- Hk, advance_uint. cbn [deref_char].
    change (Ascii.eqb "." NUL) with false. change (Ascii.eqb "E" NUL) with false.
    change (Ascii.eqb "e" NUL) with false. cbn [orb negb].
    rewrite (int_loop_uint P 8 d 0 0) by (change (- 0) with 0; lia).
    cbn [Nat.add advance]. rewrite advance_uint. reflexivity.
  - rewrite head_uint_not_minus. cbn [Nat.add Nat.eqb Nat.sub advance].
    rewrite span_digits_uint, Hk. cbn [Nat.eqb Nat.sub].
    rewrite Hlead. rewrite <- Hk, advance_uint. cbn [deref_char].
    change (Ascii.eqb "." NUL) with false. change (Ascii.eqb "E" NUL) with false.
    change (Ascii.eqb "e" NUL) with false. cbn [orb negb].
    rewrite (int_loop_uint P 7 d 0 0) by (change (- 0) with 0; lia).
    cbn [Nat.add advance]. change (- 0) with 0. rewrite advance_uint.
    rewrite to_int64_id.
    + rewrite Z.opp_involutive. reflexivity.
    + pose proof (uint_val_ge d 0 ltac:(lia)). unfold INT64_MIN, INT64_MAX. lia.
Qed.

Lemma ascii_eqb_codes a b : byte_code a <> byte_code b -> Ascii.eqb a b = false.
Proof.
  intros H. destruct (Ascii.eqb_spec a b) as [->|]; [contradiction|reflexivity].
Qed.

(** On input that begins a number, [parse_val] returns what [parse_val_num]
    returns. *)
Lemma parse_val_number P depth parent p c rest v p' :
  m_next p = String c rest ->
  c = "-"%char \/ 48 <= byte_code c <= 57 ->
  Parser.parse_val_num P parent p = Ok (Some v, p') ->
  Parser.parse_val P (S depth) parent p = Some (Ok (v, p')).
Proof.
  intros Hm Hc Hnum.
  assert (Hcode : byte_code c = 45 \/ 48 <= byte_code c <= 57).
  { destruct Hc as [->|]; [left; reflexivity | now right]. }
  assert (Hne : forall x, (byte_code x < 45 \/ byte_code x = 47 \/ 57 < byte_code x) ->
                          Ascii.eqb c x = false /\ Ascii.eqb x c = false).
  { intros x Hx. split; apply ascii_eqb_codes; lia. }
  assert (Hws : Parser.ws p = Some (Ok p)).
  { unfold Parser.ws, Parser.skip_white_space. rewrite Hm.
    cbn [String.length Parser.skip_white_space_loop]. rewrite Hm. cbn [deref_char].
    rewrite (proj1 (Hne " "%char ltac:(left; cbv; reflexivity))).
    rewrite (proj1 (Hne TAB ltac:(left; cbv; reflexivity))).
    rewrite (proj1 (Hne CR ltac:(left; cbv; reflexivity))).
    rewrite (proj1 (Hne LF ltac:(left; cbv; reflexivity))).
    rewrite (proj1 (Hne "/"%char ltac:(right; left; reflexivity))).
    reflexivity. }
  assert (Hskip : forall x str, (byte_code x < 45 \/ byte_code x = 47 \/ 57 < byte_code x) ->
                    Parser.skip_text (String x str) p = (false, p)).
  { intros x str Hx. unfold Parser.skip_text. rewrite Hm. cbn [strip_prefix].
    rewrite (proj2 (Hne x Hx)). reflexivity. }
  cbn [Parser.parse_val]. rewrite Hws. cbn [pbind].
  unfold Parser.parse_val_null, Parser.parse_val_bool.
  rewrite !Hskip by (right; right; cbv; reflexivity).
  rewrite Hnum. reflexivity.
Qed.

(** C6.  Integer round-trip: for every signed 64-bit [n], parsing the decimal
    rendering of [n] as a document returns an Int value whose [get] is [n]. *)
Theorem int_roundtrip (P : Platform) (n : Z) :
  INT64_MIN <= n <= INT64_MAX ->
  Json.parse P (decimal n) = Some (Ok (root_int n)) /\
  Val.as_int (root_int n) = Ok (root_int n) /\
  Int.get (root_int n) = n.
Proof.
  intros Hn. split; [|split; reflexivity].
  unfold INT64_MIN, INT64_MAX in Hn.
  assert (Hsigned : forall (negative : bool) p,
            Z.pos p <= 9223372036854775800 + (if negative then 8 else 7) ->
            let d := Pos.to_uint p in
            let s := if negative then String "-" (NilEmpty.string_of_uint d)
                     else NilEmpty.string_of_uint d in
            Json.parse P s =
              Some (Ok (root_int (if negative then - Z.pos p else Z.pos p)))).
  { intros negative p Hp d s. subst d.
    assert (Hnil : Pos.to_uint p <> Nil) by apply DecimalPos.Unsigned.to_uint_nonnil.
    assert (Hcs : c_str s = s).
    { subst s. destruct negative; cbn [c_str].
      - change (Ascii.eqb "-" NUL) with false. cbv iota. now rewrite c_str_uint.
      - apply c_str_uint. }
    unfold Json.parse, Json.parse_in_place, Parser.parse. rewrite Hcs.
    pose proof (parse_val_num_digits P None 1 negative (Pos.to_uint p) Hnil) as Hnum.
    cbv zeta in Hnum. fold s in Hnum.
    rewrite (to_uint_val p) in Hnum.
    specialize (Hnum (fun d' E => False_ind _ (to_uint_no_leading_zero p d' E)) Hp).
    assert (Hhead : exists c rest, s = String c rest /\
                      (c = "-"%char \/ 48 <= byte_code c <= 57)).
    { subst s. destruct negative; [eauto|].
      destruct (Pos.to_uint p); [congruence|..]; cbn [NilEmpty.string_of_uint];
        do 2 eexists; (split; [reflexivity|right; cbv; split; discriminate]). }
    destruct Hhead as (c & rest & Hs & Hc).
    rewrite (parse_val_number P _ None (Parser.init s) c rest _ _ Hs Hc Hnum).
    cbn [pbind fst snd]. reflexivity. }
  unfold decimal. destruct n as [|p|p]; cbn [Z.to_int NilZero.string_of_int].
  - reflexivity.
  - pose proof (DecimalPos.Unsigned.to_uint_nonnil p).
    specialize (Hsigned false p ltac:(lia)). cbv zeta iota in Hsigned.
    unfold NilZero.string_of_uint. destruct (Pos.to_uint p); [congruence|..]; exact Hsigned.
  - pose proof (DecimalPos.Unsigned.to_uint_nonnil p).
    specialize (Hsigned true p ltac:(lia)). cbv zeta iota in Hsigned.
    unfold NilZero.string_of_uint. destruct (Pos.to_uint p); [congruence|..]; exact Hsigned.
Qed.

Lemma int_roundtrip_witness :
  Json.parse RefPlatform.platform (decimal (-42)) = Some (Ok (root_int (-42))) /\
  Val.as_int (root_int (-42)) = Ok (root_int (-42)) /\
  Int.get (root_int (-42)) = -42.
Proof.
  apply (int_roundtrip RefPlatform.platform (-42)).
  unfold INT64_MIN, INT64_MAX. lia.
Defined.

(** ** The signed 64-bit range *)

(** One turn of the accumulation loop on a digit that would pass the limit. *)
Lemma int_loop_stop P b c s n count k :
  byte_code c = 48 + k -> 0 <= k <= 9 -> 7 <= b <= 8 -> n <= 0 ->
  9223372036854775800 + b < 10 * - n + k ->
  Parser.int_loop P b (String c s) n count = None.
Proof.
  intros Hc Hk Hb Hn Hlim. cbn [Parser.int_loop].
  rewrite (char_val_ascii P c) by lia.
  change (char_val P "0") with 48. change (char_val P "9") with 57.
  rewrite Hc.
  destruct (Z.ltb_spec (48 + k) 48); [lia|].
  destruct (Z.gtb_spec (48 + k) 57); [lia|]. cbn [orb].
  replace (48 + k - 48) with k by lia.
  destruct (Z.ltb_spec n (-922337203685477580)); [reflexivity|]. cbn [orb].
  destruct (Z.eqb_spec n (-922337203685477580)), (Z.gtb_spec k b); cbn [andb];
    try reflexivity; lia.
Qed.

(** The accumulation loop throws on every digit sequence past the limit. *)
Lemma int_loop_overflow P b d : forall n count,
  7 <= b <= 8 -> n <= 0 -> - n <= 9223372036854775800 + b ->
  9223372036854775800 + b < uint_val d (- n) ->
  Parser.int_loop P b (NilEmpty.string_of_uint d) n count = None.
Proof.
  intros n count Hb. revert n count.
  induction d; intros n count Hn Hin Hlim;
    cbn [NilEmpty.string_of_uint uint_val] in *; [lia|..].
  all: match type of Hlim with
       | _ < uint_val _ (10 * - ?m + ?k) =>
           destruct (Z.le_gt_cases (10 * - m + k) (9223372036854775800 + b)) as [Hle|Hgt];
           [ rewrite (int_loop_step _ _ _ _ m count k) by (reflexivity || lia)
           | apply (int_loop_stop _ _ _ _ m count k); (reflexivity || lia) ]
       | _ < uint_val _ (10 * - ?m) =>
           destruct (Z.le_gt_cases (10 * - m + 0) (9223372036854775800 + b)) as [Hle|Hgt];
           [ rewrite (int_loop_step _ _ _ _ m count 0) by (reflexivity || lia)
           | apply (int_loop_stop _ _ _ _ m count 0); (reflexivity || lia) ]
       end.
  all: apply IHd; [lia | lia |].
  all: match goal with |- _ < uint_val _ ?x =>
         match type of Hlim with _ < uint_val _ ?y =>
           replace x with y by lia; exact Hlim end end.
Qed.

(** [parse_val_num] on the digits of a number past the limit. *)
Lemma parse_val_num_overflow P parent line (negative : bool) d :
  d <> Nil -> (forall d', d = D0 d' -> d' = Nil) ->
  9223372036854775800 + (if negative then 8 else 7) < uint_val d 0 ->
  let s := if negative then String "-" (NilEmpty.string_of_uint d)
           else NilEmpty.string_of_uint d in
  Parser.parse_val_num P parent (mkParser s line) =
    Throw (ErrSyntax "invalid number syntax: integer doesn't fit in 64 bits" line).
Proof.
  intros Hnil Hzero Hlim s.
  destruct (nb_digits_pos d Hnil) as (k & Hk).
  assert (Hlead : Ascii.eqb "0" (deref_char (NilEmpty.string_of_uint d)) && (1 <? S k)%nat
                  = false).
  { destruct d; try reflexivity.
    rewrite (Hzero d eq_refl) in Hk. cbn in Hk. injection Hk as <-. reflexivity. }
  unfold Parser.parse_val_num. subst s. cbn [m_next m_line_count].
  destruct negative; cbn [deref_char advance Nat.add];
    [change (Ascii.eqb "-" "-") with true; cbv iota; cbn [advance Nat.add]|].
  - rewrite span_digits_uint, Hk. cbn [Nat.eqb Nat.sub].
    rewrite Hlead. rewrite <- Hk, advance_uint. cbn [deref_char].
    change (Ascii.eqb "." NUL) with false. change (Ascii.eqb "E" NUL) with false.
    change (Ascii.eqb "e" NUL) with false. cbn [orb negb].
    rewrite (int_loop_overflow P 8 d 0 0) by (change (- 0) with 0; lia).
    cbn [Nat.add advance]. rewrite ?advance_uint. reflexivity.
  - rewrite head_uint_not_minus. cbn [Nat.add Nat.eqb Nat.sub advance].
    rewrite span_digits_uint, Hk. cbn [Nat.eqb Nat.sub].
    rewrite Hlead. rewrite <- Hk, advance_uint. cbn [deref_char].
    change (Ascii.eqb "." NUL) with false. change (Ascii.eqb "E" NUL) with false.
    change (Ascii.eqb "e" NUL) with false. cbn [orb negb].
    rewrite (int_loop_overflow P 7 d 0 0) by (change (- 0) with 0; lia).
    cbn [Nat.add advance]. rewrite ?advance_uint. reflexivity.
Qed.

(** On input that begins a number, [parse_val] throws what [parse_val_num]
    throws. *)
Lemma parse_val_number_throw P depth parent p c rest e :
  m_next p = String c rest ->
  c = "-"%char \/ 48 <= byte_code c <= 57 ->
  Parser.parse_val_num P parent p = Throw e ->
  Parser.parse_val P (S depth) parent p = Some (Throw e).
Proof.
  intros Hm Hc Hnum.
  assert (Hcode : byte_code c = 45 \/ 48 <= byte_code c <= 57).
  { destruct Hc as [->|]; [left; reflexivity | now right]. }
  assert (Hne : forall x, (byte_code x < 45 \/ byte_code x = 47 \/ 57 < byte_code x) ->
                          Ascii.eqb c x = false /\ Ascii.eqb x c = false).
  { intros x Hx. split; apply ascii_eqb_codes; lia. }
  assert (Hws : Parser.ws p = Some (Ok p)).
  { unfold Parser.ws, Parser.skip_white_space. rewrite Hm.
    cbn [String.length Parser.skip_white_space_loop]. rewrite Hm. cbn [deref_char].
    rewrite (proj1 (Hne " "%char ltac:(left; cbv; reflexivity))).
    rewrite (proj1 (Hne TAB ltac:(left; cbv; reflexivity))).
    rewrite (proj1 (Hne CR ltac:(left; cbv; reflexivity))).
    rewrite (proj1 (Hne LF ltac:(left; cbv; reflexivity))).
    rewrite (proj1 (Hne "/"%char ltac:(right; left; reflexivity))).
    reflexivity. }
  assert (Hskip : forall x str, (byte_code x < 45 \/ byte_code x = 47 \/ 57 < byte_code x) ->
                    Parser.skip_text (String x str) p = (false, p)).
  { intros x str Hx. unfold Parser.skip_text. rewrite Hm. cbn [strip_prefix].
    rewrite (proj2 (Hne x Hx)). reflexivity. }
  cbn [Parser.parse_val]. rewrite Hws. cbn [pbind].
  unfold Parser.parse_val_null, Parser.parse_val_bool.
  rewrite !Hskip by (right; right; cbv; reflexivity).
  rewrite Hnum. reflexivity.
Qed.

(** The canonical decimal rendering of a positive integer, with or without
    a sign, as a whole document: an Int when it is within the limit of its
    sign, the overflow error when it is past it. *)
Lemma parse_signed_digits P (negative : bool) p :
  let s := if negative then String "-" (NilEmpty.string_of_uint (Pos.to_uint p))
           else NilEmpty.string_of_uint (Pos.to_uint p) in
  Json.parse P s =
    if Z.pos p <=? 9223372036854775800 + (if negative then 8 else 7)
    then Some (Ok (root_int (if negative then - Z.pos p else Z.pos p)))
    else Some (Throw (ErrSyntax
                        "invalid number syntax: integer doesn't fit in 64 bits" 1)).
Proof.
  intros s.
  assert (Hnil : Pos.to_uint p <> Nil) by apply DecimalPos.Unsigned.to_uint_nonnil.
  assert (Hzero : forall d', Pos.to_uint p = D0 d' -> d' = Nil).
  { intros d' E. destruct (to_uint_no_leading_zero p d' E). }
  assert (Hcs : c_str s = s).
  { subst s. destruct negative; cbn [c_str].
    - change (Ascii.eqb "-" NUL) with false. cbv iota. now rewrite c_str_uint.
    - apply c_str_uint. }
  assert (Hhead : exists c rest, s = String c rest /\
                    (c = "-"%char \/ 48 <= byte_code c <= 57)).
  { subst s. destruct negative; [eauto|].
    destruct (Pos.to_uint p); [congruence|..]; cbn [NilEmpty.string_of_uint];
      do 2 eexists; (split; [reflexivity|right; cbv; split; discriminate]). }
  destruct Hhead as (c & rest & Hs & Hc).
  unfold Json.parse, Json.parse_in_place, Parser.parse. rewrite Hcs.
  destruct (Z.leb_spec (Z.pos p) (9223372036854775800 + (if negative then 8 else 7)))
    as [Hle|Hgt].
  - pose proof (parse_val_num_digits P None 1 negative (Pos.to_uint p) Hnil Hzero) as Hnum.
    cbv zeta in Hnum. fold s in Hnum. rewrite (to_uint_val p) in Hnum.
    specialize (Hnum Hle).
    rewrite (parse_val_number P _ None (Parser.init s) c rest _ _ Hs Hc Hnum).
    cbn [pbind fst snd]. reflexivity.
  - pose proof (parse_val_num_overflow P None 1 negative (Pos.to_uint p) Hnil Hzero) as Hnum.
    cbv zeta in Hnum. fold s in Hnum. rewrite (to_uint_val p) in Hnum.
    specialize (Hnum Hgt).
    rewrite (parse_val_number_throw P _ None (Parser.init s) c rest _ Hs Hc Hnum).
    reflexivity.
Qed.

Lemma decimal_signed_digits n :
  n <> 0 ->
  decimal n =
    if n <? 0 then String "-" (NilEmpty.string_of_uint (Pos.to_uint (Z.to_pos (- n))))
    else NilEmpty.string_of_uint (Pos.to_uint (Z.to_pos n)).
Proof.
  intros Hn. unfold decimal.
  destruct n as [|p|p]; [congruence|..]; cbn [Z.to_int NilZero.string_of_int Z.ltb Z.compare];
    [change (Z.to_pos (Z.pos p)) with p|change (Z.to_pos (- Z.neg p)) with p];
    pose proof (DecimalPos.Unsigned.to_uint_nonnil p);
    unfold NilZero.string_of_uint; destruct (Pos.to_uint p); congruence || reflexivity.
Qed.

(** C3.  Integer parsing accepts exactly the signed 64-bit range.  For every
    integer [n], the document that is the decimal rendering of [n] parses to
    the Int value [n] when [INT64_MIN <= n <= INT64_MAX], and otherwise
    throws the syntax error of the number ("integer doesn't fit in 64
    bits"): no integer outside the range is accepted, wrapped or promoted to
    Float.  In particular [9223372036854775807] and [-9223372036854775808]
    parse to those Int values, and [9223372036854775808] and
    [-9223372036854775809] are that syntax error. *)
Theorem int64_boundary (P : Platform) :
  (forall n, INT64_MIN <= n <= INT64_MAX ->
     Json.parse P (decimal n) = Some (Ok (root_int n))) /\
  (forall n, n < INT64_MIN \/ INT64_MAX < n ->
     Json.parse P (decimal n) =
       Some (Throw (ErrSyntax "invalid number syntax: integer doesn't fit in 64 bits" 1))) /\
  Json.parse P "9223372036854775807" = Some (Ok (root_int 9223372036854775807)) /\
  Json.parse P "-9223372036854775808" = Some (Ok (root_int (-9223372036854775808))) /\
  Json.parse P "9223372036854775808" =
    Some (Throw (ErrSyntax "invalid number syntax: integer doesn't fit in 64 bits" 1)) /\
  Json.parse P "-9223372036854775809" =
    Some (Throw (ErrSyntax "invalid number syntax: integer doesn't fit in 64 bits" 1)).
Proof.
  assert (Hall : forall n, n <> 0 ->
            Json.parse P (decimal n) =
              if (INT64_MIN <=? n) && (n <=? INT64_MAX)
              then Some (Ok (root_int n))
              else Some (Throw (ErrSyntax
                                  "invalid number syntax: integer doesn't fit in 64 bits" 1))).
  { intros n Hn. rewrite (decimal_signed_digits n Hn). unfold INT64_MIN, INT64_MAX.
    destruct n as [|p|p]; [congruence|..]; cbn [Z.ltb Z.compare];
      [change (Z.to_pos (Z.pos p)) with p|change (Z.to_pos (- Z.neg p)) with p].
    - rewrite (parse_signed_digits P false p). cbv zeta iota.
      destruct (Z.leb_spec (-9223372036854775808) (Z.pos p)); [|lia]. cbn [andb].
      change (9223372036854775800 + 7) with 9223372036854775807. reflexivity.
    - rewrite (parse_signed_digits P true p). cbv zeta iota.
      change (9223372036854775800 + 8) with 9223372036854775808.
      destruct (Z.leb_spec (Z.neg p) 9223372036854775807); [|lia]. rewrite andb_true_r.
      change (- Z.pos p) with (Z.neg p).
      destruct (Z.leb_spec (Z.pos p) 9223372036854775808),
               (Z.leb_spec (-9223372036854775808) (Z.neg p)); try reflexivity; lia. }
  split; [|split; [|repeat split; vm_compute; reflexivity]].
  - intros n Hn. destruct (Z.eq_dec n 0) as [->|Hz]; [reflexivity|].
    rewrite (Hall n Hz).
    destruct (Z.leb_spec INT64_MIN n), (Z.leb_spec n INT64_MAX); try lia. reflexivity.
  - intros n Hn. assert (Hz : n <> 0) by (unfold INT64_MIN, INT64_MAX in Hn; lia).
    rewrite (Hall n Hz).
    destruct (Z.leb_spec INT64_MIN n), (Z.leb_spec n INT64_MAX); try lia; reflexivity.
Qed.

Lemma int64_boundary_witness :
  Json.parse RefPlatform.platform (decimal (-7)) = Some (Ok (root_int (-7))) /\
  Json.parse RefPlatform.platform (decimal 18446744073709551616) =
    Some (Throw (ErrSyntax "invalid number syntax: integer doesn't fit in 64 bits" 1)).
Proof.
  split.
  - apply (proj1 (int64_boundary RefPlatform.platform)).
    unfold INT64_MIN, INT64_MAX. lia.
  - apply (proj1 (proj2 (int64_boundary RefPlatform.platform))).
    right. unfold INT64_MAX. lia.
Defined.

(** ** Number tokens *)

Lemma take_advance n : forall s, s = take_chars n s ++ advance n s.
Proof.
  induction n as [|n IH]; intros [|c s]; try reflexivity.
  cbn [take_chars advance]. change (String c s = String c (take_chars n s ++ advance n s)).
  f_equal. apply IH.
Qed.

Lemma in_take_chars k : forall n s c,
  (k < n)%nat -> deref_char (advance k s) = c -> c <> NUL ->
  In c (list_ascii_of_string (take_chars n s)).
Proof.
  induction k as [|k IH]; intros n s c Hlt Hc Hnul.
  - destruct n as [|n]; [lia|]. destruct s as [|c0 s]; cbn in Hc; [congruence|].
    subst c0. cbn. now left.
  - destruct n as [|n]; [lia|]. destruct s as [|c0 s]; cbn in Hc; [congruence|].
    cbn [take_chars list_ascii_of_string]. right. apply (IH n s c); [lia|exact Hc|exact Hnul].
Qed.

Lemma has_float_mark_at k n s :
  (k < n)%nat -> float_mark (deref_char (advance k s)) = true ->
  has_float_mark (take_chars n s) = true.
Proof.
  intros Hlt Hm. unfold has_float_mark. apply existsb_exists.
  exists (deref_char (advance k s)). split; [|exact Hm].
  apply (in_take_chars k); [exact Hlt | reflexivity |].
  intros E. rewrite E in Hm. discriminate Hm.
Qed.

Lemma float_mark_not_digit P c :
  float_mark c = true ->
  (char_val P c <? char_val P "0") || (char_val P c >? char_val P "9") = true.
Proof.
  unfold float_mark. intros H.
  apply orb_true_iff in H. destruct H as [H|H];
    [apply orb_true_iff in H; destruct H as [H|H]|];
    apply Ascii.eqb_eq in H; subst c; reflexivity.
Qed.

(** The accumulation loop consumes no [.], [e] or [E]. *)
Lemma int_loop_no_mark P b : forall s n count n' count',
  Parser.int_loop P b s n count = Some (n', count') ->
  (count <= count')%nat /\ has_float_mark (take_chars (count' - count) s) = false.
Proof.
  induction s as [|c s IH]; intros n count n' count'; cbn [Parser.int_loop].
  - intros [= <- <-]. split; [lia|]. now destruct (count - count)%nat.
  - destruct ((char_val P c <? char_val P "0") || (char_val P c >? char_val P "9")) eqn:Hd.
    + intros [= <- <-]. split; [lia|]. now rewrite Nat.sub_diag.
    + destruct ((n <? -922337203685477580) || _); [discriminate|].
      intros H. apply IH in H. destruct H as [Hle Hm]. split; [lia|].
      replace (count' - count)%nat with (S (count' - S count)) by lia.
      cbn [take_chars]. unfold has_float_mark in *. cbn [list_ascii_of_string existsb].
      rewrite Hm, orb_false_r.
      destruct (float_mark c) eqn:Hc; [|reflexivity].
      rewrite (float_mark_not_digit P c Hc) in Hd. discriminate Hd.
Qed.

Lemma get_type_init_f64 x v : Val.get_type (ValImpl.init_f64 x v) = vtF64.
Proof. reflexivity. Qed.

Lemma get_type_init_int n v : Val.get_type (ValImpl.init_int n v) = vtInt.
Proof. reflexivity. Qed.

(** C5.  For every number token [parse_val_num] accepts, the value is a Float
    exactly when the token contains [.], [e] or [E], and an Int exactly when
    it contains none of them. *)
Theorem number_token_class (P : Platform) (parent : option ValImpl) (p p' : Parser)
    (v : ValImpl) :
  Parser.parse_val_num P parent p = Ok (Some v, p') ->
  exists token,
    m_next p = token ++ m_next p' /\
    (Val.get_type v = vtF64 <-> has_float_mark token = true) /\
    (Val.get_type v = vtInt <-> has_float_mark token = false).
Proof.
  unfold Parser.parse_val_num.
  set (s := m_next p).
  set (negative := Ascii.eqb "-" (deref_char s)).
  set (num_start := if negative then 1%nat else 0%nat).
  set (p1 := (num_start + Parser.span_digits P (advance num_start s))%nat).
  assert (Hfloat : forall p3 x,
            (exists k, (k < p3)%nat /\ float_mark (deref_char (advance k s)) = true) ->
            exists token,
              s = token ++ advance p3 s /\
              (Val.get_type (ValImpl.init_f64 x (Parser.add_val parent p)) = vtF64 <->
               has_float_mark token = true) /\
              (Val.get_type (ValImpl.init_f64 x (Parser.add_val parent p)) = vtInt <->
               has_float_mark token = false)).
  { intros p3 x (k & Hk & Hm). exists (take_chars p3 s).
    rewrite (has_float_mark_at k p3 s Hk Hm), get_type_init_f64.
    split; [apply take_advance|]. split; split; auto; discriminate. }
  destruct (p1 =? 0)%nat; [discriminate|].
  destruct (p1 =? num_start)%nat; [discriminate|].
  destruct (Ascii.eqb "0" (deref_char (advance num_start s)) && _); [discriminate|].
  destruct (Ascii.eqb "." (deref_char (advance p1 s))) eqn:Hdot.
  - apply Ascii.eqb_eq in Hdot.
    assert (Hmark : float_mark (deref_char (advance p1 s)) = true)
      by (rewrite <- Hdot; reflexivity).
    set (p2 := (p1 + 1 + Parser.span_digits P (advance (p1 + 1) s))%nat).
    cbv zeta.
    destruct (Ascii.eqb "E" (deref_char (advance p2 s)) ||
              Ascii.eqb "e" (deref_char (advance p2 s)));
      [destruct (Ascii.eqb "+" (deref_char (advance (p2 + 1) s)) ||
                 Ascii.eqb "-" (deref_char (advance (p2 + 1) s)))|];
      cbn [negb]; destruct (strtod P s) as [[x end_] erange];
      (destruct erange; [discriminate|]);
      (destruct (negb (_ =? _)%nat); [discriminate|]);
      intros [= <- <-]; cbn [m_next set_next]; apply Hfloat;
      exists p1; (split; [unfold p2; lia | exact Hmark]).
  - destruct (Ascii.eqb "E" (deref_char (advance p1 s)) ||
              Ascii.eqb "e" (deref_char (advance p1 s))) eqn:He.
    + assert (Hmark : float_mark (deref_char (advance p1 s)) = true).
      { unfold float_mark. apply orb_true_iff in He. destruct He as [He|He];
          apply Ascii.eqb_eq in He; rewrite <- He; reflexivity. }
      cbv zeta.
      destruct (Ascii.eqb "+" (deref_char (advance (p1 + 1) s)) ||
                Ascii.eqb "-" (deref_char (advance (p1 + 1) s)));
        cbn [negb]; destruct (strtod P s) as [[x end_] erange];
        (destruct erange; [discriminate|]);
        (destruct (negb (_ =? _)%nat); [discriminate|]);
        intros [= <- <-]; cbn [m_next set_next]; apply Hfloat;
        exists p1; (split; [lia | exact Hmark]).
    + cbn [negb].
      destruct (Parser.int_loop P _ (advance num_start s) 0 0) as [[n count]|] eqn:Hloop;
        [|discriminate].
      intros [= <- <-]. cbn [m_next set_next].
      exists (take_chars (num_start + count) s).
      rewrite get_type_init_int.
      apply int_loop_no_mark in Hloop. destruct Hloop as [_ Hm].
      rewrite Nat.sub_0_r in Hm.
      assert (Hno : has_float_mark (take_chars (num_start + count) s) = false).
      { subst num_start negative. destruct (Ascii.eqb_spec "-" (deref_char s)) as [E|_].
        - destruct s as [|c s0]; [discriminate E|]. cbn in E. subst c.
          cbn [Nat.add take_chars advance] in *. unfold has_float_mark in *.
          cbn [list_ascii_of_string existsb]. rewrite Hm. reflexivity.
        - exact Hm. }
      rewrite Hno. split; [apply take_advance|]. split; split; auto; discriminate.
Qed.

Lemma number_token_class_witness :
  exists token,
    "1.5e3," = token ++ "," /\
    (Val.get_type float_1500 = vtF64 <-> has_float_mark token = true) /\
    (Val.get_type float_1500 = vtInt <-> has_float_mark token = false).
Proof.
  apply (number_token_class RefPlatform.platform None (Parser.init "1.5e3,")
           (mkParser "," 1)).
  vm_compute. reflexivity.
Defined.

(** ** Termination: the fuel the parser is given is enough *)

Lemma length_advance n : forall s,
  (String.length (advance n s) <= String.length s)%nat.
Proof.
  induction n as [|n IH]; intros [|c s]; cbn [advance String.length]; try lia.
  specialize (IH s). lia.
Qed.

Lemma length_advance_1 c s : String.length (advance 1 (String c s)) = String.length s.
Proof. reflexivity. Qed.

Lemma length_strip_prefix str : forall s rest,
  strip_prefix str s = Some rest ->
  (String.length rest + String.length str = String.length s)%nat.
Proof.
  induction str as [|a str IH]; intros s rest; cbn [strip_prefix].
  - intros [= ->]. cbn. lia.
  - destruct s as [|b s]; [discriminate|].
    destruct (Ascii.eqb a b); [|discriminate].
    intros H. apply IH in H. cbn [String.length]. lia.
Qed.

Lemma skip_text_remaining str p b p' :
  Parser.skip_text str p = (b, p') ->
  (remaining p' <= remaining p)%nat /\
  (b = true -> (remaining p' + String.length str = remaining p)%nat) /\
  (b = false -> p' = p).
Proof.
  unfold Parser.skip_text, remaining.
  destruct (strip_prefix str (m_next p)) as [rest|] eqn:E; intros [= <- <-].
  - apply length_strip_prefix in E. cbn [m_next set_next].
    repeat split; try lia; discriminate.
  - repeat split; try lia; discriminate.
Qed.





Lemma parse_hex4_loop_le P i : forall s code code' s',
  Parser.parse_hex4_loop P i s code = Some (code', s') ->
  (String.length s' <= String.length s)%nat.
Proof.
  induction i as [|i IH]; intros s code code' s'; cbn [Parser.parse_hex4_loop].
  - intros [= _ <-]. lia.
  - pose proof (length_advance 1 s). unfold Parser.is_digit.
    repeat (destruct (_ && _); [intros H'; apply IH in H'; lia|]). discriminate.
Qed.

Lemma parse_hex4_remaining P p code p' :
  Parser.parse_hex4 P p = Ok (code, p') -> (remaining p' <= remaining p)%nat.
Proof.
  unfold Parser.parse_hex4, remaining.
  destruct (Parser.parse_hex4_loop P 4 (m_next p) 0) as [[c s]|] eqn:E; [|discriminate].
  intros [= _ <-]. apply parse_hex4_loop_le in E. exact E.
Qed.









(** ** The model on the documents of the interface description *)

Example decimal_examples :
  decimal 0 = "0" /\ decimal 42 = "42" /\ decimal (-42) = "-42" /\
  decimal INT64_MIN = "-9223372036854775808".
Proof. repeat split. Qed.

(** An escape is stored as UTF-8 in the string: [x], C3 A9, [y]. *)
Example escape_is_decoded (P : Platform) :
  Json.parse P (dq "'x\u00e9y'") =
    Some (Ok {| m_data := d_str (String "x" (String "195" (String "169" "y")));
                m_type := vtStr; m_line_no := 1; m_name := EmptyString; m_idx := -1 |}).
Proof. vm_compute. reflexivity. Qed.

(** A comment runs to the end of its line, and lines are counted. *)
Example lines_are_counted (P : Platform) :
  let text := String.concat (String LF EmptyString)
                ["{"; dq "  'x': 1, // comment"; dq "  'y': 2"; "}"] in
  exists root y,
    Json.parse P text = Some (Ok root) /\
    list_values root !! 1%nat = Some y /\ Val.get_name y = "y" /\ Val.get_line y = 3.
Proof. do 2 eexists. vm_compute. repeat split. Qed.

Example duplicate_member_rejected (P : Platform) :
  Json.parse P (dq "{'a': 1, 'a': 2}") =
    Some (Throw (ErrSyntax "invalid object syntax: duplicate member name" 1)).
Proof. vm_compute. reflexivity. Qed.

(** Reading a port out of range: bad-int-range with the bounds and the line. *)
Example port_out_of_range :
  fst (Obj.get_i32 [] "port" 1 65535 None (parsed (dq "{'port': 70000}"))) =
    Throw (ErrBadIntRange
             {| line := 1; val_name := "port"; val_idx := 0; val_type := vtInt |}
             1 65535).
Proof. vm_compute. reflexivity. Qed.

(** Unknown members: after reading [known] only the sweep reports [extra];
    after reading [extra] too it descends into the array and reports [x];
    after [ignore_members] on the root it succeeds. *)
Example unknown_member_sweep :
  do_reject_unknow_members doc_known_read =
    Throw (ErrUnknownMember
             {| line := 1; val_name := "extra"; val_idx := 1; val_type := vtArr |}) /\
  do_reject_unknow_members (snd (Obj.get_arr [] "extra" doc_known_read)) =
    Throw (ErrUnknownMember
             {| line := 1; val_name := "x"; val_idx := 0; val_type := vtInt |}) /\
  do_reject_unknow_members (snd (Val_ignore_members [] doc_known_read)) = Ok tt.
Proof. repeat split; vm_compute; reflexivity. Qed.

(** * Further properties of the code *)
(** ** The parser moves forwards and throws syntax errors only *)

Lemma advances_refl p : advances p p.
Proof. unfold advances. lia. Qed.

Lemma advances_trans p q r : advances p q -> advances q r -> advances p r.
Proof. unfold advances. lia. Qed.

Lemma syntax_error_after_mono p q e :
  advances p q -> syntax_error_after q e -> syntax_error_after p e.
Proof.
  intros Ha (msg & l & -> & Hl). exists msg, l. split; [reflexivity|].
  unfold advances in Ha. lia.
Qed.

Lemma outcome_after_mono {A} p q (r : res (A * Parser)) :
  advances p q -> outcome_after q r -> outcome_after p r.
Proof.
  intros Ha. destruct r as [[a p']|e]; cbn [outcome_after].
  - now apply advances_trans.
  - now apply syntax_error_after_mono.
Qed.

Lemma outcome_on_line_after {A} p (r : res (A * Parser)) :
  outcome_on_line p r -> outcome_after p r.
Proof.
  destruct r as [[a p']|e]; cbn [outcome_on_line outcome_after].
  - tauto.
  - intros (msg & ->). exists msg, (m_line_count p). split; [reflexivity|lia].
Qed.

Lemma outcome_on_line_mono {A} p q (r : res (A * Parser)) :
  advances p q -> m_line_count q = m_line_count p ->
  outcome_on_line q r -> outcome_on_line p r.
Proof.
  intros Ha Hl. destruct r as [[a p']|e]; cbn [outcome_on_line].
  - intros [H1 H2]. split; [now apply (advances_trans p q)|congruence].
  - intros (msg & ->). exists msg. now rewrite Hl.
Qed.

Lemma syntax_error_here p msg : syntax_error_after p (ErrSyntax msg (m_line_count p)).
Proof. exists msg, (m_line_count p). split; [reflexivity|lia]. Qed.

Lemma advances_step n p :
  advances p (set_next (advance n (m_next p)) p).
Proof.
  unfold advances, remaining. cbn [m_next m_line_count set_next].
  pose proof (length_advance n (m_next p)). lia.
Qed.

Lemma skip_text_advances str p b p' :
  Parser.skip_text str p = (b, p') ->
  advances p p' /\ m_line_count p' = m_line_count p.
Proof.
  intros H. pose proof (skip_text_remaining str p b p' H) as (Hle & _ & _).
  assert (Hl : m_line_count p' = m_line_count p).
  { unfold Parser.skip_text in H.
    destruct (strip_prefix str (m_next p)); injection H as <- <-; reflexivity. }
  split; [|exact Hl]. unfold advances. lia.
Qed.

Lemma skip_to_eol_loop_advances s : forall n s' n',
  Parser.skip_to_eol_loop s n = (s', n') ->
  (String.length s' <= String.length s)%nat /\ n <= n' /\
  n' + Z.of_nat (String.length s') <= n + Z.of_nat (String.length s).
Proof.
  induction s as [|c s IH]; intros n s' n'; cbn [Parser.skip_to_eol_loop].
  - intros [= <- <-]. lia.
  - destruct (Ascii.eqb c NUL); [intros [= <- <-]; lia|].
    destruct (Ascii.eqb c CR).
    + intros [= <- <-]. cbn [String.length].
      destruct (Ascii.eqb (deref_char s) LF);
        [pose proof (length_advance 1 s) as H; cbn [advance] in H|]; lia.
    + destruct (Ascii.eqb c LF); [intros [= <- <-]; cbn [String.length]; lia|].
      intros H. apply IH in H. cbn [String.length]. lia.
Qed.

Lemma skip_to_eol_advances p : advances p (Parser.skip_to_eol p).
Proof.
  unfold Parser.skip_to_eol, advances, remaining.
  destruct (Parser.skip_to_eol_loop (m_next p) (m_line_count p)) as [s n] eqn:E.
  apply skip_to_eol_loop_advances in E. cbn [m_next m_line_count]. lia.
Qed.

Lemma skip_white_space_loop_advances fuel : forall p p',
  Parser.skip_white_space_loop fuel p = Some p' -> advances p p'.
Proof.
  induction fuel as [|fuel IH]; intros p p'; cbn [Parser.skip_white_space_loop];
    [discriminate|].
  destruct (_ || _).
  { intros H. apply IH in H. eapply advances_trans; [apply (advances_step 1)|exact H]. }
  destruct (_ || _).
  { intros H. apply IH in H. eapply advances_trans; [apply skip_to_eol_advances|exact H]. }
  destruct (_ && _).
  { intros H. apply IH in H. eapply advances_trans; [apply skip_to_eol_advances|exact H]. }
  intros [= <-]. apply advances_refl.
Qed.

(** [skip_white_space] never throws. *)
Lemma ws_advances p r :
  Parser.ws p = Some r -> exists p', r = Ok p' /\ advances p p'.
Proof.
  unfold Parser.ws, Parser.skip_white_space.
  destruct (Parser.skip_white_space_loop _ p) as [p'|] eqn:E; [|discriminate].
  intros [= <-]. exists p'. split; [reflexivity|].
  now apply skip_white_space_loop_advances in E.
Qed.

Lemma parse_hex4_on_line P p :
  outcome_on_line p (Parser.parse_hex4 P p).
Proof.
  destruct (Parser.parse_hex4 P p) as [[code p']|e] eqn:E; cbn [outcome_on_line].
  - pose proof (parse_hex4_remaining P p code p' E).
    pose proof (parse_hex4_ok P p code p' E) as [_ Hl].
    split; [|exact Hl]. unfold advances. lia.
  - unfold Parser.parse_hex4 in E.
    destruct (Parser.parse_hex4_loop P 4 (m_next p) 0) as [[code s]|]; [discriminate|].
    injection E as <-. eexists. reflexivity.
Qed.

Lemma parse_encoding_on_line P p :
  outcome_on_line p (Parser.parse_encoding P p).
Proof.
  unfold Parser.parse_encoding.
  pose proof (parse_hex4_on_line P p) as H1.
  destruct (Parser.parse_hex4 P p) as [[code p1]|e]; [|exact H1].
  cbn [outcome_on_line] in H1. destruct H1 as [Ha1 Hl1].
  destruct (_ && _); [eexists; unfold Parser.raise_bad_utf; now rewrite Hl1|].
  destruct (_ && _); [|cbn [outcome_on_line]; tauto].
  destruct (Parser.skip_text "\u" p1) as [[|] p2] eqn:E2;
    [|eexists; unfold Parser.raise_bad_utf; now rewrite Hl1].
  apply skip_text_advances in E2. destruct E2 as [Ha2 Hl2].
  pose proof (parse_hex4_on_line P p2) as H3.
  destruct (Parser.parse_hex4 P p2) as [[code2 p3]|e].
  - cbn [outcome_on_line] in H3. destruct H3 as [Ha3 Hl3].
    destruct (_ || _);
      [eexists; unfold Parser.raise_bad_utf; now rewrite Hl3, Hl2, Hl1|].
    cbn [outcome_on_line]. split; [|congruence].
    eapply advances_trans; [exact Ha1|]. eapply advances_trans; eassumption.
  - destruct H3 as (msg & ->). exists msg. now rewrite Hl2, Hl1.
Qed.

Lemma parse_str_loop_on_line P fuel : forall out p r,
  Parser.parse_str_loop P fuel out p = Some r -> outcome_on_line p r.
Proof.
  induction fuel as [|fuel IH]; intros out p r; cbn [Parser.parse_str_loop];
    [discriminate|].
  set (p1 := set_next (advance 1 (m_next p)) p).
  set (p2 := set_next (advance 1 (m_next p1)) p1).
  assert (Ha1 : advances p p1) by apply advances_step.
  assert (Ha2 : advances p p2).
  { eapply advances_trans; [exact Ha1|apply advances_step]. }
  assert (Hrec : forall out' q, advances p q -> m_line_count q = m_line_count p ->
            Parser.parse_str_loop P fuel out' q = Some r -> outcome_on_line p r).
  { intros out' q Ha Hl H. apply IH in H. eapply outcome_on_line_mono; eassumption. }
  assert (Hthrow : forall msg, @pthrow (string * Parser) msg p1 = Some r ->
                               outcome_on_line p r).
  { intros msg [= <-]. exists msg. reflexivity. }
  repeat match goal with
         | |- (if ?b then _ else _) = Some _ -> _ => destruct b
         end;
    try (apply Hthrow); try (apply Hrec; [assumption|reflexivity]).
  - intros [= <-]. split; [exact Ha1|reflexivity].
  - pose proof (parse_encoding_on_line P p2) as He.
    destruct (Parser.parse_encoding P p2) as [[bytes p3]|e].
    + destruct He as [Ha3 Hl3]. apply Hrec; [|exact Hl3].
      eapply advances_trans; eassumption.
    + intros [= <-]. exact He.
Qed.

Lemma parse_str_on_line P p r :
  Parser.parse_str P p = Some r -> outcome_on_line p r.
Proof.
  unfold Parser.parse_str.
  destruct (Parser.skip_text _ p) as [[|] p1] eqn:E.
  - apply skip_text_advances in E. destruct E as [Ha Hl].
    destruct (Parser.parse_str_loop P _ [] p1) as [[[str p2]|e]|] eqn:E2;
      cbn [pbind]; [| |discriminate]; intros [= <-];
      apply parse_str_loop_on_line in E2;
      apply (outcome_on_line_mono p p1 _ Ha Hl) in E2; exact E2.
  - intros [= <-]. split; [apply advances_refl|reflexivity].
Qed.

Lemma parse_val_num_on_line P parent p :
  outcome_on_line p (Parser.parse_val_num P parent p).
Proof.
  unfold Parser.parse_val_num.
  assert (Hok : forall (v : option ValImpl) n,
            outcome_on_line p (Ok (v, set_next (advance n (m_next p)) p))).
  { intros v n. split; [apply advances_step|reflexivity]. }
  cbv zeta.
  destruct (strtod P (m_next p)) as [[x end_] erange].
  destruct (Ascii.eqb "-" (deref_char (m_next p)));
    destruct (Parser.int_loop P _ _ 0 0) as [[? ?]|].
  all: repeat first
         [ progress cbv iota beta
         | match goal with
           | |- context [if ?b then _ else _] => destruct b
           end ].
  all: first [ apply Hok | eexists; reflexivity
             | split; [apply advances_refl|reflexivity] ].
Qed.

Lemma parse_val_null_on_line parent p v p' :
  Parser.parse_val_null parent p = (v, p') ->
  advances p p' /\ m_line_count p' = m_line_count p.
Proof.
  unfold Parser.parse_val_null.
  destruct (Parser.skip_text "null" p) as [[|] p1] eqn:E; intros [= <- <-];
    now apply skip_text_advances in E.
Qed.

Lemma parse_val_bool_on_line parent p v p' :
  Parser.parse_val_bool parent p = (v, p') ->
  advances p p' /\ m_line_count p' = m_line_count p.
Proof.
  unfold Parser.parse_val_bool.
  destruct (Parser.skip_text "false" p) as [[|] p1] eqn:E.
  - intros [= <- <-]. now apply skip_text_advances in E.
  - destruct (skip_text_remaining _ _ _ _ E) as (_ & _ & Hp).
    specialize (Hp eq_refl). subst p1.
    destruct (Parser.skip_text "true" p) as [[|] p2] eqn:E2; intros [= <- <-];
      now apply skip_text_advances in E2.
Qed.

Lemma parse_val_str_on_line P parent p r :
  Parser.parse_val_str P parent p = Some r -> outcome_on_line p r.
Proof.
  unfold Parser.parse_val_str.
  destruct (Parser.parse_str P p) as [[[str p1]|e]|] eqn:E; cbn [pbind];
    [| |discriminate]; apply parse_str_on_line in E.
  - cbn [fst snd]. destruct str; intros [= <-]; exact E.
  - intros [= <-]. exact E.
Qed.

(** A parser of values that moves forwards and throws syntax errors only. *)
Section ContainerOutcomes.

Variable P : Platform.
Variable parse_val : option ValImpl -> Parser -> option (res (ValImpl * Parser)).
Hypothesis parse_val_outcome :
  forall parent q r, parse_val parent q = Some r -> outcome_after q r.

Lemma parse_val_arr_loop_outcome fuel : forall arr p r,
  Parser.parse_val_arr_loop parse_val fuel arr p = Some r -> outcome_after p r.
Proof.
  induction fuel as [|fuel IH]; intros arr p r; cbn [Parser.parse_val_arr_loop];
    [discriminate|].
  destruct (Parser.ws p) as [r1|] eqn:E1; [|discriminate].
  destruct (ws_advances p r1 E1) as (p1 & -> & Ha1). cbn [pbind].
  destruct (Parser.skip_text "]" p1) as [[|] p2] eqn:E2.
  { intros [= <-]. apply skip_text_advances in E2. cbn.
    eapply advances_trans; [exact Ha1|apply E2]. }
  apply skip_text_advances in E2. destruct E2 as [Ha2 _].
  destruct (parse_val (Some arr) p2) as [[[v p3]|e]|] eqn:E3; cbn [pbind];
    [| |discriminate]; apply parse_val_outcome in E3.
  2: { intros [= <-]. eapply outcome_after_mono; [|exact E3].
       eapply advances_trans; eassumption. }
  cbn [outcome_after] in E3. cbn [fst snd].
  destruct (Parser.ws p3) as [r4|] eqn:E4; [|discriminate].
  destruct (ws_advances p3 r4 E4) as (p4 & -> & Ha4). cbn [pbind].
  assert (Ha : advances p p4).
  { repeat (eapply advances_trans; [eassumption|]). apply advances_refl. }
  destruct (Parser.skip_text "]" p4) as [[|] p5] eqn:E5.
  { intros [= <-]. apply skip_text_advances in E5. cbn.
    eapply advances_trans; [exact Ha|apply E5]. }
  apply skip_text_advances in E5. destruct E5 as [Ha5 _].
  destruct (Parser.skip_text "," p5) as [[|] p6] eqn:E6.
  - apply skip_text_advances in E6. destruct E6 as [Ha6 _].
    intros H. apply IH in H. eapply outcome_after_mono; [|exact H].
    repeat (eapply advances_trans; [eassumption|]). apply advances_refl.
  - apply skip_text_advances in E6. destruct E6 as [Ha6 _].
    intros [= <-]. eapply syntax_error_after_mono; [|apply syntax_error_here].
    repeat (eapply advances_trans; [eassumption|]). apply advances_refl.
Qed.

Lemma parse_val_arr_outcome parent p r :
  Parser.parse_val_arr parse_val parent p = Some r -> outcome_after p r.
Proof.
  unfold Parser.parse_val_arr.
  destruct (Parser.skip_text "[" p) as [[|] p1] eqn:E; apply skip_text_advances in E;
    destruct E as [Ha _].
  - destruct (Parser.parse_val_arr_loop _ _ _ p1) as [[[a p2]|e]|] eqn:E2; cbn [pbind];
      [| |discriminate]; intros [= <-]; apply parse_val_arr_loop_outcome in E2;
      apply (outcome_after_mono p p1 _ Ha) in E2; exact E2.
  - intros [= <-]. exact Ha.
Qed.

Lemma parse_val_obj_loop_outcome fuel : forall obj p r,
  Parser.parse_val_obj_loop P parse_val fuel obj p = Some r -> outcome_after p r.
Proof.
  induction fuel as [|fuel IH]; intros obj p r; cbn [Parser.parse_val_obj_loop];
    [discriminate|].
  destruct (Parser.ws p) as [r1|] eqn:E1; [|discriminate].
  destruct (ws_advances p r1 E1) as (p1 & -> & Ha1). cbn [pbind].
  destruct (Parser.skip_text "}" p1) as [[|] p2] eqn:E2.
  { intros [= <-]. apply skip_text_advances in E2. cbn.
    eapply advances_trans; [exact Ha1|apply E2]. }
  apply skip_text_advances in E2. destruct E2 as [Ha2 _].
  destruct (Parser.parse_str P p2) as [[[name p3]|e]|] eqn:E3; cbn [pbind];
    [| |discriminate]; apply parse_str_on_line, outcome_on_line_after in E3.
  2: { intros [= <-]. eapply outcome_after_mono; [|exact E3].
       eapply advances_trans; eassumption. }
  cbn [outcome_after] in E3. cbn [fst snd].
  assert (Ha3 : advances p p3).
  { repeat (eapply advances_trans; [eassumption|]). apply advances_refl. }
  destruct name as [name|].
  2: { intros [= <-]. eapply syntax_error_after_mono; [exact Ha3|apply syntax_error_here]. }
  destruct (Parser.ws p3) as [r4|] eqn:E4; [|discriminate].
  destruct (ws_advances p3 r4 E4) as (p4 & -> & Ha4). cbn [pbind].
  destruct (Parser.skip_text ":" p4) as [[|] p5] eqn:E5;
    apply skip_text_advances in E5; destruct E5 as [Ha5 _].
  2: { intros [= <-]. eapply syntax_error_after_mono; [|apply syntax_error_here].
       repeat (eapply advances_trans; [eassumption|]). apply advances_refl. }
  destruct (Parser.ws p5) as [r6|] eqn:E6; [|discriminate].
  destruct (ws_advances p5 r6 E6) as (p6 & -> & Ha6). cbn [pbind].
  assert (Ha' : advances p p6).
  { repeat (eapply advances_trans; [eassumption|]). apply advances_refl. }
  destruct (parse_val (Some obj) p6) as [[[v p7]|e]|] eqn:E7; cbn [pbind];
    [| |discriminate]; apply parse_val_outcome in E7.
  2: { intros [= <-]. eapply outcome_after_mono; eassumption. }
  cbn [outcome_after] in E7. cbn [fst snd].
  assert (Ha7 : advances p p7) by (eapply advances_trans; eassumption).
  destruct (Parser.add_member name _ _) as [[|] obj'].
  2: { intros [= <-]. eapply syntax_error_after_mono; [exact Ha7|apply syntax_error_here]. }
  destruct (Parser.ws p7) as [r8|] eqn:E8; [|discriminate].
  destruct (ws_advances p7 r8 E8) as (p8 & -> & Ha8). cbn [pbind].
  assert (Ha8' : advances p p8) by (eapply advances_trans; eassumption).
  destruct (Parser.skip_text "}" p8) as [[|] p9] eqn:E9;
    apply skip_text_advances in E9; destruct E9 as [Ha9 _].
  { intros [= <-]. cbn. eapply advances_trans; eassumption. }
  destruct (Parser.skip_text "," p9) as [[|] p10] eqn:E10;
    apply skip_text_advances in E10; destruct E10 as [Ha10 _].
  - intros H. apply IH in H. eapply outcome_after_mono; [|exact H].
    repeat (eapply advances_trans; [eassumption|]). apply advances_refl.
  - intros [= <-]. eapply syntax_error_after_mono; [|apply syntax_error_here].
    repeat (eapply advances_trans; [eassumption|]). apply advances_refl.
Qed.

Lemma parse_val_obj_outcome parent p r :
  Parser.parse_val_obj P parse_val parent p = Some r -> outcome_after p r.
Proof.
  unfold Parser.parse_val_obj.
  destruct (Parser.skip_text "{" p) as [[|] p1] eqn:E; apply skip_text_advances in E;
    destruct E as [Ha _].
  - destruct (Parser.parse_val_obj_loop _ _ _ _ p1) as [[[a p2]|e]|] eqn:E2; cbn [pbind];
      [| |discriminate]; intros [= <-]; apply parse_val_obj_loop_outcome in E2;
      apply (outcome_after_mono p p1 _ Ha) in E2; exact E2.
  - intros [= <-]. exact Ha.
Qed.

End ContainerOutcomes.

Lemma parse_val_outcome P depth : forall parent p r,
  Parser.parse_val P depth parent p = Some r -> outcome_after p r.
Proof.
  induction depth as [|depth IH]; intros parent p r; cbn [Parser.parse_val];
    [discriminate|].
  destruct (Parser.ws p) as [r1|] eqn:E1; [|discriminate].
  destruct (ws_advances p r1 E1) as (p1 & -> & Ha1). cbn [pbind].
  intros H. apply (outcome_after_mono p p1 r Ha1). revert H.
  destruct (Parser.parse_val_null parent p1) as [[v|] p2] eqn:E2.
  { intros [= <-]. now apply parse_val_null_on_line in E2. }
  clear E2 p2.
  destruct (Parser.parse_val_bool parent p1) as [[v|] p2] eqn:E2.
  { intros [= <-]. now apply parse_val_bool_on_line in E2. }
  clear E2 p2.
  pose proof (parse_val_num_on_line P parent p1) as E2.
  destruct (Parser.parse_val_num P parent p1) as [[[v|] p2]|e].
  1: { intros [= <-]. apply (outcome_on_line_after p1 (Ok (v, p2))). exact E2. }
  2: { intros [= <-]. apply (@outcome_on_line_after ValImpl p1 (Throw e)). exact E2. }
  clear E2 p2.
  destruct (Parser.parse_val_str P parent p1) as [[[[v|] p2]|e]|] eqn:E2; cbn [pbind];
    [| | |discriminate]; apply parse_val_str_on_line in E2.
  1: { intros [= <-]. apply (outcome_on_line_after p1 (Ok (v, p2))). exact E2. }
  2: { intros [= <-]. apply (@outcome_on_line_after ValImpl p1 (Throw e)). exact E2. }
  clear E2 p2.
  destruct (Parser.parse_val_arr _ parent p1) as [[[[v|] p2]|e]|] eqn:E2; cbn [pbind];
    [| | |discriminate]; apply (parse_val_arr_outcome _ (IH)) in E2.
  1: { intros [= <-]. exact E2. }
  2: { intros [= <-]. exact E2. }
  clear E2 p2.
  destruct (Parser.parse_val_obj _ _ parent p1) as [[[[v|] p2]|e]|] eqn:E2; cbn [pbind];
    [| | |discriminate]; apply (parse_val_obj_outcome _ _ (IH)) in E2.
  1: { intros [= <-]. exact E2. }
  2: { intros [= <-]. exact E2. }
  intros [= <-]. apply syntax_error_here.
Qed.

Lemma length_c_str s : (String.length (c_str s) <= String.length s)%nat.
Proof.
  induction s as [|c s IH]; cbn [c_str String.length]; [lia|].
  destruct (Ascii.eqb c NUL); cbn [String.length]; lia.
Qed.



(** ** The trees the parser builds *)

Lemma to_int64_range x : INT64_MIN <= to_int64 x <= INT64_MAX.
Proof.
  unfold to_int64, wrap_signed, INT64_MIN, INT64_MAX.
  pose proof (Z.mod_pos_bound x (2 ^ 64) ltac:(lia)) as H.
  change (64 - 1) with 63.
  destruct (Z.ltb_spec (x mod 2 ^ 64) (2 ^ 63)); lia.
Qed.

Lemma int_loop_range P b : forall s n count n' count',
  INT64_MIN <= n <= INT64_MAX ->
  Parser.int_loop P b s n count = Some (n', count') ->
  INT64_MIN <= n' <= INT64_MAX.
Proof.
  induction s as [|c s IH]; intros n count n' count' Hn; cbn [Parser.int_loop].
  - intros [= <- <-]. exact Hn.
  - destruct (_ || _); [intros [= <- <-]; exact Hn|].
    destruct (_ || _); [discriminate|].
    apply IH, to_int64_range.
Qed.

Lemma c_str_idem s : c_str (c_str s) = c_str s.
Proof.
  induction s as [|c s IH]; cbn [c_str]; [reflexivity|].
  destruct (Ascii.eqb c NUL) eqn:E; cbn [c_str]; [reflexivity|].
  now rewrite E, IH.
Qed.

Lemma wf_arr_inv v :
  well_formed v -> Val.get_type v = vtArr ->
  exists values, m_data v = d_list values /\
    forall i c, values !! i = Some c ->
      well_formed c /\ m_idx c = Z.of_nat i /\ m_name c = EmptyString /\
      m_line_no v <= m_line_no c.
Proof.
  intros Hwf Ht.
  destruct Hwf as [v E|v b E|v n E|v x E|v s E|v values E Hd Hc Hi|v values m E];
    rewrite Ht in E; try (vm_compute in E; discriminate E).
  exists values. split; [exact Hd|]. intros i c Hl.
  split; [exact (Hc i c Hl)|exact (Hi i c Hl)].
Qed.

Lemma wf_obj_inv v :
  well_formed v -> Val.get_type v = vtObj ->
  exists values m, m_data v = d_dict values m /\
    (forall i c, values !! i = Some c ->
       well_formed c /\ m_idx c = Z.of_nat i /\ m !! m_name c = Some (Z.of_nat i) /\
       m_line_no v <= m_line_no c) /\
    (forall name idx, m !! name = Some idx ->
       exists i c, idx = Z.of_nat i /\ values !! i = Some c /\ m_name c = name).
Proof.
  intros Hwf Ht.
  destruct Hwf as [v E|v b E|v n E|v x E|v s E|v values E|v values m E Hd Hc Hi Hm];
    rewrite Ht in E; try (vm_compute in E; discriminate E).
  exists values, m. split; [exact Hd|]. split; [|exact Hm]. intros i c Hl.
  split; [exact (Hc i c Hl)|exact (Hi i c Hl)].
Qed.

Lemma wf_container_data v :
  well_formed v -> is_container v = true ->
  (exists values, m_data v = d_list values) \/
  (exists values m, m_data v = d_dict values m).
Proof.
  intros Hwf Hc. unfold is_container in Hc.
  destruct Hwf as [v E|v b E|v n E|v x E|v s E|v values E Hd|v values m E Hd];
    rewrite E in Hc; try (vm_compute in Hc; discriminate Hc); eauto.
Qed.

Lemma list_values_push_back v arr :
  (exists values, m_data arr = d_list values) \/
  (exists values m, m_data arr = d_dict values m) ->
  list_values (Parser.push_back v arr) = (list_values arr ++ [v])%list.
Proof.
  unfold Parser.push_back, list_values.
  intros [(values & ->)|(values & m & ->)]; reflexivity.
Qed.

Lemma list_values_push_back_lookup v arr i c :
  list_values (Parser.push_back v arr) !! i = Some c ->
  list_values arr !! i = Some c \/ (i = length (list_values arr) /\ c = v).
Proof.
  unfold Parser.push_back, list_values. cbn [m_data with_data].
  destruct (m_data arr); try (intros H; left; exact H);
    intros H; apply lookup_app_Some in H;
    (destruct H as [H|[Hle H]]; [left; exact H|right]);
    apply list_lookup_singleton_Some in H; destruct H as [Hi <-];
    (split; [lia|reflexivity]).
Qed.

(** Nothing is marked in a value without elements whose own bit is clear. *)
Lemma unused_leaf v :
  list_values v = [] -> ValImpl.used v = false -> unused v.
Proof.
  intros Hl Hu [|i r] w; cbn [deref].
  - intros [= <-]. exact Hu.
  - rewrite Hl. discriminate.
Qed.

Lemma unused_root v : unused v -> ValImpl.used v = false.
Proof. intros H. apply (H [] v). reflexivity. Qed.

Lemma unused_element v i c : unused v -> list_values v !! i = Some c -> unused c.
Proof.
  intros H Hl r w Hd. apply (H (i :: r) w). cbn [deref]. now rewrite Hl.
Qed.

Lemma unused_intro v :
  ValImpl.used v = false ->
  (forall i c, list_values v !! i = Some c -> unused c) -> unused v.
Proof.
  intros Hu Hc [|i r] w; cbn [deref].
  - intros [= <-]. exact Hu.
  - destruct (list_values v !! i) as [c|] eqn:E; [|discriminate].
    intros Hd. exact (Hc i c E r w Hd).
Qed.

Lemma unused_push_back v arr : unused arr -> unused v -> unused (Parser.push_back v arr).
Proof.
  intros Ha Hv. apply unused_intro.
  - exact (unused_root arr Ha).
  - intros i c Hl. apply list_values_push_back_lookup in Hl.
    destruct Hl as [Hl|[_ ->]]; [|exact Hv]. exact (unused_element arr i c Ha Hl).
Qed.

Lemma unused_set_name name v : unused v -> unused (Parser.set_name name v).
Proof.
  intros H. apply unused_intro.
  - exact (unused_root v H).
  - intros i c Hl. exact (unused_element v i c H Hl).
Qed.

Lemma wf_set_name name v : well_formed v -> well_formed (Parser.set_name name v).
Proof.
  intros Hwf.
  destruct Hwf as [v E Hd|v b E Hd|v n E Hd Hn|v x E Hd|v s E Hd Hs
                  |v values E Hd Hc Hi|v values m E Hd Hc Hi Hm].
  - now apply wf_null.
  - now apply (wf_bool _ b).
  - now apply (wf_int _ n).
  - now apply (wf_f64 _ x).
  - now apply (wf_str _ s).
  - now apply (wf_arr _ values).
  - now apply (wf_obj _ values m).
Qed.

Lemma wf_push_back_arr arr v :
  well_formed arr -> Val.get_type arr = vtArr ->
  well_formed v -> m_idx v = Z.of_nat (length (list_values arr)) ->
  m_name v = EmptyString -> m_line_no arr <= m_line_no v ->
  well_formed (Parser.push_back v arr).
Proof.
  intros Hwf Ht Hv Hidx Hname Hline.
  destruct (wf_arr_inv arr Hwf Ht) as (values & Hd & Hc).
  assert (Hlv : list_values arr = values) by (unfold list_values; now rewrite Hd).
  assert (Hpb : Parser.push_back v arr = with_data (d_list (values ++ [v])%list) arr).
  { unfold Parser.push_back. now rewrite Hd. }
  rewrite Hpb. apply (wf_arr _ (values ++ [v])%list); [exact Ht|reflexivity|..];
    intros i c Hl; apply lookup_app_Some in Hl;
    destruct Hl as [Hl|[Hle Hl]];
    try (apply list_lookup_singleton_Some in Hl; destruct Hl as [Hi <-]).
  - apply (Hc i c Hl).
  - exact Hv.
  - destruct (Hc i c Hl) as (_ & ? & ? & ?). cbn [m_line_no with_data]. auto.
  - cbn [m_line_no with_data]. rewrite Hidx, Hlv. repeat split; [f_equal; lia|auto..].
Qed.

Lemma wf_add_member obj v name obj' :
  well_formed obj -> Val.get_type obj = vtObj ->
  well_formed v -> m_idx v = Z.of_nat (length (list_values obj)) ->
  m_line_no obj <= m_line_no v ->
  Parser.add_member name (Z.of_nat (length (list_values obj))) (Parser.push_back v obj)
    = (true, obj') ->
  well_formed obj' /\ Val.get_type obj' = vtObj /\
  list_values obj' = (list_values obj ++ [Parser.set_name name v])%list /\
  m_name obj' = m_name obj /\ m_idx obj' = m_idx obj /\ m_line_no obj' = m_line_no obj /\
  ValImpl.used obj' = ValImpl.used obj.
Proof.
  intros Hwf Ht Hv Hidx Hline.
  destruct (wf_obj_inv obj Hwf Ht) as (values & m & Hd & Hc & Hm).
  assert (Hlv : list_values obj = values) by (unfold list_values; now rewrite Hd).
  rewrite Hlv in *.
  assert (Hpb : Parser.push_back v obj = with_data (d_dict (values ++ [v])%list m) obj).
  { unfold Parser.push_back. now rewrite Hd. }
  rewrite Hpb. unfold Parser.add_member, dict_map. cbn [m_data with_data].
  destruct (m !! name) as [?|] eqn:Hfresh; [discriminate|].
  intros [= <-]. rewrite Nat2Z.id.
  assert (Halter : alter (Parser.set_name name) (length values) (values ++ [v])%list
                   = (values ++ [Parser.set_name name v])%list).
  { replace (length values) with (length values + 0)%nat at 1 by lia.
    rewrite (alter_app_r (Parser.set_name name) values [v] 0). reflexivity. }
  rewrite Halter.
  split; [|repeat split; assumption || reflexivity].
  apply (wf_obj _ (values ++ [Parser.set_name name v])%list
           (<[name := Z.of_nat (length values)]> m)); [exact Ht|reflexivity|..].
  - intros i c Hl. apply lookup_app_Some in Hl. destruct Hl as [Hl|[Hle Hl]].
    + apply (Hc i c Hl).
    + apply list_lookup_singleton_Some in Hl. destruct Hl as [Hi <-].
      now apply wf_set_name.
  - intros i c Hl. apply lookup_app_Some in Hl. destruct Hl as [Hl|[Hle Hl]].
    + destruct (Hc i c Hl) as (_ & Hi & Hmi & Hln). cbn [m_line_no with_data].
      repeat split; [exact Hi| |exact Hln].
      rewrite lookup_insert_ne; [exact Hmi|]. intros Heq. rewrite <- Heq in Hmi. congruence.
    + apply list_lookup_singleton_Some in Hl. destruct Hl as [Hi <-].
      cbn [m_line_no m_idx m_name with_data Parser.set_name].
      assert (i = length values) as -> by lia.
      repeat split; [exact Hidx| |exact Hline].
      apply lookup_insert_eq.
  - intros name' idx Hl. destruct (decide (name = name')) as [<-|Hne].
    + rewrite lookup_insert_eq in Hl. injection Hl as <-.
      exists (length values), (Parser.set_name name v). repeat split.
      rewrite lookup_app_r by lia. now rewrite Nat.sub_diag.
    + rewrite lookup_insert_ne in Hl by exact Hne.
      destruct (Hm name' idx Hl) as (i & c & -> & Hi & Hn).
      exists i, c. repeat split; [|exact Hn].
      apply lookup_app_l_Some. exact Hi.
Qed.

Lemma add_val_fields parent q :
  m_data (Parser.add_val parent q) = d_zero /\
  m_type (Parser.add_val parent q) = vtNull /\
  m_name (Parser.add_val parent q) = EmptyString /\
  m_line_no (Parser.add_val parent q) = m_line_count q.
Proof. destruct parent; repeat split. Qed.

Lemma m_idx_add_val parent q q1 :
  room_for_element parent q ->
  m_idx (Parser.add_val parent q1) =
    match parent with
    | Some arr => Z.of_nat (length (list_values arr))
    | None => -1
    end.
Proof.
  destruct parent as [arr|]; [|reflexivity].
  intros (Hwf & Hc & Hlen). cbn [Parser.add_val Parser.add_element m_idx].
  unfold ArrImpl.get_len.
  rewrite list_values_push_back by (now apply wf_container_data).
  rewrite length_app. cbn [length].
  rewrite to_int32_id by (unfold INT32_MIN, INT32_MAX in *; lia). lia.
Qed.

(** The scalar values [parse_val] builds. *)
Lemma parsed_under_scalar parent q q1 v :
  room_for_element parent q -> m_line_count q <= m_line_count q1 ->
  v = Parser.add_val parent q1 \/
  (exists b, v = ValImpl.init_bool b (Parser.add_val parent q1)) \/
  (exists n, INT64_MIN <= n <= INT64_MAX /\
             v = ValImpl.init_int n (Parser.add_val parent q1)) \/
  (exists x, v = ValImpl.init_f64 x (Parser.add_val parent q1)) \/
  (exists s, c_str s = s /\ v = ValImpl.init_str s (Parser.add_val parent q1)) ->
  parsed_under parent q v.
Proof.
  intros Hroom Hline Hv.
  pose proof (m_idx_add_val parent q q1 Hroom) as Hidx.
  destruct (add_val_fields parent q1) as (Hd & Ht & Hn & Hl).
  assert (Hshape : well_formed v /\ list_values v = [] /\ ValImpl.used v = false /\
                   m_name v = m_name (Parser.add_val parent q1) /\
                   m_idx v = m_idx (Parser.add_val parent q1) /\
                   m_line_no v = m_line_no (Parser.add_val parent q1)).
  { destruct Hv as [->|[(b & ->)|[(n & Hn' & ->)|[(x & ->)|(s & Hs & ->)]]]].
    - repeat split; [apply wf_null| |]; unfold list_values, ValImpl.used, Val.get_type;
        rewrite ?Hd, ?Ht; reflexivity.
    - repeat split. now apply (wf_bool _ b).
    - repeat split. now apply (wf_int _ n).
    - repeat split. now apply (wf_f64 _ x).
    - repeat split. now apply (wf_str _ s). }
  destruct Hshape as (Hwf & Hlv & Hu & Hname & Hi & Hln).
  repeat split; [exact Hwf|now apply unused_leaf|congruence|congruence|].
  rewrite Hln, Hl. exact Hline.
Qed.

Lemma parse_val_num_value P parent p v p' :
  Parser.parse_val_num P parent p = Ok (Some v, p') ->
  (exists n, INT64_MIN <= n <= INT64_MAX /\
             v = ValImpl.init_int n (Parser.add_val parent p)) \/
  (exists x, v = ValImpl.init_f64 x (Parser.add_val parent p)).
Proof.
  unfold Parser.parse_val_num. cbv zeta.
  destruct (strtod P (m_next p)) as [[x end_] erange].
  destruct (Ascii.eqb "-" (deref_char (m_next p)));
    destruct (Parser.int_loop P _ _ 0 0) as [[n count]|] eqn:Hloop;
    try (apply int_loop_range in Hloop; [|unfold INT64_MIN, INT64_MAX; lia]).
  all: repeat first
         [ progress cbv iota beta
         | match goal with
           | |- context [if ?b then _ else _] => destruct b
           end ].
  all: intros [= <- <-] || discriminate.
  all: try (right; eexists; reflexivity).
  all: left; eexists; (split; [|reflexivity]);
         cbn [negb]; first [exact Hloop | apply to_int64_range].
Qed.

Lemma parse_str_loop_c_str P fuel : forall out p s p',
  Parser.parse_str_loop P fuel out p = Some (Ok (s, p')) -> c_str s = s.
Proof.
  induction fuel as [|fuel IH]; intros out p s p'; cbn [Parser.parse_str_loop];
    [discriminate|].
  repeat match goal with
         | |- (if ?b then _ else _) = Some _ -> _ => destruct b
         end;
    try discriminate; try apply IH.
  - intros [= <- <-]. apply c_str_idem.
  - destruct (Parser.parse_encoding P _) as [[bytes p3]|e]; [apply IH|discriminate].
Qed.

Lemma parse_str_c_str P p s p' :
  Parser.parse_str P p = Some (Ok (Some s, p')) -> c_str s = s.
Proof.
  unfold Parser.parse_str.
  destruct (Parser.skip_text _ p) as [[|] p1]; [|discriminate].
  destruct (Parser.parse_str_loop P _ [] p1) as [[[str p2]|e]|] eqn:E; cbn [pbind];
    try discriminate.
  intros [= <- <-]. now apply parse_str_loop_c_str in E.
Qed.

Lemma skip_text_consumes c p p' :
  Parser.skip_text (String c EmptyString) p = (true, p') ->
  (remaining p' + 1 = remaining p)%nat.
Proof.
  intros H. destruct (skip_text_remaining _ _ _ _ H) as (_ & Hc & _).
  specialize (Hc eq_refl). cbn [String.length] in Hc. exact Hc.
Qed.

Lemma skip_text_stays str p p' :
  Parser.skip_text str p = (false, p') -> p' = p.
Proof.
  intros H. destruct (skip_text_remaining _ _ _ _ H) as (_ & _ & Hc). now apply Hc.
Qed.

Lemma is_container_arr v : Val.get_type v = vtArr -> is_container v = true.
Proof. unfold is_container. now intros ->. Qed.

Lemma is_container_obj v : Val.get_type v = vtObj -> is_container v = true.
Proof. unfold is_container. now intros ->. Qed.

(** A parser of values that moves forwards and builds what [parsed_under]
    describes. *)
Section ContainerTrees.

Variable P : Platform.
Variable parse_val : option ValImpl -> Parser -> option (res (ValImpl * Parser)).
Hypothesis parse_val_outcome :
  forall parent q r, parse_val parent q = Some r -> outcome_after q r.
Hypothesis parse_val_parsed :
  forall parent q v q', room_for_element parent q ->
    parse_val parent q = Some (Ok (v, q')) -> parsed_under parent q v.

Lemma parse_val_arr_loop_parsed fuel : forall arr p a p',
  well_formed arr -> unused arr -> Val.get_type arr = vtArr ->
  Z.of_nat (length (list_values arr)) + Z.of_nat (remaining p) < INT32_MAX ->
  m_line_no arr <= m_line_count p ->
  Parser.parse_val_arr_loop parse_val fuel arr p = Some (Ok (a, p')) ->
  well_formed a /\ unused a /\ m_name a = m_name arr /\ m_idx a = m_idx arr /\
  m_line_no a = m_line_no arr.
Proof.
  induction fuel as [|fuel IH]; intros arr p a p' Hwf Hun Ht Hlen Hline;
    cbn [Parser.parse_val_arr_loop]; [discriminate|].
  destruct (Parser.ws p) as [r1|] eqn:E1; [|discriminate].
  destruct (ws_advances p r1 E1) as (p1 & -> & Ha1). cbn [pbind].
  destruct (Parser.skip_text "]" p1) as [[|] p2] eqn:E2.
  { intros [= <- <-]. auto. }
  apply skip_text_stays in E2. subst p2.
  destruct (parse_val (Some arr) p1) as [[[v p3]|e]|] eqn:E3; cbn [pbind];
    try discriminate.
  pose proof (parse_val_outcome _ _ _ E3) as Ha3. cbn [outcome_after] in Ha3.
  apply parse_val_parsed in E3.
  2: { split; [exact Hwf|]. split; [now apply is_container_arr|].
       unfold advances in Ha1. lia. }
  destruct E3 as (Hwv & Huv & Hnv & Hiv & Hlv). cbn [fst snd].
  destruct (Parser.ws p3) as [r4|] eqn:E4; [|discriminate].
  destruct (ws_advances p3 r4 E4) as (p4 & -> & Ha4). cbn [pbind].
  assert (Hwf' : well_formed (Parser.push_back v arr)).
  { apply wf_push_back_arr; auto. unfold advances in Ha1. lia. }
  assert (Hun' : unused (Parser.push_back v arr)) by now apply unused_push_back.
  destruct (Parser.skip_text "]" p4) as [[|] p5] eqn:E5.
  { intros [= <- <-]. auto. }
  apply skip_text_stays in E5. subst p5.
  destruct (Parser.skip_text "," p4) as [[|] p6] eqn:E6; [|discriminate].
  pose proof (skip_text_consumes _ _ _ E6) as Hc6.
  apply skip_text_advances in E6. destruct E6 as [Ha6 Hl6].
  intros H. apply IH in H; auto.
  - rewrite list_values_push_back
      by (apply wf_container_data; [exact Hwf|now apply is_container_arr]).
    rewrite length_app. cbn [length]. unfold advances in *. lia.
  - cbn [Parser.push_back m_line_no with_data]. unfold advances in *. lia.
Qed.

Lemma parse_val_arr_parsed parent p v p' :
  room_for_element parent p ->
  Parser.parse_val_arr parse_val parent p = Some (Ok (Some v, p')) ->
  parsed_under parent p v.
Proof.
  intros Hroom. unfold Parser.parse_val_arr.
  destruct (Parser.skip_text "[" p) as [[|] p1] eqn:E; [|discriminate].
  pose proof (skip_text_consumes _ _ _ E) as Hc.
  apply skip_text_advances in E. destruct E as [Ha Hl].
  destruct (Parser.parse_val_arr_loop _ _ _ p1) as [[[a p2]|e]|] eqn:E2; cbn [pbind];
    try discriminate.
  intros [= <- <-]. cbn [fst].
  destruct (add_val_fields parent p1) as (Hd & Ht & Hn & Hln).
  apply parse_val_arr_loop_parsed in E2.
  - destruct E2 as (Hwf & Hun & Hname & Hidx & Hline).
    repeat split; [exact Hwf|exact Hun|..].
    + rewrite Hname. exact Hn.
    + rewrite Hidx. apply (m_idx_add_val parent p p1 Hroom).
    + rewrite Hline. cbn [ValImpl.init_arr ValImpl.set_data m_line_no].
      rewrite Hln. lia.
  - apply (wf_arr _ []); [reflexivity|reflexivity|..]; intros i c Hi;
      rewrite lookup_nil in Hi; discriminate.
  - apply unused_leaf; reflexivity.
  - reflexivity.
  - cbn [list_values ValImpl.init_arr ValImpl.set_data m_data length].
    destruct parent as [arr|]; cbn [room_for_element] in Hroom;
      unfold INT32_MAX in *; lia.
  - cbn [ValImpl.init_arr ValImpl.set_data m_line_no]. rewrite Hln. lia.
Qed.

Lemma parse_val_obj_loop_parsed fuel : forall obj p a p',
  well_formed obj -> unused obj -> Val.get_type obj = vtObj ->
  Z.of_nat (length (list_values obj)) + Z.of_nat (remaining p) < INT32_MAX ->
  m_line_no obj <= m_line_count p ->
  Parser.parse_val_obj_loop P parse_val fuel obj p = Some (Ok (a, p')) ->
  well_formed a /\ unused a /\ m_name a = m_name obj /\ m_idx a = m_idx obj /\
  m_line_no a = m_line_no obj.
Proof.
  induction fuel as [|fuel IH]; intros obj p a p' Hwf Hun Ht Hlen Hline;
    cbn [Parser.parse_val_obj_loop]; [discriminate|].
  destruct (Parser.ws p) as [r1|] eqn:E1; [|discriminate].
  destruct (ws_advances p r1 E1) as (p1 & -> & Ha1). cbn [pbind].
  destruct (Parser.skip_text "}" p1) as [[|] p2] eqn:E2.
  { intros [= <- <-]. auto. }
  apply skip_text_stays in E2. subst p2.
  destruct (Parser.parse_str P p1) as [[[name p3]|e]|] eqn:E3; cbn [pbind];
    try discriminate.
  apply parse_str_on_line in E3. destruct E3 as [Ha3 _]. cbn [fst snd].
  destruct name as [name|]; [|discriminate].
  destruct (Parser.ws p3) as [r4|] eqn:E4; [|discriminate].
  destruct (ws_advances p3 r4 E4) as (p4 & -> & Ha4). cbn [pbind].
  destruct (Parser.skip_text ":" p4) as [[|] p5] eqn:E5; [|discriminate].
  apply skip_text_advances in E5. destruct E5 as [Ha5 _].
  destruct (Parser.ws p5) as [r6|] eqn:E6; [|discriminate].
  destruct (ws_advances p5 r6 E6) as (p6 & -> & Ha6). cbn [pbind].
  assert (Ha : advances p p6).
  { repeat (eapply advances_trans; [eassumption|]). apply advances_refl. }
  destruct (parse_val (Some obj) p6) as [[[v p7]|e]|] eqn:E7; cbn [pbind];
    try discriminate.
  pose proof (parse_val_outcome _ _ _ E7) as Ha7. cbn [outcome_after] in Ha7.
  apply parse_val_parsed in E7.
  2: { split; [exact Hwf|]. split; [now apply is_container_obj|].
       unfold advances in Ha. lia. }
  destruct E7 as (Hwv & Huv & Hnv & Hiv & Hlv). cbn [fst snd].
  assert (Hget : ArrImpl.get_len obj = Z.of_nat (length (list_values obj))).
  { unfold ArrImpl.get_len. apply to_int32_id. unfold INT32_MIN, INT32_MAX in *. lia. }
  rewrite Hget.
  destruct (Parser.add_member name _ _) as [[|] obj'] eqn:E8; [|discriminate].
  apply wf_add_member in E8; auto; [|unfold advances in Ha; lia].
  destruct E8 as (Hwf' & Ht' & Hlv' & Hname' & Hidx' & Hline' & Hused').
  assert (Hun' : unused obj').
  { apply unused_intro; [rewrite Hused'; now apply unused_root|].
    intros i c Hi. rewrite Hlv' in Hi. apply lookup_app_Some in Hi.
    destruct Hi as [Hi|[_ Hi]]; [exact (unused_element obj i c Hun Hi)|].
    apply list_lookup_singleton_Some in Hi. destruct Hi as [_ <-].
    now apply unused_set_name. }
  destruct (Parser.ws p7) as [r9|] eqn:E9; [|discriminate].
  destruct (ws_advances p7 r9 E9) as (p9 & -> & Ha9). cbn [pbind].
  destruct (Parser.skip_text "}" p9) as [[|] p10] eqn:E10.
  { intros [= <- <-]. repeat split; auto. }
  apply skip_text_stays in E10. subst p10.
  destruct (Parser.skip_text "," p9) as [[|] p11] eqn:E11; [|discriminate].
  pose proof (skip_text_consumes _ _ _ E11) as Hc11.
  apply skip_text_advances in E11. destruct E11 as [Ha11 Hl11].
  intros H. apply IH in H; auto.
  - destruct H as (? & ? & ? & ? & ?). repeat split; auto; congruence.
  - rewrite Hlv', length_app. cbn [length]. unfold advances in *. lia.
  - rewrite Hline'. unfold advances in *. lia.
Qed.

Lemma parse_val_obj_parsed parent p v p' :
  room_for_element parent p ->
  Parser.parse_val_obj P parse_val parent p = Some (Ok (Some v, p')) ->
  parsed_under parent p v.
Proof.
  intros Hroom. unfold Parser.parse_val_obj.
  destruct (Parser.skip_text "{" p) as [[|] p1] eqn:E; [|discriminate].
  pose proof (skip_text_consumes _ _ _ E) as Hc.
  apply skip_text_advances in E. destruct E as [Ha Hl].
  destruct (Parser.parse_val_obj_loop _ _ _ _ p1) as [[[a p2]|e]|] eqn:E2; cbn [pbind];
    try discriminate.
  intros [= <- <-]. cbn [fst].
  destruct (add_val_fields parent p1) as (Hd & Ht & Hn & Hln).
  apply parse_val_obj_loop_parsed in E2.
  - destruct E2 as (Hwf & Hun & Hname & Hidx & Hline).
    repeat split; [exact Hwf|exact Hun|..].
    + rewrite Hname. exact Hn.
    + rewrite Hidx. apply (m_idx_add_val parent p p1 Hroom).
    + rewrite Hline. cbn [ValImpl.init_obj ValImpl.set_data m_line_no].
      rewrite Hln. lia.
  - apply (wf_obj _ [] ∅); [reflexivity|reflexivity|..].
    + intros i c Hi. rewrite lookup_nil in Hi. discriminate.
    + intros i c Hi. rewrite lookup_nil in Hi. discriminate.
    + intros name idx Hi. rewrite lookup_empty in Hi. discriminate.
  - apply unused_leaf; reflexivity.
  - reflexivity.
  - cbn [list_values ValImpl.init_obj ValImpl.set_data m_data length].
    destruct parent as [arr|]; cbn [room_for_element] in Hroom;
      unfold INT32_MAX in *; lia.
  - cbn [ValImpl.init_obj ValImpl.set_data m_line_no]. rewrite Hln. lia.
Qed.

End ContainerTrees.

Lemma room_for_element_advances parent p p1 :
  advances p p1 -> room_for_element parent p -> room_for_element parent p1.
Proof.
  unfold advances. destruct parent as [arr|]; cbn [room_for_element].
  - intros Ha (? & ? & ?). repeat split; auto. lia.
  - lia.
Qed.

Lemma parsed_under_advances parent p p1 v :
  advances p p1 -> parsed_under parent p1 v -> parsed_under parent p v.
Proof.
  unfold advances, parsed_under. intros Ha (? & ? & ? & ? & ?).
  repeat split; auto. lia.
Qed.

Lemma parse_val_parsed P depth : forall parent p v p',
  room_for_element parent p ->
  Parser.parse_val P depth parent p = Some (Ok (v, p')) ->
  parsed_under parent p v.
Proof.
  induction depth as [|depth IH]; intros parent p v p' Hroom;
    cbn [Parser.parse_val]; [discriminate|].
  destruct (Parser.ws p) as [r1|] eqn:E1; [|discriminate].
  destruct (ws_advances p r1 E1) as (p1 & -> & Ha1). cbn [pbind].
  intros H. apply (parsed_under_advances parent p p1 v Ha1).
  apply (room_for_element_advances parent p p1 Ha1) in Hroom. revert H.
  destruct (Parser.parse_val_null parent p1) as [[v0|] p2] eqn:E2.
  { intros [= <- <-]. unfold Parser.parse_val_null in E2.
    destruct (Parser.skip_text "null" p1) as [[|] q] eqn:E; [|discriminate].
    injection E2 as <- <-. apply skip_text_advances in E. destruct E as [Ha Hl].
    apply (parsed_under_scalar parent p1 q); [exact Hroom|lia|]. now left. }
  clear E2 p2.
  destruct (Parser.parse_val_bool parent p1) as [[v0|] p2] eqn:E2.
  { intros [= <- <-]. unfold Parser.parse_val_bool in E2.
    destruct (Parser.skip_text "false" p1) as [[|] q] eqn:E.
    - injection E2 as <- <-. apply skip_text_advances in E. destruct E as [Ha Hl].
      apply (parsed_under_scalar parent p1 q); [exact Hroom|lia|]. right. left. eauto.
    - apply skip_text_stays in E. subst q.
      destruct (Parser.skip_text "true" p1) as [[|] q] eqn:E; [|discriminate].
      injection E2 as <- <-. apply skip_text_advances in E. destruct E as [Ha Hl].
      apply (parsed_under_scalar parent p1 q); [exact Hroom|lia|]. right. left. eauto. }
  clear E2 p2.
  destruct (Parser.parse_val_num P parent p1) as [[[v0|] p2]|e] eqn:E2; try discriminate.
  { intros [= <- <-]. apply parse_val_num_value in E2.
    apply (parsed_under_scalar parent p1 p1); [exact Hroom|lia|].
    destruct E2 as [(n & Hn & ->)|(x & ->)]; [right; right; left|right; right; right; left];
      eauto. }
  clear E2 p2.
  destruct (Parser.parse_val_str P parent p1) as [[[[v0|] p2]|e]|] eqn:E2; cbn [pbind];
    try discriminate.
  { intros [= <- <-]. unfold Parser.parse_val_str in E2.
    destruct (Parser.parse_str P p1) as [[[[s|] q]|e]|] eqn:E; cbn [pbind fst snd] in E2;
      try discriminate.
    injection E2 as <- <-. pose proof (parse_str_c_str _ _ _ _ E) as Hs.
    apply parse_str_on_line in E. destruct E as [Ha Hl].
    apply (parsed_under_scalar parent p1 q); [exact Hroom|lia|].
    right. right. right. right. eauto. }
  clear E2 p2.
  destruct (Parser.parse_val_arr _ parent p1) as [[[[v0|] p2]|e]|] eqn:E2; cbn [pbind];
    try discriminate.
  { intros [= <- <-].
    apply (parse_val_arr_parsed _ (parse_val_outcome P depth) IH) in E2; auto. }
  clear E2 p2.
  destruct (Parser.parse_val_obj _ _ parent p1) as [[[[v0|] p2]|e]|] eqn:E2; cbn [pbind];
    try discriminate.
  { intros [= <- <-].
    apply (parse_val_obj_parsed _ _ (parse_val_outcome P depth) IH) in E2; auto. }
Qed.

(** ** Nothing is marked in a tree the parser returns *)

Lemma unused_add_member name idx obj obj' :
  unused obj -> Parser.add_member name idx obj = (true, obj') -> unused obj'.
Proof.
  intros Hun. unfold Parser.add_member.
  destruct (dict_map obj !! name); [discriminate|]. intros [= <-].
  apply unused_intro; [exact (unused_root obj Hun)|].
  intros i c. unfold list_values at 1. cbn [m_data with_data].
  destruct (m_data obj) as [| | | | |values|values m] eqn:Hd;
    try (intros Hi; apply (unused_element obj i c Hun);
         unfold list_values; rewrite Hd; exact Hi).
  rewrite list_lookup_alter. destruct (decide (Z.to_nat idx = i)) as [<-|Hne].
  - destruct (values !! Z.to_nat idx) as [c0|] eqn:Hc0; cbn; [|discriminate].
    intros [= <-]. apply unused_set_name.
    apply (unused_element obj (Z.to_nat idx) c0 Hun).
    unfold list_values. rewrite Hd. exact Hc0.
  - intros Hi. apply (unused_element obj i c Hun).
    unfold list_values. rewrite Hd. exact Hi.
Qed.

Lemma unused_scalar parent q v :
  v = Parser.add_val parent q \/
  (exists b, v = ValImpl.init_bool b (Parser.add_val parent q)) \/
  (exists n, v = ValImpl.init_int n (Parser.add_val parent q)) \/
  (exists x, v = ValImpl.init_f64 x (Parser.add_val parent q)) \/
  (exists s, v = ValImpl.init_str s (Parser.add_val parent q)) ->
  unused v.
Proof.
  destruct (add_val_fields parent q) as (Hd & Ht & _).
  intros [->|[(b & ->)|[(n & ->)|[(x & ->)|(s & ->)]]]]; apply unused_leaf;
    try reflexivity; unfold list_values, ValImpl.used; rewrite ?Hd, ?Ht; reflexivity.
Qed.

Section ContainerUnused.

Variable P : Platform.
Variable parse_val : option ValImpl -> Parser -> option (res (ValImpl * Parser)).
Hypothesis parse_val_unused :
  forall parent q v q', parse_val parent q = Some (Ok (v, q')) -> unused v.

Lemma parse_val_arr_loop_unused fuel : forall arr p a p',
  unused arr ->
  Parser.parse_val_arr_loop parse_val fuel arr p = Some (Ok (a, p')) -> unused a.
Proof.
  induction fuel as [|fuel IH]; intros arr p a p' Hun;
    cbn [Parser.parse_val_arr_loop]; [discriminate|].
  destruct (Parser.ws p) as [[p1|e]|]; cbn [pbind]; try discriminate.
  destruct (Parser.skip_text "]" p1) as [[|] p2]; [intros [= <- <-]; exact Hun|].
  destruct (parse_val (Some arr) p2) as [[[v p3]|e]|] eqn:E3; cbn [pbind fst snd];
    try discriminate.
  apply parse_val_unused in E3.
  pose proof (unused_push_back v arr Hun E3) as Hun'.
  destruct (Parser.ws p3) as [[p4|e]|]; cbn [pbind]; try discriminate.
  destruct (Parser.skip_text "]" p4) as [[|] p5]; [intros [= <- <-]; exact Hun'|].
  destruct (Parser.skip_text "," p5) as [[|] p6]; [|discriminate].
  now apply IH.
Qed.

Lemma parse_val_obj_loop_unused fuel : forall obj p a p',
  unused obj ->
  Parser.parse_val_obj_loop P parse_val fuel obj p = Some (Ok (a, p')) -> unused a.
Proof.
  induction fuel as [|fuel IH]; intros obj p a p' Hun;
    cbn [Parser.parse_val_obj_loop]; [discriminate|].
  destruct (Parser.ws p) as [[p1|e]|]; cbn [pbind]; try discriminate.
  destruct (Parser.skip_text "}" p1) as [[|] p2]; [intros [= <- <-]; exact Hun|].
  destruct (Parser.parse_str P p2) as [[[[name|] p3]|e]|]; cbn [pbind fst snd];
    try discriminate.
  destruct (Parser.ws p3) as [[p4|e]|]; cbn [pbind]; try discriminate.
  destruct (Parser.skip_text ":" p4) as [[|] p5]; [|discriminate].
  destruct (Parser.ws p5) as [[p6|e]|]; cbn [pbind]; try discriminate.
  destruct (parse_val (Some obj) p6) as [[[v p7]|e]|] eqn:E7; cbn [pbind fst snd];
    try discriminate.
  apply parse_val_unused in E7.
  pose proof (unused_push_back v obj Hun E7) as Hun1.
  destruct (Parser.add_member name _ _) as [[|] obj'] eqn:E8; [|discriminate].
  pose proof (unused_add_member _ _ _ _ Hun1 E8) as Hun'.
  destruct (Parser.ws p7) as [[p8|e]|]; cbn [pbind]; try discriminate.
  destruct (Parser.skip_text "}" p8) as [[|] p9]; [intros [= <- <-]; exact Hun'|].
  destruct (Parser.skip_text "," p9) as [[|] p10]; [|discriminate].
  now apply IH.
Qed.

End ContainerUnused.

Lemma parse_val_unused P depth : forall parent p v p',
  Parser.parse_val P depth parent p = Some (Ok (v, p')) -> unused v.
Proof.
  induction depth as [|depth IH]; intros parent p v p';
    cbn [Parser.parse_val]; [discriminate|].
  destruct (Parser.ws p) as [[p1|e]|]; cbn [pbind]; try discriminate.
  destruct (Parser.parse_val_null parent p1) as [[v0|] p2] eqn:E2.
  { intros [= <- <-]. unfold Parser.parse_val_null in E2.
    destruct (Parser.skip_text "null" p1) as [[|] q]; [|discriminate].
    injection E2 as <- <-. apply (unused_scalar parent q). now left. }
  clear E2 p2.
  destruct (Parser.parse_val_bool parent p1) as [[v0|] p2] eqn:E2.
  { intros [= <- <-]. unfold Parser.parse_val_bool in E2.
    destruct (Parser.skip_text "false" p1) as [[|] q].
    - injection E2 as <- <-. apply (unused_scalar parent q). right. left. eauto.
    - destruct (Parser.skip_text "true" q) as [[|] q']; [|discriminate].
      injection E2 as <- <-. apply (unused_scalar parent q'). right. left. eauto. }
  clear E2 p2.
  destruct (Parser.parse_val_num P parent p1) as [[[v0|] p2]|e] eqn:E2; try discriminate.
  { intros [= <- <-]. apply parse_val_num_value in E2.
    apply (unused_scalar parent p1).
    destruct E2 as [(n & Hn & ->)|(x & ->)]; [right; right; left|right; right; right; left];
      eauto. }
  clear E2 p2.
  destruct (Parser.parse_val_str P parent p1) as [[[[v0|] p2]|e]|] eqn:E2; cbn [pbind];
    try discriminate.
  { intros [= <- <-]. unfold Parser.parse_val_str in E2.
    destruct (Parser.parse_str P p1) as [[[[s|] q]|e]|]; cbn [pbind fst snd] in E2;
      try discriminate.
    injection E2 as <- <-. apply (unused_scalar parent q).
    right. right. right. right. eauto. }
  clear E2 p2.
  destruct (Parser.parse_val_arr _ parent p1) as [[[[v0|] p2]|e]|] eqn:E2; cbn [pbind];
    try discriminate.
  { intros [= <- <-]. unfold Parser.parse_val_arr in E2.
    destruct (Parser.skip_text "[" p1) as [[|] q]; [|discriminate].
    destruct (Parser.parse_val_arr_loop _ _ _ q) as [[[a q']|e]|] eqn:E; cbn [pbind] in E2;
      try discriminate.
    injection E2 as <- <-. apply (parse_val_arr_loop_unused _ IH) in E; [exact E|].
    apply unused_leaf; reflexivity. }
  clear E2 p2.
  destruct (Parser.parse_val_obj _ _ parent p1) as [[[[v0|] p2]|e]|] eqn:E2; cbn [pbind];
    try discriminate.
  { intros [= <- <-]. unfold Parser.parse_val_obj in E2.
    destruct (Parser.skip_text "{" p1) as [[|] q]; [|discriminate].
    destruct (Parser.parse_val_obj_loop _ _ _ _ q) as [[[a q']|e]|] eqn:E;
      cbn [pbind] in E2; try discriminate.
    injection E2 as <- <-. apply (parse_val_obj_loop_unused _ _ IH) in E; [exact E|].
    apply unused_leaf; reflexivity. }
Qed.

Lemma parse_root P str v :
  Json.parse P str = Some (Ok v) ->
  exists p', Parser.parse_val P (S (String.length (c_str str))) None
               (Parser.init (c_str str)) = Some (Ok (v, p')).
Proof.
  unfold Json.parse, Json.parse_in_place, Parser.parse.
  destruct (Parser.parse_val P _ None _) as [[[v0 p1]|e]|]; cbn [pbind fst snd];
    try discriminate.
  destruct (Parser.ws p1) as [[p2|e]|]; cbn [pbind]; try discriminate.
  destruct (negb _); [discriminate|]. intros [= <-]. eauto.
Qed.

Lemma in_subtree_deref v w : in_subtree v w -> exists r, deref v r = Some w.
Proof.
  induction 1 as [v|v c w Hc Hin _ (r & Hr)].
  - exists []. reflexivity.
  - apply list_elem_of_In, list_elem_of_lookup in Hin. destruct Hin as (i & Hi).
    exists (i :: r). cbn [deref]. now rewrite Hi.
Qed.

(** X3.  A document just parsed is untouched: no value of the tree is marked as
    accessed, so [reject_unknow_members] on it succeeds only if no Object of
    the document has any member, and otherwise throws. *)
Theorem parse_leaves_unaccessed (P : Platform) (str : string) (v : ValImpl) :
  Json.parse P str = Some (Ok v) ->
  (forall r, ~ accessed v r) /\
  (do_reject_unknow_members v = Ok tt <->
   forall o, in_subtree v o -> is_obj o = true -> list_values o = []).
Proof.
  intros Hp. destruct (parse_root P str v Hp) as (p' & Hv).
  apply parse_val_unused in Hv.
  split.
  - intros r (w & Hd & Hu). rewrite (Hv r w Hd) in Hu. discriminate.
  - rewrite do_reject_ok_iff. unfold members_accessed. split.
    + intros H o Ho Hobj. destruct (list_values o) as [|c l] eqn:Hl; [reflexivity|].
      exfalso. specialize (H o c Ho Hobj). rewrite Hl in H.
      specialize (H (or_introl eq_refl)).
      assert (in_subtree v c) as Hc.
      { eapply in_subtree_trans; [exact Ho|].
        eapply in_subtree_element;
          [now apply is_obj_container|rewrite Hl; now left|apply in_subtree_here]. }
      destruct (in_subtree_deref v c Hc) as (r & Hr).
      rewrite (Hv r c Hr) in H. discriminate.
    + intros H o c Ho Hobj Hin. rewrite (H o Ho Hobj) in Hin. destruct Hin.
Qed.

Lemma parse_leaves_unaccessed_witness :
  (forall r, ~ accessed doc r) /\
  (do_reject_unknow_members doc = Ok tt <->
   forall o, in_subtree doc o -> is_obj o = true -> list_values o = []).
Proof.
  apply (parse_leaves_unaccessed RefPlatform.platform
           (dq "{'known': 1, 'extra': [{'x': 2}]}")).
  vm_compute. reflexivity.
Defined.

Lemma parse_parsed_under P str v :
  Z.of_nat (String.length str) <= INT32_MAX ->
  Json.parse P str = Some (Ok v) ->
  parsed_under None (Parser.init (c_str str)) v.
Proof.
  intros Hlen Hp. destruct (parse_root P str v Hp) as (p' & Hv).
  apply parse_val_parsed in Hv; [exact Hv|].
  cbn [room_for_element]. unfold remaining. cbn [Parser.init m_next].
  pose proof (length_c_str str). lia.
Qed.

Lemma doc_well_formed : well_formed doc.
Proof.
  apply (parse_parsed_under RefPlatform.platform (dq "{'known': 1, 'extra': [{'x': 2}]}")).
  - vm_compute. discriminate.
  - vm_compute. reflexivity.
Qed.

(** X2.  The root of a parsed document of less than 2 GiB is well formed: tags
    agree with payloads, integers are within 64 bits, strings hold no zero
    byte, every element records its own position, Array elements are
    unnamed, the names of the members of an Object are distinct and its map
    sends each to the member's position.  The root is unnamed, at position
    -1, on a line from 1 on. *)
Theorem parse_well_formed (P : Platform) (str : string) (v : ValImpl) :
  Z.of_nat (String.length str) <= INT32_MAX ->
  Json.parse P str = Some (Ok v) ->
  well_formed v /\ m_name v = EmptyString /\ m_idx v = -1 /\ 1 <= m_line_no v.
Proof.
  intros Hlen Hp.
  destruct (parse_parsed_under P str v Hlen Hp) as (Hwf & _ & Hn & Hi & Hl).
  cbn [Parser.init m_line_count] in Hl. auto.
Qed.

Lemma parse_well_formed_witness :
  well_formed doc /\ m_name doc = EmptyString /\ m_idx doc = -1 /\ 1 <= m_line_no doc.
Proof.
  apply (parse_well_formed RefPlatform.platform (dq "{'known': 1, 'extra': [{'x': 2}]}")).
  - vm_compute. discriminate.
  - vm_compute. reflexivity.
Defined.

(** ** What the accessor layer changes, and what it keeps *)

Lemma erase_used_eq v :
  erase_used v =
    {| m_data :=
         match m_data v with
         | d_list values => d_list (map erase_used values)
         | d_dict values m => d_dict (map erase_used values) m
         | d => d
         end;
       m_type := Val.get_type v;
       m_line_no := m_line_no v;
       m_name := m_name v;
       m_idx := m_idx v |}.
Proof. destruct v. reflexivity. Qed.

Lemma erase_used_mark v : erase_used (ValImpl.mark_as_used v) = erase_used v.
Proof.
  rewrite (erase_used_eq (ValImpl.mark_as_used v)), (erase_used_eq v).
  now rewrite get_type_mark_as_used.
Qed.

Lemma map_alter_absorb {A B} (f : A -> B) (g : A -> A) i (l : list A) :
  (forall x, l !! i = Some x -> f (g x) = f x) -> map f (alter g i l) = map f l.
Proof.
  intros H. apply list_eq. intros j.
  change (map f) with (fmap (M := list) f). rewrite !list_lookup_fmap, list_lookup_alter.
  destruct (decide (i = j)) as [<-|]; [|reflexivity].
  destruct (l !! i) as [x|] eqn:E; cbn; [|reflexivity]. now rewrite (H x).
Qed.

Lemma erase_used_modify_at f :
  (forall v, erase_used (f v) = erase_used v) ->
  forall r root, erase_used (modify_at f r root) = erase_used root.
Proof.
  intros Hf. induction r as [|i r IH]; intros root; cbn [modify_at]; [apply Hf|].
  rewrite (erase_used_eq (with_data _ root)), (erase_used_eq root).
  cbn [m_data m_line_no m_name m_idx with_data].
  change (Val.get_type (with_data _ root)) with (Val.get_type root).
  destruct (m_data root); try reflexivity;
    (rewrite map_alter_absorb; [reflexivity|intros x _; apply IH]).
Qed.

Lemma erase_used_with_map f v :
  Forall (fun c => erase_used (f c) = erase_used c) (list_values v) ->
  erase_used (with_data (map_values f (m_data v)) v) = erase_used v.
Proof.
  intros H. rewrite (erase_used_eq (with_data _ v)), (erase_used_eq v).
  cbn [m_data m_line_no m_name m_idx with_data].
  change (Val.get_type (with_data _ v)) with (Val.get_type v).
  unfold list_values in H. unfold map_values.
  destruct (m_data v); try reflexivity; rewrite map_map;
    (erewrite map_ext_Forall; [reflexivity|exact H]).
Qed.

Lemma erase_used_ignore_element v : erase_used (ignore_element v) = erase_used v.
Proof.
  induction v as [v IH] using ValImpl_values_ind.
  rewrite ignore_element_unfold. destruct (is_container v); [|apply erase_used_mark].
  rewrite <- (erase_used_mark v).
  change (m_data v) with (m_data (ValImpl.mark_as_used v)).
  apply erase_used_with_map. exact IH.
Qed.

Lemma erase_used_do_ignore v : erase_used (do_ignore_members v) = erase_used v.
Proof.
  unfold do_ignore_members. destruct (is_container v); [|reflexivity].
  apply erase_used_with_map. apply List.Forall_forall.
  intros c _. apply erase_used_ignore_element.
Qed.

Lemma erase_used_run op root : erase_used (snd (run op root)) = erase_used root.
Proof.
  destruct (snd_run op root) as [->|[(r & ->)|(r & ->)]]; [reflexivity|..];
    apply erase_used_modify_at; [apply erase_used_mark|apply erase_used_do_ignore].
Qed.

(** X4.  The only thing the accessor layer ever changes in a document is used
    bits: whatever operations run, in whatever order and whether they return
    or throw, the document with the used bits cleared is the same before and
    after; types, payloads, names, positions, lines, shapes and name maps
    are as the parser left them. *)
Theorem accessors_change_only_used_bits :
  (forall op root, erase_used (snd (run op root)) = erase_used root) /\
  (forall ops root, erase_used (run_ops ops root) = erase_used root).
Proof.
  split; [exact erase_used_run|].
  induction ops as [|op ops IH]; intros root; [reflexivity|].
  unfold run_ops in *. cbn [fold_left]. rewrite IH. apply erase_used_run.
Qed.

(** *** Well-formedness is kept *)

Lemma with_data_same v : with_data (m_data v) v = v.
Proof. destruct v. reflexivity. Qed.

Lemma wf_mark v : well_formed v -> well_formed (ValImpl.mark_as_used v).
Proof.
  intros Hwf.
  destruct Hwf as [v E Hd|v b E Hd|v n E Hd Hn|v x E Hd|v s E Hd Hs
                  |v values E Hd Hc Hi|v values m E Hd Hc Hi Hm];
    rewrite <- get_type_mark_as_used in E.
  - now apply wf_null.
  - now apply (wf_bool _ b).
  - now apply (wf_int _ n).
  - now apply (wf_f64 _ x).
  - now apply (wf_str _ s).
  - now apply (wf_arr _ values).
  - now apply (wf_obj _ values m).
Qed.

Lemma stands_for_refl c : stands_for c c.
Proof. unfold stands_for. auto. Qed.

Lemma stands_for_map f l :
  (forall c, In c l -> stands_for c (f c)) -> Forall2 stands_for l (map f l).
Proof.
  induction l as [|c l IH]; intros H; cbn [map]; constructor.
  - apply H. now left.
  - apply IH. intros c' Hc'. apply H. now right.
Qed.

Lemma stands_for_alter f i : forall l,
  (forall c, l !! i = Some c -> stands_for c (f c)) ->
  Forall2 stands_for l (alter f i l).
Proof.
  induction i as [|i IH]; intros [|c l] H; cbn; constructor.
  - now apply H.
  - apply Forall2_same_length_lookup_2; [reflexivity|].
    intros j x y Hx Hy. rewrite Hx in Hy. injection Hy as <-. apply stands_for_refl.
  - apply stands_for_refl.
  - apply IH. intros c' Hc'. now apply H.
Qed.

(** A well-formed value stays well formed when its elements are replaced by
    values that stand for them. *)
Lemma wf_children_replaced v values' :
  well_formed v ->
  Forall2 stands_for (list_values v) values' ->
  well_formed
    (with_data
       match m_data v with
       | d_list _ => d_list values'
       | d_dict _ m => d_dict values' m
       | d => d
       end v).
Proof.
  intros Hwf HF.
  destruct Hwf as [v E Hd|v b E Hd|v n E Hd Hn|v x E Hd|v s E Hd Hs
                  |v values E Hd Hc Hi|v values m E Hd Hc Hi Hm];
    unfold list_values in HF; rewrite Hd in *.
  - apply wf_null; [exact E|reflexivity].
  - apply (wf_bool _ b); [exact E|reflexivity].
  - apply (wf_int _ n); [exact E|reflexivity|exact Hn].
  - apply (wf_f64 _ x); [exact E|reflexivity].
  - apply (wf_str _ s); [exact E|reflexivity|exact Hs].
  - apply (wf_arr _ values'); [exact E|reflexivity|..]; intros i c' Hl;
      destruct (Forall2_lookup_r _ _ _ _ _ HF Hl) as (c & Hlc & Hwf' & Hi' & Hn' & Hl').
    + apply Hwf', (Hc i c Hlc).
    + destruct (Hi i c Hlc) as (? & ? & ?). cbn [m_line_no with_data].
      repeat split; congruence.
  - apply (wf_obj _ values' m); [exact E|reflexivity|..].
    + intros i c' Hl.
      destruct (Forall2_lookup_r _ _ _ _ _ HF Hl) as (c & Hlc & Hwf' & Hi' & Hn' & Hl').
      apply Hwf', (Hc i c Hlc).
    + intros i c' Hl.
      destruct (Forall2_lookup_r _ _ _ _ _ HF Hl) as (c & Hlc & Hwf' & Hi' & Hn' & Hl').
      destruct (Hi i c Hlc) as (? & ? & ?). cbn [m_line_no with_data].
      repeat split; congruence.
    + intros name idx Hl. destruct (Hm name idx Hl) as (i & c & -> & Hlc & Hn).
      destruct (Forall2_lookup_l _ _ _ _ _ HF Hlc) as (c' & Hlc' & Hwf' & Hi' & Hn' & Hl').
      exists i, c'. repeat split; [exact Hlc'|congruence].
Qed.

Lemma keeps_fields_modify_at f r : keeps_fields f -> keeps_fields (modify_at f r).
Proof.
  intros Hf. destruct r as [|i r]; [exact Hf|]. intros v. cbn [modify_at].
  repeat split.
Qed.

Lemma wf_modify_at f :
  (forall v, well_formed v -> well_formed (f v)) -> keeps_fields f ->
  forall r root, well_formed root -> well_formed (modify_at f r root).
Proof.
  intros Hwf Hf. induction r as [|i r IH]; intros root Hroot; cbn [modify_at];
    [now apply Hwf|].
  replace (match m_data root with
           | d_list values => d_list (alter (modify_at f r) i values)
           | d_dict values m => d_dict (alter (modify_at f r) i values) m
           | d => d
           end)
    with (match m_data root with
          | d_list _ => d_list (alter (modify_at f r) i (list_values root))
          | d_dict _ m => d_dict (alter (modify_at f r) i (list_values root)) m
          | d => d
          end)
    by (unfold list_values; destruct (m_data root); reflexivity).
  apply wf_children_replaced; [exact Hroot|].
  apply stands_for_alter. intros c _. split; [apply IH|].
  apply (keeps_fields_modify_at f r Hf c).
Qed.

Lemma keeps_fields_mark : keeps_fields ValImpl.mark_as_used.
Proof. intros v. repeat split. Qed.

Lemma keeps_fields_ignore_element : keeps_fields ignore_element.
Proof.
  intros v. rewrite ignore_element_unfold. destruct (is_container v); repeat split.
Qed.

Lemma keeps_fields_do_ignore : keeps_fields do_ignore_members.
Proof.
  intros v. unfold do_ignore_members. destruct (is_container v); repeat split.
Qed.

Lemma map_values_as_children f v :
  map_values f (m_data v) =
    match m_data v with
    | d_list _ => d_list (map f (list_values v))
    | d_dict _ m => d_dict (map f (list_values v)) m
    | d => d
    end.
Proof. unfold map_values, list_values. destruct (m_data v); reflexivity. Qed.

Lemma wf_ignore_element v : well_formed v -> well_formed (ignore_element v).
Proof.
  induction v as [v IH] using ValImpl_values_ind. intros Hwf.
  rewrite ignore_element_unfold. destruct (is_container v); [|now apply wf_mark].
  rewrite map_values_as_children.
  apply (wf_children_replaced (ValImpl.mark_as_used v)); [now apply wf_mark|].
  apply stands_for_map. intros c Hc. split.
  - rewrite List.Forall_forall in IH. now apply IH.
  - apply keeps_fields_ignore_element.
Qed.

Lemma wf_do_ignore v : well_formed v -> well_formed (do_ignore_members v).
Proof.
  intros Hwf. unfold do_ignore_members. destruct (is_container v); [|exact Hwf].
  rewrite map_values_as_children. apply wf_children_replaced; [exact Hwf|].
  apply stands_for_map. intros c _. split; [apply wf_ignore_element|].
  apply keeps_fields_ignore_element.
Qed.

Lemma wf_run op root : well_formed root -> well_formed (snd (run op root)).
Proof.
  intros Hwf. destruct (snd_run op root) as [->|[(r & ->)|(r & ->)]]; [exact Hwf|..];
    apply wf_modify_at; auto using wf_mark, wf_do_ignore, keeps_fields_mark,
      keeps_fields_do_ignore.
Qed.

(** X5.  Well-formedness is an invariant of the accessor layer: every operation,
    and so every sequence of operations, leaves a well-formed document well
    formed. *)
Theorem well_formed_preserved :
  (forall op root, well_formed root -> well_formed (snd (run op root))) /\
  (forall ops root, well_formed root -> well_formed (run_ops ops root)).
Proof.
  split; [exact wf_run|].
  induction ops as [|op ops IH]; intros root Hwf; [exact Hwf|].
  unfold run_ops in *. cbn [fold_left]. apply IH, wf_run, Hwf.
Qed.

Lemma well_formed_preserved_witness :
  well_formed (run_ops [op_obj obj_get_arr [] "extra"; op_ignore_members [1%nat];
                        op_arr arr_get_bool [] 7] doc).
Proof.
  apply (proj2 well_formed_preserved). exact doc_well_formed.
Defined.

(** ** Names and positions in an Object *)

Lemma wf_element v i c : well_formed v -> list_values v !! i = Some c -> well_formed c.
Proof.
  intros Hwf.
  destruct Hwf as [v E Hd|v b E Hd|v n E Hd Hn|v x E Hd|v s E Hd Hs
                  |v values E Hd Hc Hi|v values m E Hd Hc Hi Hm];
    unfold list_values; rewrite Hd; try (rewrite lookup_nil; discriminate);
    apply Hc.
Qed.

Lemma well_formed_deref r : forall v w,
  well_formed v -> deref v r = Some w -> well_formed w.
Proof.
  induction r as [|i r IH]; intros v w Hwf; cbn [deref].
  - now intros [= <-].
  - destruct (list_values v !! i) as [c|] eqn:E; [|discriminate].
    apply IH. exact (wf_element v i c Hwf E).
Qed.

Lemma wf_is_obj v : well_formed v -> is_obj v = true -> Val.get_type v = vtObj.
Proof.
  intros Hwf. unfold is_obj.
  destruct Hwf as [v E Hd|v b E Hd|v n E Hd Hn|v x E Hd|v s E Hd Hs
                  |v values E Hd Hc Hi|v values m E Hd Hc Hi Hm];
    rewrite E; try (vm_compute; discriminate). reflexivity.
Qed.

Lemma wf_scalar_no_elements v :
  well_formed v -> is_container v = false -> list_values v = [].
Proof.
  intros Hwf. unfold is_container, list_values.
  destruct Hwf as [v E Hd|v b E Hd|v n E Hd Hn|v x E Hd|v s E Hd Hs
                  |v values E Hd Hc Hi|v values m E Hd Hc Hi Hm];
    rewrite E, Hd; try reflexivity; vm_compute; discriminate.
Qed.

Lemma get_member_idx_found this name required root o i :
  deref root this = Some o -> dict_map o !! name = Some (Z.of_nat i) ->
  Obj.get_member_idx this name required root = (Ok (Z.of_nat i), root).
Proof.
  intros Hd Hm. unfold Obj.get_member_idx, acc_bind, acc_read, ObjImpl.find.
  rewrite Hd. cbn [from_option id]. rewrite Hm.
  destruct (Z.ltb_spec (Z.of_nat i) 0); [lia|]. now rewrite andb_false_r.
Qed.

Lemma get_member_idx_absent this name root o :
  deref root this = Some o -> dict_map o !! name = None ->
  Obj.get_member_idx this name false root = (Ok (-1), root) /\
  Obj.get_member_idx this name true root =
    (Throw (ErrMemberNotFound
              {| line := m_line_no o; val_name := name; val_idx := -1;
                 val_type := vtNone |}), root).
Proof.
  intros Hd Hm. unfold Obj.get_member_idx, acc_bind, acc_read, ObjImpl.find.
  rewrite Hd. cbn [from_option id]. rewrite Hm. split; reflexivity.
Qed.

Lemma get_member_name_valid this i root o c :
  deref root this = Some o -> list_values o !! i = Some c ->
  Obj.get_member_name this (Z.of_nat i) root = (Ok (m_name c), root).
Proof.
  intros Hd Hc.
  unfold Obj.get_member_name, acc_bind, acc_read, acc_lift, acc_ret, ArrImpl.get_element.
  rewrite Hd. cbn [from_option id]. rewrite Nat2Z.id, Hc.
  apply lookup_lt_Some in Hc.
  destruct (Z.leb_spec 0 (Z.of_nat i)); [|lia].
  destruct (Z.ltb_spec (Z.of_nat i) (Z.of_nat (length (list_values o)))); [|lia].
  reflexivity.
Qed.

(** X6.  In a well-formed document, names and positions of the members of an
    Object determine each other.  For the member [c] at position [i] of the
    Object at [this]: [get_member_idx] of its name returns [i],
    [get_member_name] of [i] returns its name, and [get_member] of its name
    returns (and marks) the member itself; two members never share a name;
    and for a name no member bears, [get_member_idx] returns -1 when the
    member is optional and throws member-not-found, citing the name and the
    line of the Object, when it is required. *)
Theorem member_lookup (root : ValImpl) (this : ref) (o : ValImpl) :
  well_formed root -> deref root this = Some o -> is_obj o = true ->
  (forall i c required, list_values o !! i = Some c ->
     Obj.get_member_idx this (m_name c) required root = (Ok (Z.of_nat i), root) /\
     Obj.get_member_name this (Z.of_nat i) root = (Ok (m_name c), root) /\
     Obj.get_member this (m_name c) required root =
       (Ok (Some (this ++ [i])%list),
        modify_at ValImpl.mark_as_used (this ++ [i])%list root)) /\
  (forall i j c c', list_values o !! i = Some c -> list_values o !! j = Some c' ->
     m_name c = m_name c' -> i = j) /\
  (forall name, (forall c, In c (list_values o) -> m_name c <> name) ->
     Obj.get_member_idx this name false root = (Ok (-1), root) /\
     Obj.get_member_idx this name true root =
       (Throw (ErrMemberNotFound
                 {| line := m_line_no o; val_name := name; val_idx := -1;
                    val_type := vtNone |}), root)).
Proof.
  intros Hroot Hd Hobj.
  pose proof (well_formed_deref this root o Hroot Hd) as Hwf.
  destruct (wf_obj_inv o Hwf (wf_is_obj o Hwf Hobj)) as (values & m & Hdata & Hc & Hm).
  assert (Hlv : list_values o = values) by (unfold list_values; now rewrite Hdata).
  assert (Hdm : dict_map o = m) by (unfold dict_map; now rewrite Hdata).
  rewrite Hlv. split; [|split].
  - intros i c required Hi. destruct (Hc i c Hi) as (_ & _ & Hmi & _).
    rewrite <- Hdm in Hmi. rewrite <- Hlv in Hi.
    split; [exact (get_member_idx_found this _ required root o i Hd Hmi)|].
    split; [exact (get_member_name_valid this i root o c Hd Hi)|].
    exact (get_member_valid this _ required root o i c Hd Hmi Hi).
  - intros i j c c' Hi Hj Hn.
    destruct (Hc i c Hi) as (_ & _ & Hmi & _). destruct (Hc j c' Hj) as (_ & _ & Hmj & _).
    rewrite Hn in Hmi. rewrite Hmi in Hmj. injection Hmj as Hij. lia.
  - intros name Hname. apply (get_member_idx_absent this name root o Hd).
    rewrite Hdm. destruct (m !! name) as [idx|] eqn:E; [exfalso|reflexivity].
    destruct (Hm name idx E) as (i & c & _ & Hi & Hn).
    apply (Hname c); [|exact Hn].
    apply list_elem_of_In, list_elem_of_lookup. eauto.
Qed.

Lemma member_lookup_witness :
  Obj.get_member_idx [] (m_name doc_extra) true doc = (Ok 1, doc) /\
  Obj.get_member_name [] 1 doc = (Ok (m_name doc_extra), doc) /\
  Obj.get_member_idx [] "port" false doc = (Ok (-1), doc).
Proof.
  assert (Hobj : is_obj doc = true) by (vm_compute; reflexivity).
  assert (Hc : list_values doc !! 1%nat = Some doc_extra) by (vm_compute; reflexivity).
  destruct (member_lookup doc [] doc doc_well_formed eq_refl Hobj) as (H1 & _ & H3).
  destruct (H1 1%nat doc_extra true Hc) as (Ha & Hb & _).
  split; [exact Ha|]. split; [exact Hb|].
  assert (Hl : map m_name (list_values doc) = ["known"; "extra"])
    by (vm_compute; reflexivity).
  apply H3. intros c Hc' Hn. apply (in_map m_name) in Hc'. rewrite Hl, Hn in Hc'.
  destruct Hc' as [E|[E|[]]]; discriminate.
Defined.

(** ** Absent members and defaults *)

Lemma get_member_absent this name root o :
  deref root this = Some o -> dict_map o !! name = None ->
  Obj.get_member this name false root = (Ok None, root) /\
  Obj.get_member this name true root =
    (Throw (ErrMemberNotFound
              {| line := m_line_no o; val_name := name; val_idx := -1;
                 val_type := vtNone |}), root).
Proof.
  intros Hd Hm. destruct (get_member_idx_absent this name root o Hd Hm) as [H1 H2].
  rewrite !get_member_unfold, H1, H2. split; reflexivity.
Qed.

(** X7.  When the Object at [this] has no member called [name]: every typed
    getter given a default returns that default, as it is (the bounds of
    [get_i32], [get_i64] and [get_f64] are not applied to it), and
    [get_str_enum_idx] with [required = false] returns -1; every getter
    without a default, and [get_arr] and [get_obj], throw member-not-found
    citing [name] and the line of the Object.  Either way the document is
    left as it was: nothing is marked. *)
Theorem absent_member (root : ValImpl) (this : ref) (o : ValImpl) (name : string) :
  deref root this = Some o -> dict_map o !! name = None ->
  let not_found :=
    ErrMemberNotFound {| line := m_line_no o; val_name := name; val_idx := -1;
                         val_type := vtNone |} in
  (forall d, Obj.get_bool this name (Some d) root = (Ok d, root)) /\
  (forall lo hi d, Obj.get_i32 this name lo hi (Some d) root = (Ok d, root)) /\
  (forall lo hi d, Obj.get_i64 this name lo hi (Some d) root = (Ok d, root)) /\
  (forall lo hi d, Obj.get_f64 this name lo hi (Some d) root = (Ok d, root)) /\
  (forall d, Obj.get_str this name (Some d) root = (Ok (Some d), root)) /\
  (forall str_set, Obj.get_str_enum_idx this name str_set false root = (Ok (-1), root)) /\
  Obj.get_bool this name None root = (Throw not_found, root) /\
  (forall lo hi, Obj.get_i32 this name lo hi None root = (Throw not_found, root)) /\
  (forall lo hi, Obj.get_i64 this name lo hi None root = (Throw not_found, root)) /\
  (forall lo hi, Obj.get_f64 this name lo hi None root = (Throw not_found, root)) /\
  Obj.get_str this name None root = (Throw not_found, root) /\
  (forall str_set,
     Obj.get_str_enum_idx this name str_set true root = (Throw not_found, root)) /\
  Obj.get_arr this name root = (Throw not_found, root) /\
  Obj.get_obj this name root = (Throw not_found, root).
Proof.
  intros Hd Hm not_found.
  destruct (get_member_absent this name root o Hd Hm) as [H1 H2].
  unfold Obj.get_bool, Obj.get_i32, Obj.get_i64, Obj.get_f64, Obj.get_str,
    Obj.get_str_enum_idx, Obj.get_arr, Obj.get_obj, acc_bind.
  repeat split; intros;
    rewrite ?bool_decide_eq_false_2 by discriminate;
    rewrite ?bool_decide_eq_true_2 by reflexivity;
    rewrite ?H1, ?H2; reflexivity.
Qed.

Lemma absent_member_witness :
  Obj.get_i32 [] "port" 1 65535 (Some 0) doc = (Ok 0, doc) /\
  Obj.get_i32 [] "port" 1 65535 None doc =
    (Throw (ErrMemberNotFound
              {| line := m_line_no doc; val_name := "port"; val_idx := -1;
                 val_type := vtNone |}),
     doc).
Proof.
  assert (Hm : dict_map doc !! "port" = None) by (vm_compute; reflexivity).
  destruct (absent_member doc [] doc "port" eq_refl Hm)
    as (_ & H1 & _ & _ & _ & _ & _ & H2 & _).
  split; [apply H1|apply H2].
Defined.

Lemma err_value_mark c : Val.err_value (ValImpl.mark_as_used c) = Val.err_value c.
Proof. unfold Val.err_value. now rewrite get_type_mark_as_used. Qed.

Lemma val_cast_mark T E c :
  Val.val_cast T E (ValImpl.mark_as_used c) =
    res_bind (Val.val_cast T E c) (fun _ => Ok (ValImpl.mark_as_used c)).
Proof.
  unfold Val.val_cast. rewrite get_type_mark_as_used, err_value_mark.
  destruct (_ =? 0); reflexivity.
Qed.

Lemma int_get_lo_hi_mark c lo hi :
  Int.get_lo_hi (ValImpl.mark_as_used c) lo hi = Int.get_lo_hi c lo hi.
Proof. unfold Int.get_lo_hi. now rewrite err_value_mark. Qed.

Lemma int_get_i32_lo_hi_mark c lo hi :
  Int.get_i32_lo_hi (ValImpl.mark_as_used c) lo hi = Int.get_i32_lo_hi c lo hi.
Proof.
  unfold Int.get_i32_lo_hi. destruct (lo >? hi); now rewrite int_get_lo_hi_mark.
Qed.

Lemma f64_get_lo_hi_mark c lo hi :
  F64.get_lo_hi (ValImpl.mark_as_used c) lo hi = F64.get_lo_hi c lo hi.
Proof.
  unfold F64.get_lo_hi, F64.get. now rewrite err_value_mark, get_type_mark_as_used.
Qed.

Lemma str_get_enum_idx_mark c str_set :
  Str.get_enum_idx (ValImpl.mark_as_used c) str_set = Str.get_enum_idx c str_set.
Proof. unfold Str.get_enum_idx. now rewrite err_value_mark. Qed.

Lemma read_marked root this o i c :
  deref root this = Some o -> list_values o !! i = Some c ->
  acc_read (this ++ [i])%list
    (modify_at ValImpl.mark_as_used (this ++ [i])%list root) =
  (Ok (ValImpl.mark_as_used c), modify_at ValImpl.mark_as_used (this ++ [i])%list root).
Proof.
  intros Hd Hc. unfold acc_read.
  rewrite (deref_modify_at _ _ _ c) by (eapply deref_snoc; eassumption).
  reflexivity.
Qed.

(** X8.  When the Object at [this] has a member called [name], a default given
    to a typed getter plays no part: the getter marks the member and returns
    what the typed read of the member returns, or throws what it throws
    (bad type, bad range, unsupported value), whether a default was passed
    or not. *)
Theorem present_member_ignores_default
    (root : ValImpl) (this : ref) (o : ValImpl) (name : string) (i : nat) (c : ValImpl) :
  deref root this = Some o -> dict_map o !! name = Some (Z.of_nat i) ->
  list_values o !! i = Some c ->
  let root' := modify_at ValImpl.mark_as_used (this ++ [i])%list root in
  (forall def, Obj.get_bool this name def root =
     (res_bind (Val.as_bool c) (fun _ => Ok (Bool.get c)), root')) /\
  (forall lo hi def, Obj.get_i32 this name lo hi def root =
     (res_bind (Val.as_int c) (fun _ => Int.get_i32_lo_hi c lo hi), root')) /\
  (forall lo hi def, Obj.get_i64 this name lo hi def root =
     (res_bind (Val.as_int c) (fun _ => Int.get_lo_hi c lo hi), root')) /\
  (forall lo hi def, Obj.get_f64 this name lo hi def root =
     (res_bind (Val.as_f64 c) (fun _ => F64.get_lo_hi c lo hi), root')) /\
  (forall def, Obj.get_str this name def root =
     (res_bind (Val.as_str c) (fun _ => Ok (Some (Str.get c))), root')) /\
  (forall str_set required, Obj.get_str_enum_idx this name str_set required root =
     (res_bind (Val.as_str c) (fun _ => Str.get_enum_idx c str_set), root')).
Proof.
  intros Hd Hm Hc root'.
  pose proof (fun required => get_member_valid this name required root o i c Hd Hm Hc)
    as Hget.
  pose proof (read_marked root this o i c Hd Hc) as Hread. fold root' in Hread.
  unfold Obj.get_bool, Obj.get_i32, Obj.get_i64, Obj.get_f64, Obj.get_str,
    Obj.get_str_enum_idx.
  unfold Val.as_bool, Val.as_int, Val.as_f64, Val.as_str.
  repeat split; intros; unfold acc_bind at 1; rewrite Hget; fold root';
    unfold acc_bind at 1; rewrite Hread; unfold acc_bind, acc_lift, acc_ret;
    rewrite val_cast_mark;
    match goal with |- context [Val.val_cast ?T ?E c] => destruct (Val.val_cast T E c) end;
    cbn [res_bind];
    rewrite ?int_get_i32_lo_hi_mark, ?int_get_lo_hi_mark, ?f64_get_lo_hi_mark,
      ?str_get_enum_idx_mark;
    try reflexivity;
    match goal with |- context [match ?x with Ok _ => _ | Throw _ => _ end] =>
      destruct x end; reflexivity.
Qed.

Lemma present_member_ignores_default_witness :
  fst (Obj.get_bool [] "known" (Some true) doc) =
    Throw (ErrBadType
             {| line := 1; val_name := "known"; val_idx := 0; val_type := vtInt |}
             vtBool).
Proof.
  assert (Hm : dict_map doc !! "known" = Some (Z.of_nat 0)) by (vm_compute; reflexivity).
  assert (Hc : list_values doc !! 0%nat = Some doc_known) by (vm_compute; reflexivity).
  destruct (present_member_ignores_default doc [] doc "known" 0 doc_known eq_refl Hm Hc)
    as (H & _).
  rewrite (H (Some true)). vm_compute. reflexivity.
Defined.

(** ** Positions in an Array *)

(** X9.  An index is valid exactly when it is at least 0 and below the length.
    For a valid index [get_element] returns (and marks) the element at that
    position; for any other, also a negative one, [get_element], every typed
    getter by position and [get_member_name] throw [std::out_of_range] and
    leave the document as it was.  [get_len] returns the length. *)
Theorem element_index_bounds (root : ValImpl) (this : ref) (arr : ValImpl) (idx : Z) :
  deref root this = Some arr ->
  (0 <= idx < Z.of_nat (length (list_values arr)) ->
   Arr.get_element this idx root =
     (Ok (this ++ [Z.to_nat idx])%list,
      modify_at ValImpl.mark_as_used (this ++ [Z.to_nat idx])%list root)) /\
  (idx < 0 \/ Z.of_nat (length (list_values arr)) <= idx ->
   Arr.get_element this idx root = (Throw std_out_of_range, root) /\
   (forall g, run_arr_getter g this idx root = (Throw std_out_of_range, root)) /\
   Obj.get_member_name this idx root = (Throw std_out_of_range, root)) /\
  (Z.of_nat (length (list_values arr)) <= INT32_MAX ->
   Arr.get_len this root = (Ok (Z.of_nat (length (list_values arr))), root)).
Proof.
  intros Hd. split; [|split].
  - intros Hi. destruct (lookup_lt_is_Some_2 (list_values arr) (Z.to_nat idx)) as (v & Hv);
      [lia|].
    rewrite <- (get_element_valid this (Z.to_nat idx) root arr v Hd Hv).
    now rewrite Z2Nat.id by lia.
  - intros Hi.
    assert (Hout : ArrImpl.get_element arr idx = Throw std_out_of_range).
    { unfold ArrImpl.get_element.
      destruct (Z.leb_spec 0 idx), (Z.ltb_spec idx (Z.of_nat (length (list_values arr))));
        cbn [andb]; try reflexivity; lia. }
    assert (Hge : Arr.get_element this idx root = (Throw std_out_of_range, root)).
    { unfold Arr.get_element, acc_bind, acc_read, acc_lift.
      rewrite Hd. cbn [from_option id]. now rewrite Hout. }
    split; [exact Hge|]. split.
    + intros g. destruct g; cbn [run_arr_getter];
        unfold acc_void, Arr.get_bool, Arr.get_i32, Arr.get_i64, Arr.get_f64, Arr.get_str,
          Arr.get_arr, Arr.get_obj, acc_bind; rewrite Hge; reflexivity.
    + unfold Obj.get_member_name, acc_bind, acc_read, acc_lift.
      rewrite Hd. cbn [from_option id]. now rewrite Hout.
  - intros Hlen. unfold Arr.get_len, acc_bind, acc_read, acc_ret, ArrImpl.get_len.
    rewrite Hd. cbn [from_option id].
    rewrite to_int32_id by (unfold INT32_MIN, INT32_MAX in *; lia). reflexivity.
Qed.

Lemma element_index_bounds_witness :
  Arr.get_element [] (-1) arr_1_2 = (Throw std_out_of_range, arr_1_2) /\
  Arr.get_element [] 2 arr_1_2 = (Throw std_out_of_range, arr_1_2) /\
  Arr.get_len [] arr_1_2 = (Ok 2, arr_1_2).
Proof.
  split; [|split].
  - apply (element_index_bounds arr_1_2 [] arr_1_2 (-1) eq_refl). left. lia.
  - apply (element_index_bounds arr_1_2 [] arr_1_2 2 eq_refl). right. cbn. lia.
  - apply (element_index_bounds arr_1_2 [] arr_1_2 0 eq_refl). cbn. unfold INT32_MAX. lia.
Defined.

(** ** [ignore_members] *)

Lemma deref_ignore_element r : forall v w,
  well_formed v -> deref (ignore_element v) r = Some w -> ValImpl.used w = true.
Proof.
  induction r as [|i r IH]; intros v w Hwf; cbn [deref].
  - intros [= <-]. apply used_ignore_element.
  - destruct (is_container v) eqn:Hc.
    + rewrite list_values_ignore_element by exact Hc.
      change (map ignore_element) with (fmap (M := list) ignore_element).
      rewrite list_lookup_fmap.
      destruct (list_values v !! i) as [c|] eqn:E; cbn; [|discriminate].
      apply IH. exact (wf_element v i c Hwf E).
    + rewrite ignore_element_unfold, Hc, list_values_mark.
      rewrite (wf_scalar_no_elements v Hwf Hc). rewrite lookup_nil. discriminate.
Qed.

Lemma deref_do_ignore v r w :
  well_formed v -> r <> [] -> deref (do_ignore_members v) r = Some w ->
  ValImpl.used w = true.
Proof.
  intros Hwf Hr. destruct r as [|i r]; [congruence|]. cbn [deref].
  unfold do_ignore_members. destruct (is_container v) eqn:Hc.
  - rewrite list_values_map_values.
    change (map ignore_element) with (fmap (M := list) ignore_element).
    rewrite list_lookup_fmap.
    destruct (list_values v !! i) as [c|] eqn:E; cbn; [|discriminate].
    apply deref_ignore_element. exact (wf_element v i c Hwf E).
  - rewrite (wf_scalar_no_elements v Hwf Hc). rewrite lookup_nil. discriminate.
Qed.

Lemma used_do_ignore v : ValImpl.used (do_ignore_members v) = ValImpl.used v.
Proof. unfold do_ignore_members. destruct (is_container v); reflexivity. Qed.

(** X10.  [ignore_members] on the value at [this] of a well-formed document never
    throws, marks every value below it, children and all their descendants,
    and leaves the flag of the value itself as it was: an unread member that
    is passed to [ignore_members] still counts as unknown for its parent. *)
Theorem ignore_members_marks_descendants (root : ValImpl) (this : ref) (v : ValImpl) :
  well_formed root -> deref root this = Some v ->
  fst (Val_ignore_members this root) = Ok tt /\
  (forall r w, r <> [] ->
     deref (snd (Val_ignore_members this root)) (this ++ r)%list = Some w ->
     ValImpl.used w = true) /\
  (accessed (snd (Val_ignore_members this root)) this <-> accessed root this).
Proof.
  intros Hroot Hd. pose proof (well_formed_deref this root v Hroot Hd) as Hwf.
  unfold Val_ignore_members, acc_modify. cbn [fst snd].
  pose proof (deref_modify_at do_ignore_members this root v Hd) as Hd'.
  split; [reflexivity|]. split.
  - intros r w Hr. rewrite deref_app, Hd'. cbn. now apply deref_do_ignore.
  - unfold accessed. rewrite Hd', Hd. split; intros (w & [= <-] & Hu); eexists;
      (split; [reflexivity|]); [rewrite <- used_do_ignore|rewrite used_do_ignore]; exact Hu.
Qed.

Lemma ignore_members_marks_descendants_witness :
  (forall r w, r <> [] ->
     deref (snd (Val_ignore_members [1%nat] doc)) ([1%nat] ++ r)%list = Some w ->
     ValImpl.used w = true) /\
  (accessed (snd (Val_ignore_members [1%nat] doc)) [1%nat] <-> accessed doc [1%nat]).
Proof.
  assert (Hd : deref doc [1%nat] = Some doc_extra) by (vm_compute; reflexivity).
  exact (proj2 (ignore_members_marks_descendants doc [1%nat] doc_extra doc_well_formed Hd)).
Defined.

(** ** Enumerations *)

Lemma enum_search_found str : forall str_set i0 i,
  Str.enum_search str str_set i0 = Some i ->
  exists k, i = i0 + Z.of_nat k /\ str_set !! k = Some str /\
            forall j, (j < k)%nat -> str_set !! j <> Some str.
Proof.
  induction str_set as [|s rest IH]; intros i0 i; cbn [Str.enum_search]; [discriminate|].
  destruct (String.eqb_spec str s) as [<-|Hne].
  - intros [= <-]. exists 0%nat. repeat split; [lia|]. intros j Hj. lia.
  - intros H. destruct (IH _ _ H) as (k & -> & Hk & Hfirst).
    exists (S k). repeat split; [lia|exact Hk|].
    intros [|j] Hj; cbn; [congruence|]. apply Hfirst. lia.
Qed.

Lemma enum_search_none str : forall str_set i0,
  Str.enum_search str str_set i0 = None -> forall k, str_set !! k <> Some str.
Proof.
  induction str_set as [|s rest IH]; intros i0; cbn [Str.enum_search].
  - intros _ k. rewrite lookup_nil. discriminate.
  - destruct (String.eqb_spec str s) as [<-|Hne]; [discriminate|].
    intros H [|k]; cbn; [congruence|]. exact (IH _ H k).
Qed.

(** X11.  [get_enum_idx] returns the position of the first string of [str_set]
    equal to the string of the value, and throws unsupported-value (citing
    the value) exactly when no string of the set is equal to it.  The set has
    at most [INT32_MAX] strings. *)
Theorem get_enum_idx_spec (v : ValImpl) (str_set : list string) :
  Z.of_nat (length str_set) <= INT32_MAX ->
  (forall k, str_set !! k = Some (Str.get v) ->
     (forall j, (j < k)%nat -> str_set !! j <> Some (Str.get v)) ->
     Str.get_enum_idx v str_set = Ok (Z.of_nat k)) /\
  ((forall k, str_set !! k <> Some (Str.get v)) <->
   Str.get_enum_idx v str_set = Throw (ErrBadEnum (Val.err_value v))).
Proof.
  intros Hlen. unfold Str.get_enum_idx.
  destruct (Str.enum_search (Str.get v) str_set 0) as [i|] eqn:E.
  - destruct (enum_search_found _ _ _ _ E) as (k & -> & Hk & Hfirst).
    pose proof (lookup_lt_Some _ _ _ Hk) as Hlt.
    rewrite to_int32_id by (unfold INT32_MIN, INT32_MAX in *; lia).
    split.
    + intros k' Hk' Hfirst'. f_equal.
      destruct (Nat.lt_trichotomy k k') as [H|[H|H]]; [|lia|].
      * destruct (Hfirst' k H Hk).
      * destruct (Hfirst k' H Hk').
    + split; [|discriminate]. intros H. destruct (H k Hk).
  - pose proof (enum_search_none _ _ _ E) as Hnone. split.
    + intros k Hk. destruct (Hnone k Hk).
    + split; [reflexivity|intros _; exact Hnone].
Qed.

Lemma get_enum_idx_spec_witness :
  Str.get_enum_idx (root_str "b") ["a"; "b"; "b"] = Ok 1 /\
  Str.get_enum_idx (root_str "c") ["a"; "b"; "b"] =
    Throw (ErrBadEnum (Val.err_value (root_str "c"))).
Proof.
  split.
  - apply (proj1 (get_enum_idx_spec (root_str "b") ["a"; "b"; "b"]
                    ltac:(cbn; unfold INT32_MAX; lia)) 1%nat).
    + reflexivity.
    + intros [|j] Hj; [discriminate|lia].
  - apply (proj2 (get_enum_idx_spec (root_str "c") ["a"; "b"; "b"]
                    ltac:(cbn; unfold INT32_MAX; lia))).
    intros [|[|[|k]]]; discriminate.
Defined.

(** ** String literals *)

Lemma string_app_cons c (s t : string) : String c s ++ t = String c (s ++ t).
Proof. reflexivity. Qed.

Lemma string_app_assoc (a b c : string) : (a ++ b) ++ c = a ++ (b ++ c).
Proof.
  induction a as [|x a IH]; [reflexivity|].
  rewrite !string_app_cons. now rewrite IH.
Qed.

Lemma string_length_app (a b : string) :
  String.length (a ++ b) = (String.length a + String.length b)%nat.
Proof.
  induction a as [|x a IH]; [reflexivity|].
  rewrite string_app_cons. cbn [String.length]. now rewrite IH.
Qed.

Lemma deref_char_c_str s : deref_char (c_str s) = deref_char s.
Proof.
  destruct s as [|c s]; [reflexivity|]. cbn [c_str deref_char].
  destruct (Ascii.eqb_spec c NUL) as [->|]; reflexivity.
Qed.

(** A prefix without zero bytes is kept by the copy [Json::parse] makes. *)
Lemma c_str_app a b : c_str a = a -> c_str (a ++ b) = a ++ c_str b.
Proof.
  induction a as [|x a IH]; [reflexivity|].
  rewrite !string_app_cons. cbn [c_str].
  destruct (Ascii.eqb x NUL); [discriminate|].
  intros [= E]. now rewrite (IH E).
Qed.

Lemma c_str_cons c s : c <> NUL -> c_str (String c s) = String c (c_str s).
Proof.
  intros Hc. cbn [c_str]. destruct (Ascii.eqb_spec c NUL); [contradiction|reflexivity].
Qed.

Lemma c_str_fixed_app a b : c_str a = a -> c_str b = b -> c_str (a ++ b) = a ++ b.
Proof. intros Ha Hb. now rewrite c_str_app, Hb. Qed.

(** *** Writing a string as a literal *)

(** One turn of the loop of [parse_str] reads one escaped character. *)
Lemma parse_str_loop_escape_ascii P c fuel out rest l :
  0 < byte_code c < 128 ->
  Parser.parse_str_loop P (S fuel) out (mkParser (escape_char c ++ rest) l) =
  Parser.parse_str_loop P fuel (out ++ [c]) (mkParser rest l).
Proof.
  destruct c as [[|] [|] [|] [|] [|] [|] [|] [|]]; intros Hc;
    try (exfalso; vm_compute in Hc; destruct Hc as [H1 H2]; discriminate);
    reflexivity.
Qed.

Lemma c_str_escape_ascii c : 0 < byte_code c < 128 -> c_str (escape_char c) = escape_char c.
Proof.
  destruct c as [[|] [|] [|] [|] [|] [|] [|] [|]]; intros Hc;
    try (exfalso; vm_compute in Hc; destruct Hc as [H1 H2]; discriminate);
    reflexivity.
Qed.

Lemma length_escape_ascii c : 0 < byte_code c < 128 -> (1 <= String.length (escape_char c))%nat.
Proof.
  destruct c as [[|] [|] [|] [|] [|] [|] [|] [|]]; intros Hc;
    try (exfalso; vm_compute in Hc; destruct Hc as [H1 H2]; discriminate);
    vm_compute; lia.
Qed.

(** Bytes from 128 on, where [char] is unsigned: written as they are. *)
Lemma escape_char_high c : 128 <= byte_code c -> escape_char c = String c EmptyString.
Proof.
  destruct c as [[|] [|] [|] [|] [|] [|] [|] [|]]; intros Hc;
    try (exfalso; vm_compute in Hc; apply Hc; reflexivity); reflexivity.
Qed.

Lemma parse_str_loop_high P c fuel out rest l :
  char_signed P = false -> 128 <= byte_code c ->
  Parser.parse_str_loop P (S fuel) out (mkParser (String c rest) l) =
  Parser.parse_str_loop P fuel (out ++ [c]) (mkParser rest l).
Proof.
  intros HP. unfold Parser.parse_str_loop at 1. cbn [m_next deref_char set_next].
  unfold char_val. rewrite HP, !andb_false_r.
  destruct c as [[|] [|] [|] [|] [|] [|] [|] [|]]; intros Hc;
    try (exfalso; vm_compute in Hc; apply Hc; reflexivity); reflexivity.
Qed.

Lemma byte_code_range c : 0 <= byte_code c < 256.
Proof.
  destruct c as [[|] [|] [|] [|] [|] [|] [|] [|]]; vm_compute;
    (split; [discriminate|reflexivity]).
Qed.

Lemma byte_code_nul c : byte_code c = 0 -> c = NUL.
Proof.
  destruct c as [[|] [|] [|] [|] [|] [|] [|] [|]]; vm_compute; intros H;
    try discriminate; reflexivity.
Qed.

Lemma writable_cases P c :
  writable P c ->
  0 < byte_code c < 128 \/ (char_signed P = false /\ 128 <= byte_code c).
Proof.
  intros [Hn Hs]. pose proof (byte_code_range c).
  assert (byte_code c <> 0) by (intros E; apply Hn, byte_code_nul, E).
  destruct (char_signed P); [left; specialize (Hs eq_refl); lia|].
  destruct (Z.lt_ge_cases (byte_code c) 128); [left; lia|right; split; [reflexivity|lia]].
Qed.

Lemma parse_str_loop_writable P c fuel out rest l :
  writable P c ->
  Parser.parse_str_loop P (S fuel) out (mkParser (escape_char c ++ rest) l) =
  Parser.parse_str_loop P fuel (out ++ [c]) (mkParser rest l).
Proof.
  intros H. destruct (writable_cases P c H) as [Ha|[HP Hh]].
  - now apply parse_str_loop_escape_ascii.
  - rewrite (escape_char_high c Hh). now apply parse_str_loop_high.
Qed.

Lemma c_str_escape_char P c : writable P c -> c_str (escape_char c) = escape_char c.
Proof.
  intros H. destruct (writable_cases P c H) as [Ha|[HP Hh]].
  - now apply c_str_escape_ascii.
  - rewrite (escape_char_high c Hh). destruct H as [Hn _]. now rewrite c_str_cons.
Qed.

Lemma length_escape_char P c : writable P c -> (1 <= String.length (escape_char c))%nat.
Proof.
  intros H. destruct (writable_cases P c H) as [Ha|[HP Hh]].
  - now apply length_escape_ascii.
  - rewrite (escape_char_high c Hh). cbn. lia.
Qed.

Lemma parse_str_loop_escape P s : forall fuel out rest l,
  Forall (writable P) (list_ascii_of_string s) ->
  Parser.parse_str_loop P (String.length s + fuel) out (mkParser (escape s ++ rest) l) =
  Parser.parse_str_loop P fuel (out ++ list_ascii_of_string s)%list (mkParser rest l).
Proof.
  induction s as [|c s IH]; intros fuel out rest l Hs;
    cbn [escape String.length list_ascii_of_string Nat.add].
  - now rewrite app_nil_r.
  - apply Forall_cons in Hs. destruct Hs as [Hc Hs].
    rewrite string_app_assoc, (parse_str_loop_writable P c) by exact Hc.
    rewrite IH by exact Hs. now rewrite <- app_assoc.
Qed.

Lemma c_str_escape P s :
  Forall (writable P) (list_ascii_of_string s) -> c_str (escape s) = escape s.
Proof.
  induction s as [|c s IH]; intros Hs; cbn [escape list_ascii_of_string] in *;
    [reflexivity|].
  apply Forall_cons in Hs. destruct Hs as [Hc Hs].
  apply c_str_fixed_app; [now apply (c_str_escape_char P)|now apply IH].
Qed.

Lemma c_str_writable P s :
  Forall (writable P) (list_ascii_of_string s) -> c_str s = s.
Proof.
  induction s as [|c s IH]; intros Hs; cbn [list_ascii_of_string] in *; [reflexivity|].
  apply Forall_cons in Hs. destruct Hs as [[Hc _] Hs].
  rewrite c_str_cons by exact Hc. now rewrite IH.
Qed.

Lemma length_escape P s :
  Forall (writable P) (list_ascii_of_string s) ->
  (String.length s <= String.length (escape s))%nat.
Proof.
  induction s as [|c s IH]; intros Hs; cbn [escape list_ascii_of_string String.length] in *;
    [lia|].
  apply Forall_cons in Hs. destruct Hs as [Hc Hs].
  rewrite string_length_app. pose proof (length_escape_char P c Hc). specialize (IH Hs). lia.
Qed.

(** On a double quote [parse_val] returns the Str value of the literal, or
    throws what the loop of [parse_str] throws. *)
Lemma parse_val_string P depth parent rest l :
  Parser.parse_val P (S depth) parent (mkParser (String DQUOTE rest) l) =
    match Parser.parse_str_loop P (S (String.length rest)) [] (mkParser rest l) with
    | None => None
    | Some (Throw e) => Some (Throw e)
    | Some (Ok (s, p')) => Some (Ok (ValImpl.init_str s (Parser.add_val parent p'), p'))
    end.
Proof.
  set (p := mkParser (String DQUOTE rest) l).
  assert (Hws : Parser.ws p = Some (Ok p)) by reflexivity.
  assert (Hnull : Parser.parse_val_null parent p = (None, p)) by reflexivity.
  assert (Hbool : Parser.parse_val_bool parent p = (None, p)) by reflexivity.
  assert (Hnum : Parser.parse_val_num P parent p = Ok (None, p)) by reflexivity.
  assert (Hstr : Parser.parse_str P p =
            let! r := Parser.parse_str_loop P (S (String.length rest)) [] (mkParser rest l) in
            Some (Ok (Some (fst r), snd r))) by reflexivity.
  cbn [Parser.parse_val]. rewrite Hws. cbn [pbind]. rewrite Hnull, Hbool, Hnum.
  unfold Parser.parse_val_str. rewrite Hstr.
  destruct (Parser.parse_str_loop P _ [] _) as [[[s p']|e]|]; reflexivity.
Qed.

Lemma parse_literal P body s :
  c_str body = body ->
  Parser.parse_str_loop P (S (String.length body)) [] (mkParser body 1) =
    Some (Ok (s, mkParser EmptyString 1)) ->
  Json.parse P (String DQUOTE body) = Some (Ok (root_str s)).
Proof.
  intros Hc Hloop. unfold Json.parse, Json.parse_in_place, Parser.parse.
  rewrite c_str_cons, Hc by discriminate.
  unfold Parser.init. cbn [String.length]. rewrite parse_val_string, Hloop. reflexivity.
Qed.

Lemma parse_literal_throw P body e :
  c_str body = body ->
  Parser.parse_str_loop P (S (String.length body)) [] (mkParser body 1) = Some (Throw e) ->
  Json.parse P (String DQUOTE body) = Some (Throw e).
Proof.
  intros Hc Hloop. unfold Json.parse, Json.parse_in_place, Parser.parse.
  rewrite c_str_cons, Hc by discriminate.
  unfold Parser.init. cbn [String.length]. rewrite parse_val_string, Hloop. reflexivity.
Qed.

(** X12.  Every string can be written as a literal and read back.  For a string
    [s] without zero bytes (and, where [char] is signed, without bytes from
    128 on), the document made of [escape s] between double quotes parses to
    the Str value [s]: the characters that need no escape stand for
    themselves, the two-character escapes and [\u00XX] decode to the
    character they name. *)
Theorem string_round_trip (P : Platform) (s : string) :
  Forall (writable P) (list_ascii_of_string s) ->
  Json.parse P (quoted (escape s)) = Some (Ok (root_str s)).
Proof.
  intros Hs. unfold quoted. apply parse_literal.
  - apply c_str_fixed_app; [now apply (c_str_escape P)|reflexivity].
  - pose proof (length_escape P s Hs) as Hlen.
    replace (S (String.length (escape s ++ String DQUOTE EmptyString)))
      with (String.length s + S (S (String.length (escape s) - String.length s)))%nat
      by (rewrite string_length_app; cbn [String.length]; lia).
    rewrite (parse_str_loop_escape P s) by exact Hs.
    cbn [Parser.parse_str_loop m_next deref_char set_next advance app].
    change (Ascii.eqb DQUOTE DQUOTE) with true. cbv iota.
    rewrite string_of_list_ascii_of_string, (c_str_writable P s Hs). reflexivity.
Qed.

Lemma string_round_trip_witness :
  Json.parse RefPlatform.platform (quoted (escape (dq "say 'hi'\")))
  = Some (Ok (root_str (dq "say 'hi'\"))).
Proof.
  apply (string_round_trip RefPlatform.platform).
  vm_compute. repeat constructor; discriminate.
Defined.

Example escape_example :
  escape (String "a" (String DQUOTE (String LF (String "\" (String "001" "z")))))
  = "a\u0022\n\\\u0001z".
Proof. reflexivity. Qed.

(** *** Decoding in place *)











(** *** What a literal may not contain *)

Lemma deref_char_advance_c_str s :
  deref_char s <> NUL ->
  deref_char (advance 1 (c_str s)) = deref_char (advance 1 s).
Proof.
  destruct s as [|c s]; [reflexivity|]. cbn [deref_char]. intros Hc.
  rewrite c_str_cons by exact Hc. cbn [advance]. apply deref_char_c_str.
Qed.

(** The loop of [parse_str] after the part of a literal already written. *)
Lemma parse_literal_tail P s tail r :
  Forall (writable P) (list_ascii_of_string s) ->
  (forall fuel out,
     Parser.parse_str_loop P (S fuel) out (mkParser (c_str tail) 1) = Some (Throw r)) ->
  Json.parse P (String DQUOTE (escape s ++ tail)) = Some (Throw r).
Proof.
  intros Hs Hloop.
  assert (Hdoc : Json.parse P (String DQUOTE (escape s ++ tail)) =
                 Json.parse P (String DQUOTE (escape s ++ c_str tail))).
  { unfold Json.parse. f_equal. rewrite !c_str_cons by discriminate.
    rewrite !c_str_app by (now apply (c_str_escape P)). now rewrite c_str_idem. }
  rewrite Hdoc. apply parse_literal_throw.
  - apply c_str_fixed_app; [now apply (c_str_escape P)|apply c_str_idem].
  - pose proof (length_escape P s Hs) as Hlen.
    replace (S (String.length (escape s ++ c_str tail)))
      with (String.length s +
            S (String.length (escape s) - String.length s + String.length (c_str tail)))%nat
      by (rewrite string_length_app; lia).
    rewrite (parse_str_loop_escape P s) by exact Hs. apply Hloop.
Qed.

(** X14.  The errors of a literal, after any part [escape s] that is well
    written.  If what follows begins with the end of the input, a carriage
    return or a line feed, the error is that of a line ending before the
    closing quotes; with any other character that compares below a space (a
    control character, or a byte from 128 on where [char] is signed), it is
    that of a control character; with a backslash followed by anything but
    [\ / b f n r t u] (so also by a double quote: the only way to write a
    double quote inside a literal is [\u0022]), it is the error of a bad
    escape character.  All cite line 1, the literal being the document. *)
Theorem literal_errors (P : Platform) (s tail : string) :
  Forall (writable P) (list_ascii_of_string s) ->
  let doc := String DQUOTE (escape s ++ tail) in
  let c := deref_char tail in
  let e := deref_char (advance 1 tail) in
  (c = NUL \/ c = CR \/ c = LF ->
   Json.parse P doc =
     Some (Throw (ErrSyntax "invalid string syntax: line ending before closing quotes" 1))) /\
  (c <> DQUOTE -> c <> CR -> c <> LF -> c <> NUL -> char_val P c < char_val P " " ->
   Json.parse P doc =
     Some (Throw (ErrSyntax "invalid string syntax: control characters not allowed" 1))) /\
  (char_signed P = true -> 128 <= byte_code c ->
   Json.parse P doc =
     Some (Throw (ErrSyntax "invalid string syntax: control characters not allowed" 1))) /\
  (c = "\"%char -> ~ In e (list_ascii_of_string "\/bfnrtu") ->
   Json.parse P doc =
     Some (Throw (ErrSyntax "invalid string syntax: bad escape character" 1))).
Proof.
  intros Hs doc c e.
  assert (Hctl : c <> DQUOTE -> c <> CR -> c <> LF -> c <> NUL ->
                 char_val P c < char_val P " " ->
                 Json.parse P doc =
                   Some (Throw (ErrSyntax
                                  "invalid string syntax: control characters not allowed" 1))).
  { intros Hq Hcr Hlf Hnul Hlt. apply parse_literal_tail; [exact Hs|]. intros fuel out.
    cbn [Parser.parse_str_loop m_next]. rewrite deref_char_c_str. fold c.
    destruct (Ascii.eqb_spec DQUOTE c); [congruence|].
    destruct (Ascii.eqb_spec c CR); [congruence|].
    destruct (Ascii.eqb_spec c LF); [congruence|].
    destruct (Ascii.eqb_spec c NUL); [congruence|]. cbn [orb].
    destruct (Z.ltb_spec (char_val P c) (char_val P " ")); [reflexivity|lia]. }
  split; [|split; [exact Hctl|split]].
  - intros Hc. apply parse_literal_tail; [exact Hs|]. intros fuel out.
    cbn [Parser.parse_str_loop m_next]. rewrite deref_char_c_str. fold c.
    destruct Hc as [E | [E | E]]; rewrite E; reflexivity.
  - intros HP Hhigh.
    assert (Hval : char_val P c = byte_code c - 256).
    { unfold char_val. rewrite HP. destruct (Z.leb_spec 128 (byte_code c)); [reflexivity|lia]. }
    pose proof (byte_code_range c).
    apply Hctl; try (intros E; rewrite E in Hhigh; vm_compute in Hhigh; apply Hhigh;
                     reflexivity).
    rewrite Hval. change (char_val P " ") with 32. lia.
  - intros Hc He. apply parse_literal_tail; [exact Hs|]. intros fuel out.
    assert (Hnul : deref_char tail <> NUL) by (fold c; rewrite Hc; discriminate).
    cbn [Parser.parse_str_loop m_next set_next]. rewrite deref_char_c_str.
    rewrite (deref_char_advance_c_str tail Hnul). fold c e. rewrite Hc.
    change (Ascii.eqb DQUOTE "\") with false.
    change (Ascii.eqb "\" CR || Ascii.eqb "\" LF || Ascii.eqb "\" NUL) with false.
    change (char_val P "\" <? char_val P " ") with false.
    change (Ascii.eqb "\" "\") with true. cbv iota.
    cbn [In list_ascii_of_string] in He.
    repeat match goal with
           | |- context [Ascii.eqb e ?x] =>
               destruct (Ascii.eqb_spec e x) as [Heq|_];
               [exfalso; apply He; rewrite <- Heq; intuition reflexivity|]
           end.
    reflexivity.
Qed.

Lemma literal_errors_witness :
  Json.parse RefPlatform.platform (dq "'say \'hi\''") =
    Some (Throw (ErrSyntax "invalid string syntax: bad escape character" 1)) /\
  Json.parse RefPlatform.platform (String DQUOTE (String "a" (String "233" "b"))) =
    Some (Throw (ErrSyntax "invalid string syntax: control characters not allowed" 1)) /\
  Json.parse RefPlatform.platform (String DQUOTE "abc") =
    Some (Throw (ErrSyntax "invalid string syntax: line ending before closing quotes" 1)).
Proof.
  assert (Hw : forall s, forallb (fun c => (0 <? byte_code c) && (byte_code c <? 128))
                           (list_ascii_of_string s) = true ->
                         Forall (writable RefPlatform.platform) (list_ascii_of_string s)).
  { intros s H. apply Forall_forall. intros c Hc. rewrite forallb_forall in H.
    apply list_elem_of_In in Hc. specialize (H c Hc). apply andb_true_iff in H.
    destruct H as [H1 H2]. apply Z.ltb_lt in H1, H2. split; [|lia].
    intros ->. vm_compute in H1. discriminate. }
  split; [|split].
  - apply (proj2 (proj2 (proj2 (literal_errors RefPlatform.platform "say "
                                  (dq "\'hi\''") (Hw "say " eq_refl))))).
    + reflexivity.
    + vm_compute. intuition discriminate.
  - apply (proj1 (proj2 (proj2 (literal_errors RefPlatform.platform "a"
                                  (String "233" "b") (Hw "a" eq_refl))))).
    + reflexivity.
    + vm_compute. discriminate.
  - apply (proj1 (literal_errors RefPlatform.platform "abc" EmptyString (Hw "abc" eq_refl))).
    left. reflexivity.
Defined.

(** ** Unicode escapes, byte for byte *)

(** One turn of the loop of [parse_hex4]. *)
Lemma parse_hex4_loop_step P i c s code :
  Parser.parse_hex4_loop P (S i) (String c s) code =
    match hex_value c with
    | Some v => Parser.parse_hex4_loop P i s (u32_add (u32_shl code 4) v)
    | None => None
    end.
Proof.
  cbn [Parser.parse_hex4_loop deref_char advance]. unfold Parser.is_digit, char_val.
  destruct (char_signed P);
    destruct c as [[|] [|] [|] [|] [|] [|] [|] [|]]; reflexivity.
Qed.

Lemma parse_hex4_loop_end P i code :
  Parser.parse_hex4_loop P (S i) EmptyString code = None.
Proof.
  cbn [Parser.parse_hex4_loop deref_char advance]. unfold Parser.is_digit, char_val.
  destruct (char_signed P); reflexivity.
Qed.

Lemma hex_value_range c v : hex_value c = Some v -> 0 <= v < 16.
Proof.
  unfold hex_value.
  destruct (Z.leb_spec 48 (byte_code c)), (Z.leb_spec (byte_code c) 57); cbn [andb];
    try (intros [= <-]; lia);
    destruct (Z.leb_spec 65 (byte_code c)), (Z.leb_spec (byte_code c) 70); cbn [andb];
    try (intros [= <-]; lia);
    destruct (Z.leb_spec 97 (byte_code c)), (Z.leb_spec (byte_code c) 102); cbn [andb];
    try (intros [= <-]; lia); discriminate.
Qed.

Lemma u32_hex_step code v :
  0 <= code < 2 ^ 28 -> 0 <= v < 16 -> u32_add (u32_shl code 4) v = 16 * code + v.
Proof.
  intros Hc Hv. unfold u32_add, u32_shl. rewrite Z.shiftl_mul_pow2 by lia.
  rewrite (to_uint32_small (code * 2 ^ 4)) by lia. rewrite to_uint32_small; lia.
Qed.

(** X15.  [parse_hex4] reads four hexadecimal digits, of either case, as the
    number they write in base 16, and consumes exactly those four; if any of
    the next four characters is not a hexadecimal digit (the end of the
    input included) it throws the bad-codepoint error and consumes
    nothing. *)
Theorem parse_hex4_value (P : Platform) (p : Parser) :
  let digit k := hex_value (deref_char (advance k (m_next p))) in
  match digit 0%nat, digit 1%nat, digit 2%nat, digit 3%nat with
  | Some a, Some b, Some c, Some d =>
      Parser.parse_hex4 P p =
        Ok (4096 * a + 256 * b + 16 * c + d, set_next (advance 4 (m_next p)) p)
  | _, _, _, _ => Parser.parse_hex4 P p = Throw (bad_utf p)
  end.
Proof.
  cbv zeta. unfold Parser.parse_hex4, bad_utf, Parser.raise_bad_utf.
  destruct (m_next p) as [|c0 s0]; [rewrite parse_hex4_loop_end; reflexivity|].
  rewrite parse_hex4_loop_step. cbn [advance deref_char].
  destruct (hex_value c0) as [a|] eqn:Ha; [|reflexivity].
  pose proof (hex_value_range _ _ Ha). rewrite u32_hex_step by lia.
  destruct s0 as [|c1 s1];
    [rewrite parse_hex4_loop_end; reflexivity|].
  rewrite parse_hex4_loop_step. cbn [advance deref_char].
  destruct (hex_value c1) as [b|] eqn:Hb; [|reflexivity].
  pose proof (hex_value_range _ _ Hb). rewrite u32_hex_step by lia.
  destruct s1 as [|c2 s2];
    [rewrite parse_hex4_loop_end; reflexivity|].
  rewrite parse_hex4_loop_step. cbn [advance deref_char].
  destruct (hex_value c2) as [c|] eqn:Hc; [|reflexivity].
  pose proof (hex_value_range _ _ Hc). rewrite u32_hex_step by lia.
  destruct s2 as [|c3 s3];
    [rewrite parse_hex4_loop_end; reflexivity|].
  rewrite parse_hex4_loop_step. cbn [advance deref_char].
  destruct (hex_value c3) as [d|] eqn:Hd; [|reflexivity].
  pose proof (hex_value_range _ _ Hd). rewrite u32_hex_step by lia.
  cbn [Parser.parse_hex4_loop]. do 2 f_equal. lia.
Qed.

Lemma byte_code_to_char n : 0 <= n < 256 -> byte_code (to_char n) = n.
Proof.
  intros Hn. unfold byte_code, to_char. rewrite Z.mod_small by lia.
  assert (H : (Z.to_N n < 256)%N).
  { change 256%N with (Z.to_N 256). apply Z2N.inj_lt; lia. }
  rewrite N_ascii_embedding by exact H. apply Z2N.id. lia.
Qed.

Lemma utf8_bytes cp :
  0 <= cp <= 0x10FFFF -> Forall (fun b => 0 <= b < 256) (utf8 cp).
Proof.
  intros Hcp. unfold utf8.
  destruct (Z.ltb_spec cp 0x80); [|destruct (Z.ltb_spec cp 0x800);
                                   [|destruct (Z.ltb_spec cp 0x10000)]];
    repeat constructor; Z.div_mod_to_equations; lia.
Qed.

Lemma byte_codes_of_utf8 cp :
  0 <= cp <= 0x10FFFF -> map byte_code (map to_char (utf8 cp)) = utf8 cp.
Proof.
  intros Hcp. pose proof (utf8_bytes cp Hcp) as H. rewrite map_map.
  induction H as [|b l Hb _ IH]; cbn [map]; [reflexivity|].
  now rewrite byte_code_to_char, IH.
Qed.

(** X16.  Whatever escape [parse_encoding] accepts, the bytes it stores, read as
    unsigned values, are the UTF-8 encoding of one Unicode scalar value: a
    lone surrogate is never encoded, and nothing is lost in the conversion
    of the byte values to [char]. *)
Theorem escape_bytes_are_utf8 (P : Platform) (p p' : Parser) (bytes : list ascii) :
  Parser.parse_encoding P p = Ok (bytes, p') ->
  exists cp, scalar_value cp /\ map byte_code bytes = utf8 cp.
Proof.
  unfold Parser.parse_encoding.
  destruct (Parser.parse_hex4 P p) as [[code p1]|e] eqn:E1; [|discriminate].
  pose proof (parse_hex4_ok P p code p1 E1) as [Hcode _].
  destruct (Z.leb_spec 0xDC00 code), (Z.leb_spec code 0xDFFF); cbn [andb];
    try discriminate;
    destruct (Z.leb_spec 0xD800 code), (Z.leb_spec code 0xDBFF); cbn [andb]; try lia.
  all: try (intros [= <- <-]; exists code; split; [unfold scalar_value; lia|];
            rewrite encode_utf8_correct by lia; apply byte_codes_of_utf8; lia).
  destruct (Parser.skip_text "\u" p1) as [[|] p2]; [|discriminate].
  destruct (Parser.parse_hex4 P p2) as [[code2 p3]|e] eqn:E3; [|discriminate].
  destruct (Z.ltb_spec code2 0xDC00), (Z.gtb_spec code2 0xDFFF); cbn [orb];
    try discriminate.
  intros [= <- <-].
  destruct (combine_surrogates_u32 code code2 ltac:(lia) ltac:(lia)) as [-> Hr].
  exists (combine_surrogates code code2). split; [unfold scalar_value; lia|].
  rewrite encode_utf8_correct by lia. apply byte_codes_of_utf8. lia.
Qed.

Lemma escape_bytes_are_utf8_witness :
  exists cp, scalar_value cp /\
    map byte_code [to_char 0xF0; to_char 0x9F; to_char 0x98; to_char 0x80] = utf8 cp.
Proof.
  apply (escape_bytes_are_utf8 RefPlatform.platform (mkParser "D83D\uDE00" 1)
           (mkParser EmptyString 1)).
  vm_compute. reflexivity.
Defined.

(** ** What the unknown-member error cites *)

Lemma wf_in_subtree v o : well_formed v -> in_subtree v o -> well_formed o.
Proof.
  intros Hwf Ho. destruct (in_subtree_deref v o Ho) as (r & Hr).
  exact (well_formed_deref r v o Hwf Hr).
Qed.

(** X17.  In a well-formed document, the unknown-member error of
    [reject_unknow_members] identifies the member it is about: it carries
    the line, the name, the position and the type of an unaccessed member of
    an Object of the swept subtree, and its name is the key under which that
    Object holds exactly that member. *)
Theorem unknown_member_is_cited (v : ValImpl) (e : Err) :
  well_formed v ->
  do_reject_unknow_members v = Throw e ->
  exists o i c,
    in_subtree v o /\ is_obj o = true /\ list_values o !! i = Some c /\
    ValImpl.used c = false /\
    dict_map o !! m_name c = Some (Z.of_nat i) /\
    e = ErrUnknownMember
          {| line := m_line_no c; val_name := m_name c; val_idx := Z.of_nat i;
             val_type := Val.get_type c |}.
Proof.
  intros Hwf He.
  destruct (do_reject_throw v e He) as (o & c & Ho & Hobj & Hin & Hu & ->).
  apply list_elem_of_In, list_elem_of_lookup in Hin. destruct Hin as (i & Hi).
  pose proof (wf_in_subtree v o Hwf Ho) as Hwo.
  destruct (wf_obj_inv o Hwo (wf_is_obj o Hwo Hobj)) as (values & m & Hd & Hc & _).
  assert (Hlv : list_values o = values) by (unfold list_values; now rewrite Hd).
  assert (Hdm : dict_map o = m) by (unfold dict_map; now rewrite Hd).
  rewrite Hlv in Hi. destruct (Hc i c Hi) as (_ & Hidx & Hm & _).
  exists o, i, c. rewrite Hlv, Hdm. repeat split; try assumption.
  unfold Val.err_value, Val.get_line, Val.get_name, Val.get_idx. now rewrite Hidx.
Qed.

Lemma doc_known_read_well_formed : well_formed doc_known_read.
Proof.
  assert (E : doc_known_read =
              snd (run (op_obj (obj_get_i64 0 (-1) None) [] "known") doc))
    by (vm_compute; reflexivity).
  rewrite E. apply wf_run, doc_well_formed.
Qed.

Lemma unknown_member_is_cited_witness :
  exists o i c,
    in_subtree doc_known_read o /\ is_obj o = true /\ list_values o !! i = Some c /\
    ValImpl.used c = false /\
    dict_map o !! m_name c = Some (Z.of_nat i) /\
    ErrUnknownMember
      {| line := 1; val_name := "extra"; val_idx := 1; val_type := vtArr |} =
    ErrUnknownMember
      {| line := m_line_no c; val_name := m_name c; val_idx := Z.of_nat i;
         val_type := Val.get_type c |}.
Proof.
  apply (unknown_member_is_cited doc_known_read).
  - exact doc_known_read_well_formed.
  - vm_compute. reflexivity.
Defined.

(** ** The grammar of numbers *)

Lemma is_digit_not_nul P c : Parser.is_digit P c = true -> c <> NUL.
Proof. intros H ->. unfold Parser.is_digit, char_val in H. cbn in H. discriminate. Qed.

(** X18.  A number may not begin with a zero followed by another digit, nor a
    minus sign be followed by anything but a digit: such a document is the
    syntax error of the number, whatever follows. *)
Theorem number_syntax_errors (P : Platform) :
  (forall c rest, Parser.is_digit P c = true ->
     Json.parse P (String "0" (String c rest)) =
       Some (Throw (ErrSyntax
         "invalid number syntax: can't start with '0' if followed by another digit" 1)) /\
     Json.parse P (String "-" (String "0" (String c rest))) =
       Some (Throw (ErrSyntax
         "invalid number syntax: can't start with '0' if followed by another digit" 1))) /\
  (forall rest, Parser.is_digit P (deref_char rest) = false ->
     Json.parse P (String "-" rest) =
       Some (Throw (ErrSyntax "invalid number syntax: no digits after '-'" 1))).
Proof.
  assert (H0 : Parser.is_digit P "0" = true) by reflexivity.
  split.
  - intros c rest Hc. pose proof (is_digit_not_nul P c Hc) as Hn.
    unfold Json.parse, Json.parse_in_place, Parser.parse.
    rewrite !c_str_cons by (exact Hn || discriminate).
    split.
    + erewrite parse_val_number_throw; [reflexivity|reflexivity|right; cbv; split; discriminate|].
      unfold Parser.parse_val_num.
      cbn [Parser.init m_next m_line_count deref_char advance Nat.add Parser.span_digits].
      change (Ascii.eqb "-" "0") with false. cbv iota.
      cbn [advance Nat.add Parser.span_digits deref_char]. rewrite H0, Hc. reflexivity.
    + erewrite parse_val_number_throw; [reflexivity|reflexivity|left; reflexivity|].
      unfold Parser.parse_val_num.
      cbn [Parser.init m_next m_line_count deref_char advance Nat.add Parser.span_digits].
      change (Ascii.eqb "-" "-") with true. cbv iota.
      cbn [advance Nat.add Parser.span_digits deref_char]. rewrite H0, Hc. reflexivity.
  - intros rest Hd.
    unfold Json.parse, Json.parse_in_place, Parser.parse.
    rewrite c_str_cons by discriminate.
    erewrite parse_val_number_throw; [reflexivity|reflexivity|left; reflexivity|].
    unfold Parser.parse_val_num.
    cbn [Parser.init m_next m_line_count deref_char advance Nat.add].
    change (Ascii.eqb "-" "-") with true. cbv iota. cbn [advance Nat.add].
    assert (Hs : Parser.span_digits P (c_str rest) = 0%nat).
    { pose proof (deref_char_c_str rest) as E.
      destruct (c_str rest) as [|x t]; [reflexivity|]. cbn [Parser.span_digits].
      cbn [deref_char] in E. now rewrite E, Hd. }
    rewrite Hs. reflexivity.
Qed.

Lemma number_syntax_errors_witness :
  Json.parse RefPlatform.platform "007" =
    Some (Throw (ErrSyntax
      "invalid number syntax: can't start with '0' if followed by another digit" 1)) /\
  Json.parse RefPlatform.platform "-x" =
    Some (Throw (ErrSyntax "invalid number syntax: no digits after '-'" 1)).
Proof.
  split.
  - apply (proj1 (proj1 (number_syntax_errors RefPlatform.platform) "0"%char "7"
             eq_refl)).
  - apply (proj2 (number_syntax_errors RefPlatform.platform) "x"). reflexivity.
Defined.

(** ** White space, comments and the line count *)

Lemma line_ends_nonneg s : 0 <= line_ends s.
Proof.
  assert (H : forall n s, (String.length s <= n)%nat -> 0 <= line_ends s).
  { induction n as [|n IH]; intros [|c t] Hlen; cbn [line_ends String.length] in *;
      try lia.
    destruct (Ascii.eqb c CR).
    - destruct t as [|c' t']; [lia|]. cbn [String.length] in Hlen.
      destruct (Ascii.eqb c' LF);
        [pose proof (IH t' ltac:(lia))|pose proof (IH (String c' t') ltac:(cbn; lia))]; lia.
    - pose proof (IH t ltac:(lia)). destruct (Ascii.eqb c LF); lia. }
  exact (H _ s (le_n _)).
Qed.





